(** * GeoHeatmap: the density-raster pipeline and the KMZ assembler

    A shallow embedding of [src/services/heatmapService.ts], of the
    archive assembler [createKmz] and of the part of [processFile] that
    calls them, with the properties of the specification stated over it.

    Numbers.  A JavaScript [number] is an IEEE-754 double.  It is modelled
    here by [num]: a rational, or one of the three special values [NaN],
    [+Infinity], [-Infinity].  Arithmetic on [num] follows IEEE-754 for the
    special values and is exact on the finite ones: rounding error is left
    out, also the rounding of a store into a [Float32Array], and zero
    carries no sign.  Quantities that the code keeps finite (grid cells,
    kernel weights) are plain rationals [Q]; the coordinates of a row are
    numbers, which the parser lets be infinite.

    [Math.exp] is a parameter of the kernel; the properties that need it
    assume that it is positive.

    Loops are folds over the list of their indices, and a typed array is a
    list updated in place by [upd]. *)

From Stdlib Require Import String Ascii Bool Arith ZArith QArith Qround List Lia Lqa.
From Stdlib Require Import Permutation Sorted FinFun.
Import ListNotations.

Open Scope Q_scope.

(* ================================================================== *)
(** * Part I: definitions *)
(* ================================================================== *)

(** ** JavaScript numbers *)

Inductive num : Type :=
| NaN
| PInf
| NInf
| Fin (q : Q).

Module Num.

Definition Qis_zero (q : Q) : bool := Qeq_bool q 0.
Definition Qltb (a b : Q) : bool := negb (Qle_bool b a).

(** [a + b] *)
Definition add (a b : num) : num :=
  match a, b with
  | NaN, _ | _, NaN => NaN
  | PInf, NInf | NInf, PInf => NaN
  | PInf, _ | _, PInf => PInf
  | NInf, _ | _, NInf => NInf
  | Fin x, Fin y => Fin (x + y)
  end.

(** [a - b] *)
Definition sub (a b : num) : num :=
  match a, b with
  | NaN, _ | _, NaN => NaN
  | PInf, PInf | NInf, NInf => NaN
  | PInf, _ | _, NInf => PInf
  | NInf, _ | _, PInf => NInf
  | Fin x, Fin y => Fin (x - y)
  end.

(** An infinity of the sign of [q] times [pos]; [NaN] when [q] is zero. *)
Definition inf_signed (pos : bool) (q : Q) : num :=
  if Qis_zero q then NaN
  else if Bool.eqb pos (Qltb 0 q) then PInf else NInf.

(** [a * b] *)
Definition mul (a b : num) : num :=
  match a, b with
  | NaN, _ | _, NaN => NaN
  | PInf, PInf | NInf, NInf => PInf
  | PInf, NInf | NInf, PInf => NInf
  | PInf, Fin y => inf_signed true y
  | NInf, Fin y => inf_signed false y
  | Fin x, PInf => inf_signed true x
  | Fin x, NInf => inf_signed false x
  | Fin x, Fin y => Fin (x * y)
  end.

(** [a / b].  A finite zero divisor is [+0], which is what a difference of
    two equal doubles and a product with [+0] are. *)
Definition div (a b : num) : num :=
  match a, b with
  | NaN, _ | _, NaN => NaN
  | PInf, Fin y => if Qltb y 0 then NInf else PInf
  | NInf, Fin y => if Qltb y 0 then PInf else NInf
  | PInf, _ | NInf, _ => NaN
  | Fin _, PInf | Fin _, NInf => Fin 0
  | Fin x, Fin y =>
      if Qis_zero y then
        if Qis_zero x then NaN else if Qltb 0 x then PInf else NInf
      else Fin (x / y)
  end.

(** [a < b]: false as soon as one side is [NaN]. *)
Definition ltb (a b : num) : bool :=
  match a, b with
  | NaN, _ | _, NaN => false
  | _, NInf => false
  | NInf, _ => true
  | PInf, _ => false
  | Fin _, PInf => true
  | Fin x, Fin y => Qltb x y
  end.

(** [a > b] *)
Definition gtb (a b : num) : bool := ltb b a.

(** [a >= b]: false as soon as one side is [NaN]. *)
Definition geb (a b : num) : bool :=
  match a, b with
  | NaN, _ | _, NaN => false
  | _, NInf => true
  | NInf, _ => false
  | PInf, _ => true
  | Fin _, PInf => false
  | Fin x, Fin y => Qle_bool y x
  end.

(** [Math.floor] *)
Definition floor (a : num) : num :=
  match a with
  | Fin x => Fin (inject_Z (Qfloor x))
  | _ => a
  end.

(** [Math.round]: the nearest integer, a tie going up. *)
Definition round (a : num) : num :=
  match a with
  | Fin x => Fin (inject_Z (Qfloor (x + (1 # 2))))
  | _ => a
  end.

(** The integer a finite integral number stands for, as an array index. *)
Definition toIndex (a : num) : nat :=
  match a with
  | Fin x => Z.to_nat (Qfloor x)
  | _ => 0%nat
  end.

(** Conversion of a stored value in a [Uint8ClampedArray]: [NaN] becomes
    0, the value is clamped to [0, 255] and rounded to the nearest
    integer, a tie going to the even one. *)
Definition toUint8Clamp (a : num) : Z :=
  match a with
  | NaN => 0
  | NInf => 0
  | PInf => 255
  | Fin x =>
      if Qle_bool x 0 then 0%Z
      else if Qle_bool 255 x then 255%Z
      else
        let f := Qfloor x in
        let frac := x - inject_Z f in
        if Qltb frac (1 # 2) then f
        else if Qltb (1 # 2) frac then (f + 1)%Z
        else if Z.even f then f else (f + 1)%Z
  end.

Definition ofNat (n : nat) : num := Fin (inject_Z (Z.of_nat n)).

End Num.

(** ** Typed arrays *)

(** [a[i] = v] on a typed array: a store out of range is ignored. *)
Fixpoint upd {A : Type} (l : list A) (i : nat) (v : A) : list A :=
  match l, i with
  | [], _ => []
  | _ :: t, O => v :: t
  | h :: t, S j => h :: upd t j v
  end.

(** The sum of the cells of a grid. *)
Definition Qsum (l : list Q) : Q := fold_right Qplus 0 l.

(** ** Rows, bounds and configuration ([src/types.ts]) *)

(** A row as the CSV parser hands it on.  The parser drops the rows with
    a coordinate that is [NaN] and keeps every other number: a coordinate
    can be infinite. *)
Record CsvRow : Type := mkRow {
  gps_latitude : num;
  gps_longitude : num;
  carrier : string
}.

Record ProcessingConfig : Type := mkConfig {
  gridRes : nat;
  radius : Q;
  thresholdRatio : Q
}.

Record Bounds : Type := mkBounds {
  xmin : num;
  xmax : num;
  ymin : num;
  ymax : num
}.

Record Rgb : Type := mkRgb { r : Z; g : Z; b : Z }.

(** ** [hexToRgb] *)

(** A string is the list of its code units; the code units above 255, which
    belong to no class of the pattern, are not represented. *)

Module Hex.

Local Open Scope char_scope.

Definition between (lo hi c : ascii) : bool :=
  (nat_of_ascii lo <=? nat_of_ascii c)%nat && (nat_of_ascii c <=? nat_of_ascii hi)%nat.

(** The class [[a-f\d]] under the flag [i]. *)
Definition isHexDigit (c : ascii) : bool :=
  between "0" "9" c || between "a" "f" c || between "A" "F" c.

Definition digitVal (c : ascii) : Z :=
  if between "0" "9" c then Z.of_nat (nat_of_ascii c - nat_of_ascii "0")
  else if between "a" "f" c then Z.of_nat (nat_of_ascii c - nat_of_ascii "a" + 10)
  else Z.of_nat (nat_of_ascii c - nat_of_ascii "A" + 10).

(** [parseInt(s, 16)] on a string of hexadecimal digits. *)
Definition parseInt16 (s : string) : Z :=
  fold_left (fun acc c => (acc * 16 + digitVal c)%Z) (list_ascii_of_string s) 0%Z.

(** The pieces of the pattern, as matchers with a continuation: each
    consumes a prefix of the input and hands the rest to [k]. *)
Definition Cont (A : Type) : Type := string -> option A.

(** [c?], greedy: take [c] when it is there, and come back to the input
    as it was if the rest then fails. *)
Definition optChar {A : Type} (c : ascii) (k : Cont A) : Cont A :=
  fun s =>
    match s with
    | String c' rest =>
        if Ascii.eqb c c' then
          match k rest with
          | Some res => Some res
          | None => k s
          end
        else k s
    | EmptyString => k s
    end.

(** [([a-f\d]{2})]: a captured group of two hexadecimal digits. *)
Definition hexPair {A : Type} (k : string -> Cont A) : Cont A :=
  fun s =>
    match s with
    | String c1 (String c2 rest) =>
        if isHexDigit c1 && isHexDigit c2
        then k (String c1 (String c2 EmptyString)) rest
        else None
    | _ => None
    end.

(** [$], without the flag [m]: the end of the input. *)
Definition atEnd {A : Type} (res : A) : Cont A :=
  fun s => match s with EmptyString => Some res | _ => None end.

(** The pattern after [#?]: three captured groups, then the end. *)
Definition body : Cont (string * string * string) :=
  hexPair (fun g1 =>
  hexPair (fun g2 =>
  hexPair (fun g3 =>
  atEnd (g1, g2, g3)))).

(** [/^#?([a-f\d]{2})([a-f\d]{2})([a-f\d]{2})$/i.exec(hex)]: the three
    captured groups. *)
Definition exec (hex : string) : option (string * string * string) :=
  optChar "#" body hex.

End Hex.

Definition hexToRgb (hex : string) : Rgb :=
  match Hex.exec hex with
  | Some (g1, g2, g3) =>
      {| r := Hex.parseInt16 g1; g := Hex.parseInt16 g2; b := Hex.parseInt16 g3 |}
  | None => {| r := 0; g := 0; b := 0 |}
  end.

(** What the specification calls a colour code: six hexadecimal digits,
    with or without a leading [#]. *)
Definition stripHash (s : string) : string :=
  match s with
  | String c rest => if Ascii.eqb "#" c then rest else s
  | EmptyString => s
  end.

Definition isColorCode (s : string) : Prop :=
  String.length (stripHash s) = 6%nat /\
  Forall (fun c => Hex.isHexDigit c = true) (list_ascii_of_string (stripHash s)).

(** ** [computeBounds] *)

(** One iteration of the scan over the rows. *)
Definition scanRow (acc : Bounds) (row : CsvRow) : Bounds :=
  let lon := gps_longitude row in
  let lat := gps_latitude row in
  {| xmin := if Num.ltb lon (xmin acc) then lon else xmin acc;
     xmax := if Num.gtb lon (xmax acc) then lon else xmax acc;
     ymin := if Num.ltb lat (ymin acc) then lat else ymin acc;
     ymax := if Num.gtb lat (ymax acc) then lat else ymax acc |}.

Definition scanInit : Bounds :=
  {| xmin := PInf; xmax := NInf; ymin := PInf; ymax := NInf |}.

Definition padding : Q := 2 # 100.

Definition computeBounds (data : list CsvRow) : Bounds :=
  let s := fold_left scanRow data scanInit in
  let dx := Num.sub (xmax s) (xmin s) in
  let dy := Num.sub (ymax s) (ymin s) in
  {| xmin := Num.sub (xmin s) (Num.mul dx (Fin padding));
     xmax := Num.add (xmax s) (Num.mul dx (Fin padding));
     ymin := Num.sub (ymin s) (Num.mul dy (Fin padding));
     ymax := Num.add (ymax s) (Num.mul dy (Fin padding)) |}.

(** *** Notions for the properties of the scan *)




(** The running minimum and maximum of the scan, on numbers. *)
Definition minNum (m v : num) : num := if Num.ltb v m then v else m.
Definition maxNum (m v : num) : num := if Num.gtb v m then v else m.

Definition isInfinite (a : num) : Prop := a = PInf \/ a = NInf.





(** ** Gaussian smoothing *)

Section Kernel.

(** [Math.exp].  The language leaves its value to the implementation; the
    properties below only use that it is positive. *)
Variable exp : Q -> Q.

(** The kernel is [Math.ceil(sigma * 3) * 2 + 1] cells long.  Its weights
    are summed in index order and each divided by the sum, which is
    positive as soon as [exp] is. *)
Definition createGaussianKernel (sigma : Q) : list Q :=
  let size := Z.to_nat (Qceiling (sigma * 3) * 2 + 1) in
  let center := (size / 2)%nat in
  let vals :=
    map (fun i =>
           let x := inject_Z (Z.of_nat i - Z.of_nat center) in
           exp (- (x * x) / (2 * sigma * sigma)))
        (seq 0 size) in
  let sum := fold_left Qplus vals 0 in
  map (fun v => v / sum) vals.

End Kernel.

(** [px < 0 ? 0 : (px >= n ? n - 1 : px)] *)
Definition clampIdx (px n : Z) : Z :=
  if (px <? 0)%Z then 0%Z else if (px >=? n)%Z then (n - 1)%Z else px.

(** The innermost loop of [convolveH]: the weighted sum of the cells around
    column [x] of the row starting at [rowOffset].  A read is in range as
    soon as the array holds [width * height] cells, which it does at the
    call site. *)
Definition tapsH (data : list Q) (width : nat) (kernel : list Q)
    (rowOffset x : nat) : Q :=
  let kSize := length kernel in
  let kCenter := (kSize / 2)%nat in
  fold_left
    (fun sum k =>
       let kIdx := (Z.of_nat k - Z.of_nat kCenter)%Z in
       let px := (Z.of_nat x + kIdx)%Z in
       let clampedX := clampIdx px (Z.of_nat width) in
       sum + nth (rowOffset + Z.to_nat clampedX) data 0 * nth k kernel 0)
    (seq 0 kSize) 0.

Definition convolveH (data : list Q) (width height : nat) (kernel : list Q)
    : list Q :=
  fold_left
    (fun output y =>
       let rowOffset := (y * width)%nat in
       fold_left
         (fun output x =>
            upd output (rowOffset + x) (tapsH data width kernel rowOffset x))
         (seq 0 width) output)
    (seq 0 height) (repeat 0 (length data)).

(** The innermost loop of [convolveV]. *)
Definition tapsV (data : list Q) (width height : nat) (kernel : list Q)
    (x y : nat) : Q :=
  let kSize := length kernel in
  let kCenter := (kSize / 2)%nat in
  fold_left
    (fun sum k =>
       let kIdx := (Z.of_nat k - Z.of_nat kCenter)%Z in
       let py := (Z.of_nat y + kIdx)%Z in
       let clampedY := clampIdx py (Z.of_nat height) in
       sum + nth (Z.to_nat clampedY * width + x) data 0 * nth k kernel 0)
    (seq 0 kSize) 0.

Definition convolveV (data : list Q) (width height : nat) (kernel : list Q)
    : list Q :=
  fold_left
    (fun output x =>
       fold_left
         (fun output y =>
            upd output (y * width + x) (tapsV data width height kernel x y))
         (seq 0 height) output)
    (seq 0 width) (repeat 0 (length data)).

(** ** [generateHeatmapLayer], stage 1: the histogram *)

Definition epsilon : Q := 1 # 1000000000.

(** The scale and the index of a coordinate along one axis; the code
    writes the same two expressions for the longitude and the latitude. *)
Definition axisScale (lo hi : num) (gridRes : nat) : num :=
  Num.div (Num.sub (Num.ofNat gridRes) (Fin 1))
          (Num.add (Num.sub hi lo) (Fin epsilon)).

Definition axisIndex (lo hi : num) (gridRes : nat) (v : num) : num :=
  Num.round (Num.mul (Num.sub v lo) (axisScale lo hi gridRes)).

Definition xScale (bounds : Bounds) (gridRes : nat) : num :=
  axisScale (xmin bounds) (xmax bounds) gridRes.

Definition yScale (bounds : Bounds) (gridRes : nat) : num :=
  axisScale (ymin bounds) (ymax bounds) gridRes.

Definition xIndex (bounds : Bounds) (gridRes : nat) (row : CsvRow) : num :=
  axisIndex (xmin bounds) (xmax bounds) gridRes (gps_longitude row).

Definition yIndex (bounds : Bounds) (gridRes : nat) (row : CsvRow) : num :=
  axisIndex (ymin bounds) (ymax bounds) gridRes (gps_latitude row).

(** [xi >= 0 && xi < gridRes && yi >= 0 && yi < gridRes] *)
Definition inGrid (bounds : Bounds) (gridRes : nat) (row : CsvRow) : bool :=
  let xi := xIndex bounds gridRes row in
  let yi := yIndex bounds gridRes row in
  Num.geb xi (Fin 0) && Num.ltb xi (Num.ofNat gridRes) &&
  Num.geb yi (Fin 0) && Num.ltb yi (Num.ofNat gridRes).

(** [yi * gridRes + xi] *)
Definition cellOf (bounds : Bounds) (gridRes : nat) (row : CsvRow) : nat :=
  (Num.toIndex (yIndex bounds gridRes row) * gridRes
   + Num.toIndex (xIndex bounds gridRes row))%nat.

(** One iteration of the accumulation loop. *)
Definition accumulate (bounds : Bounds) (gridRes : nat)
    (grid : list Q) (row : CsvRow) : list Q :=
  if inGrid bounds gridRes row then
    let i := cellOf bounds gridRes row in
    upd grid i (nth i grid 0 + 1)
  else grid.

Definition histogram (bounds : Bounds) (gridRes : nat) (data : list CsvRow)
    : list Q :=
  fold_left (accumulate bounds gridRes) data (repeat 0 (gridRes * gridRes)%nat).

(** ** Stage 3: the adaptive threshold *)

(** [heat[i] > 0] *)
Definition validValues (heat : list Q) : list Q :=
  filter (fun v => Num.Qltb 0 v) heat.

(** [validValues.sort((a, b) => a - b)]: the ascending stable sort. *)
Fixpoint insertNum (v : Q) (l : list Q) : list Q :=
  match l with
  | [] => [v]
  | h :: t => if Num.Qltb v h then v :: l else h :: insertNum v t
  end.

Definition sortNum (l : list Q) : list Q :=
  fold_left (fun acc v => insertNum v acc) l [].

(** [Math.floor((n - 1) * 0.995)] *)
Definition pIndex (n : nat) : nat :=
  Z.to_nat (Qfloor (inject_Z (Z.of_nat n - 1) * (995 # 1000))).

Definition maxDensity (heat : list Q) : Q :=
  let valid := validValues heat in
  if (0 <? length valid)%nat
  then nth (pIndex (length valid)) (sortNum valid) 0
  else 0.

Definition cutoff (heat : list Q) (thresholdRatio : Q) : Q :=
  maxDensity heat * thresholdRatio.

(** ** Stage 4: the RGBA image *)

(** The normalised density of a cell at or above the cut-off. *)
Definition normOf (val cutOff maxH : Q) : num :=
  let norm := Num.div (Num.sub (Fin val) (Fin cutOff))
                      (Num.sub (Fin maxH) (Fin cutOff)) in
  let norm := if Num.ltb norm (Fin 0) then Fin 0 else norm in
  let norm := if Num.gtb norm (Fin 1) then Fin 1 else norm in
  norm.

(** [77 + (255 - 77) * norm] *)
Definition alphaOf (norm : num) : num :=
  Num.add (Fin 77) (Num.mul (Num.sub (Fin 255) (Fin 77)) norm).

(** [norm * 0.6] *)
Definition glowOf (norm : num) : num := Num.mul norm (Fin (6 # 10)).

(** [base + (255 - base) * glow] *)
Definition channelOf (base : Z) (glow : num) : num :=
  Num.add (Fin (inject_Z base))
          (Num.mul (Num.sub (Fin 255) (Fin (inject_Z base))) glow).

(** The place of cell [i] in the image: the rows are flipped. *)
Definition targetIdx (gridRes i : nat) : nat :=
  let y := (i / gridRes)%nat in
  let x := (i mod gridRes)%nat in
  let targetY := (gridRes - 1 - y)%nat in
  ((targetY * gridRes + x) * 4)%nat.

(** One iteration of the loop over the cells. *)
Definition encodePixel (gridRes : nat) (rgb : Rgb) (cutOff maxH : Q)
    (heat : list Q) (pixels : list Z) (i : nat) : list Z :=
  let val := nth i heat 0 in
  let t := targetIdx gridRes i in
  if Num.ltb (Fin val) (Fin cutOff) then
    upd pixels (t + 3) (Num.toUint8Clamp (Fin 0))
  else
    let norm := normOf val cutOff maxH in
    let alpha := alphaOf norm in
    let glow := glowOf norm in
    let pixels := upd pixels t (Num.toUint8Clamp (Num.floor (channelOf (r rgb) glow))) in
    let pixels := upd pixels (t + 1) (Num.toUint8Clamp (Num.floor (channelOf (g rgb) glow))) in
    let pixels := upd pixels (t + 2) (Num.toUint8Clamp (Num.floor (channelOf (b rgb) glow))) in
    upd pixels (t + 3) (Num.toUint8Clamp (Num.floor alpha)).

(** The image data starts as transparent black. *)
Definition renderPixels (gridRes : nat) (rgb : Rgb) (cutOff maxH : Q)
    (heat : list Q) : list Z :=
  fold_left (encodePixel gridRes rgb cutOff maxH heat)
            (seq 0 (length heat)) (repeat 0%Z (gridRes * gridRes * 4)%nat).

(** *** Notions for the properties of the image *)

(** The two clamps of the encoder on a finite quotient. *)
Definition clamp01 (x : Q) : Q :=
  let x := if Num.Qltb x 0 then 0 else x in
  if Num.Qltb 1 x then 1 else x.

(** The pixel of cell [i] after the flip of the rows. *)
Definition targetCell (gridRes i : nat) : nat :=
  ((gridRes - 1 - i / gridRes) * gridRes + i mod gridRes)%nat.

(** The four bytes the encoder leaves for a cell of value [val] in a buffer
    that starts as transparent black. *)
Definition emitted (rgb : Rgb) (cutOff maxH val : Q) : list Z :=
  if Num.ltb (Fin val) (Fin cutOff) then [0; 0; 0; Num.toUint8Clamp (Fin 0)]%Z
  else
    let norm := normOf val cutOff maxH in
    let glow := glowOf norm in
    [Num.toUint8Clamp (Num.floor (channelOf (r rgb) glow));
     Num.toUint8Clamp (Num.floor (channelOf (g rgb) glow));
     Num.toUint8Clamp (Num.floor (channelOf (b rgb) glow));
     Num.toUint8Clamp (Num.floor (alphaOf norm))].

(** ** The layer *)

Section Layer.

Variable exp : Q -> Q.

(** The smoothed grid of a layer (stages 1 and 2). *)
Definition heatOf (data : list CsvRow) (bounds : Bounds)
    (config : ProcessingConfig) : list Q :=
  let grid := histogram bounds (gridRes config) data in
  let kernel := createGaussianKernel exp (radius config) in
  let passH := convolveH grid (gridRes config) (gridRes config) kernel in
  convolveV passH (gridRes config) (gridRes config) kernel.

(** The pixels handed to the canvas; their encoding as PNG is the
    browser's. *)
Definition generateHeatmapLayer (data : list CsvRow) (bounds : Bounds)
    (color : string) (config : ProcessingConfig) : list Z :=
  let heat := heatOf data bounds config in
  let maxH := maxDensity heat in
  let cutOff := cutoff heat (thresholdRatio config) in
  renderPixels (gridRes config) (hexToRgb color) cutOff maxH heat.

End Layer.

(** ** [createKmz] *)

Module Kmz.

Local Open Scope string_scope.

Definition dq : string := String (ascii_of_nat 34) EmptyString.
Definition nl : string := String (ascii_of_nat 10) EmptyString.

(** The class [\s] on the code units below 256. *)
Definition isWhitespace (c : ascii) : bool :=
  let n := nat_of_ascii c in
  ((9 <=? n) && (n <=? 13) || (n =? 32) || (n =? 160))%nat.

(** [s.replace(/\s+/g, '_')]: every maximal run of whitespace becomes one
    underscore; [inRun] tells that the previous character was whitespace. *)
Fixpoint replaceRuns (inRun : bool) (s : string) : string :=
  match s with
  | EmptyString => EmptyString
  | String c rest =>
      if isWhitespace c then
        if inRun then replaceRuns true rest
        else String "_" (replaceRuns true rest)
      else String c (replaceRuns false rest)
  end.

Definition fileName (name : string) : string :=
  replaceRuns false name ++ ".png".

(** *** The paths of the archive library

    [zip.file(name, data)] also declares the folders of a name with a
    slash (the option [createFolders], on by default).  The helpers of the
    library on paths: *)

(** [path.slice(-1) === "/"] *)
Fixpoint endsWithSlash (path : string) : bool :=
  match path with
  | EmptyString => false
  | String c rest =>
      match rest with
      | EmptyString => Ascii.eqb c "/"
      | String _ _ => endsWithSlash rest
      end
  end.

(** [path.substring(0, path.length - 1)] *)
Fixpoint dropLast (path : string) : string :=
  match path with
  | EmptyString => EmptyString
  | String c rest =>
      match rest with
      | EmptyString => EmptyString
      | String _ _ => String c (dropLast rest)
      end
  end.

(** [path.lastIndexOf("/")]; [None] stands for -1. *)
Fixpoint lastSlash (path : string) : option nat :=
  match path with
  | EmptyString => None
  | String c rest =>
      match lastSlash rest with
      | Some i => Some (S i)
      | None => if Ascii.eqb c "/" then Some 0%nat else None
      end
  end.

(** [forceTrailingSlash(path)] *)
Definition forceTrailingSlash (path : string) : string :=
  if endsWithSlash path then path else path ++ "/".

(** [parentFolder(path)]: the path up to its last slash, one at the end
    or at the start of the path apart; empty when there is none. *)
Definition parentFolder (path : string) : string :=
  let path := if endsWithSlash path then dropLast path else path in
  match lastSlash path with
  | Some (S i) => String.substring 0 (S i) path
  | _ => EmptyString
  end.

Section Assembler.

(** The encoded image of a layer is opaque to the assembler. *)
Variable Blob : Type.

(** The text a number takes in a template literal. *)
Variable numToString : num -> string.

Record LatLonBox : Type := mkBox {
  north : num;
  south : num;
  east : num;
  west : num
}.

Record Layer : Type := mkLayer {
  name : string;
  blob : Blob;
  bounds : LatLonBox
}.

(** The archive under construction: its entries in the order of their
    declaration; [ZDir] is the entry of a folder. *)
Inductive ZipData : Type :=
| ZBlob (data : Blob)
| ZText (text : string)
| ZDir.

Definition Zip : Type := list (string * ZipData).

(** [files[name] = object]: a name already declared keeps its place and
    takes the new content. *)
Fixpoint zipSet (zip : Zip) (name : string) (data : ZipData) : Zip :=
  match zip with
  | [] => [(name, data)]
  | (n, d) :: rest =>
      if String.eqb n name then (n, data) :: rest
      else (n, d) :: zipSet rest name data
  end.

(** [files[name]] is there. *)
Definition zipHas (zip : Zip) (name : string) : bool :=
  existsb (fun entry => String.eqb (fst entry) name) zip.

(** [folderAdd(name, true)]: a folder that is not there is declared,
    after its own parent folder.  The recursion goes from a folder to its
    parent, whose name is shorter: [fuel] bounds its depth, and the length
    of the name is enough. *)
Fixpoint folderAdd (fuel : nat) (zip : Zip) (name : string) : Zip :=
  let name := forceTrailingSlash name in
  if zipHas zip name then zip
  else
    let zip :=
      match parentFolder name, fuel with
      | EmptyString, _ => zip
      | _, O => zip
      | parent, S fuel' => folderAdd fuel' zip parent
      end in
    zipSet zip name ZDir.

(** [zip.file(name, data)]: the folders of the name first, then the
    entry. *)
Definition zipFile (zip : Zip) (name : string) (data : ZipData) : Zip :=
  let zip :=
    match parentFolder name with
    | EmptyString => zip
    | parent => folderAdd (String.length name) zip parent
    end in
  zipSet zip name data.

Definition kmlHeader : string :=
  "<?xml version=" ++ dq ++ "1.0" ++ dq ++ " encoding=" ++ dq ++ "UTF-8" ++ dq ++ "?>" ++ nl ++
  "<kml xmlns=" ++ dq ++ "http://www.opengis.net/kml/2.2" ++ dq ++ ">" ++ nl ++
  "  <Folder>" ++ nl ++
  "    <name>Operators Density Heatmaps</name>" ++ nl ++
  "    <open>1</open>" ++ nl.

Definition kmlFooter : string :=
  nl ++
  "  </Folder>" ++ nl ++
  "</kml>".

(** The record of one layer in the manifest. *)
Definition groundOverlay (layer : Layer) : string :=
  nl ++
  "    <GroundOverlay>" ++ nl ++
  "      <name>" ++ name layer ++ "</name>" ++ nl ++
  "      <Icon>" ++ nl ++
  "        <href>" ++ fileName (name layer) ++ "</href>" ++ nl ++
  "      </Icon>" ++ nl ++
  "      <LatLonBox>" ++ nl ++
  "        <north>" ++ numToString (north (bounds layer)) ++ "</north>" ++ nl ++
  "        <south>" ++ numToString (south (bounds layer)) ++ "</south>" ++ nl ++
  "        <east>" ++ numToString (east (bounds layer)) ++ "</east>" ++ nl ++
  "        <west>" ++ numToString (west (bounds layer)) ++ "</west>" ++ nl ++
  "      </LatLonBox>" ++ nl ++
  "    </GroundOverlay>" ++ nl.

(** One call of the function given to [layers.forEach]. *)
Definition addLayer (st : string * Zip) (layer : Layer) : string * Zip :=
  let '(kmlContent, zip) := st in
  let filename := fileName (name layer) in
  (kmlContent ++ groundOverlay layer,
   zipFile zip filename (ZBlob (blob layer))).

(** The entries of the archive that [generateAsync] then writes out. *)
Definition createKmz (layers : list Layer) : Zip :=
  let '(kmlContent, zip) := fold_left addLayer layers (kmlHeader, []) in
  let kmlContent := kmlContent ++ kmlFooter in
  zipFile zip "doc.kml" (ZText kmlContent).

Definition entryNames (zip : Zip) : list string := map fst zip.

(** The file name and the archive entry of the image of a layer. *)
Definition imageName (layer : Layer) : string := fileName (name layer).

Definition imageEntry (layer : Layer) : string * ZipData :=
  (imageName layer, ZBlob (blob layer)).

(** The records of the layers, one after the other. *)
Definition overlays (layers : list Layer) : string :=
  fold_right (fun layer rest => groundOverlay layer ++ rest)
             EmptyString layers.

(** The manifest of a list of layers. *)
Definition manifest (layers : list Layer) : string :=
  kmlHeader ++ overlays layers ++ kmlFooter.

End Assembler.

End Kmz.

(* ================================================================== *)
(** * Part I, continued: notions used in the statements *)
(* ================================================================== *)

(** A grid without negative cells. *)
Definition nonneg (l : list Q) : Prop := Forall (fun v => 0 <= v) l.

(** A text without the character [c]. *)
Definition without (c : ascii) (s : string) : Prop :=
  Forall (fun c' => Ascii.eqb c c' = false) (list_ascii_of_string s).

(** The number of places of [s] where [pat] starts. *)
Fixpoint countSub (pat s : string) : nat :=
  match s with
  | EmptyString => 0%nat
  | String _ rest => ((if String.prefix pat s then 1 else 0) + countSub pat rest)%nat
  end.

(** The weights before the division by their sum. *)
Definition rawKernel (exp : Q -> Q) (sigma : Q) : list Q :=
  map (fun i =>
         let x := inject_Z (Z.of_nat i
                            - Z.of_nat (Z.to_nat (Qceiling (sigma * 3) * 2 + 1) / 2)) in
         exp (- (x * x) / (2 * sigma * sigma)))
      (seq 0 (Z.to_nat (Qceiling (sigma * 3) * 2 + 1))).

(** The half-width of the kernel. *)
Definition halfWidth (sigma : Q) : nat := Z.to_nat (Qceiling (sigma * 3)).

(** [f 0 + ... + f (n - 1)] *)
Definition bigsum (f : nat -> Q) (n : nat) : Q := Qsum (map f (seq 0 n)).

(** Two nested loops, the inner one storing [val a b] at [idx a b]. *)
Definition nestedStore (outerN innerN : nat) (idx : nat -> nat -> nat)
    (val : nat -> nat -> Q) (init : list Q) : list Q :=
  fold_left
    (fun out a =>
       fold_left (fun out b => upd out (idx a b) (val a b)) (seq 0 innerN) out)
    (seq 0 outerN) init.

(** The clamped position of tap [d] around position [p]. *)
Definition clampNat (p : nat) (d : Z) (n : nat) : nat :=
  Z.to_nat (clampIdx (Z.of_nat p + d) (Z.of_nat n)).

(** A line of [n] cells that is zero within [c] cells of both ends. *)
Definition margin (line : nat -> Q) (n c : nat) : Prop :=
  forall p, (p < n)%nat -> (p < c)%nat \/ (n <= p + c)%nat -> line p == 0.

(** A unit of mass in the corner of a grid of three by three cells, and of
    four by four cells. *)
Definition cornerGrid : list Q := [1; 0; 0; 0; 0; 0; 0; 0; 0].

Definition cornerGrid4 : list Q :=
  [1; 0; 0; 0;  0; 0; 0; 0;  0; 0; 0; 0;  0; 0; 0; 0].

(** Two classical enclosures of the exponential on [[-8, 0]]:
    [(1 + x/8)^8 <= e^x <= (1 - x/8)^(-8)]. *)
Definition pow8 (y : Q) : Q :=
  let y2 := y * y in
  let y4 := y2 * y2 in
  y4 * y4.

Definition expLow (x : Q) : Q := pow8 (1 + x / 8).

Definition expHigh (x : Q) : Q := 1 / pow8 (1 - x / 8).

Definition expEnclosed (exp : Q -> Q) : Prop :=
  forall x, -8 <= x -> x <= 0 -> expLow x <= exp x /\ exp x <= expHigh x.

(* ================================================================== *)
(** * Part I, continued: the rest of the code and further notions *)
(* ================================================================== *)

(** ** The histogram, cell by cell *)

(** The row is counted, and counted in cell [i]. *)
Definition hitsCell (bounds : Bounds) (gridRes : nat) (i : nat) (row : CsvRow)
    : bool :=
  inGrid bounds gridRes row && (cellOf bounds gridRes row =? i)%nat.

(** The number of rows counted in cell [i]. *)
Definition hitCount (bounds : Bounds) (gridRes : nat) (data : list CsvRow)
    (i : nat) : Z :=
  Z.of_nat (length (filter (hitsCell bounds gridRes i) data)).

(** ** Grids between two values *)

Definition within (lo hi : Q) (l : list Q) : Prop :=
  Forall (fun v => lo <= v <= hi) l.

(** ** Cells above a value *)

(** The number of cells strictly above [m]. *)
Definition countAbove (m : Q) (l : list Q) : nat :=
  length (filter (fun v => Num.Qltb m v) l).

(** ** The content of an archive *)

(** The content an archive holds under a name. *)
Fixpoint zipGet {Blob : Type} (zip : Kmz.Zip Blob) (name : string)
    : option (Kmz.ZipData Blob) :=
  match zip with
  | [] => None
  | (n, d) :: rest => if String.eqb n name then Some d else zipGet rest name
  end.

(** An entry that holds an image. *)
Definition isImage {Blob : Type} (entry : string * Kmz.ZipData Blob) : Prop :=
  exists data, snd entry = Kmz.ZBlob Blob data.

(** A label without whitespace. *)
Definition noWhitespace (s : string) : Prop :=
  Forall (fun c => Kmz.isWhitespace c = false) (list_ascii_of_string s).

(** An entry that stands for a folder. *)
Definition isFolder {Blob : Type} (entry : string * Kmz.ZipData Blob) : Prop :=
  snd entry = Kmz.ZDir Blob /\ Kmz.endsWithSlash (fst entry) = true.

(** ** The caller: [processFile] of the application *)

Module App.

Local Open Scope string_scope.

(** [DEFAULT_COLORS] *)
Definition DEFAULT_COLORS : list (string * string) :=
  [("ENTEL", "#0057A4"); ("MOVISTAR", "#00A65A");
   ("CLARO", "#D40000"); ("BITEL", "#FFD500")].

(** [table[key]] on the entries of the table.  A carrier reaches the
    lookup in upper case, as the CSV parser leaves it, and the properties
    an object inherits all have a lower-case letter in their name: only an
    entry of the table can be found. *)
Fixpoint lookup (table : list (string * string)) (key : string) : option string :=
  match table with
  | [] => None
  | (k, v) :: rest => if String.eqb k key then Some v else lookup rest key
  end.

(** [DEFAULT_COLORS[carrier] || '#808080']: the fallback is taken for a
    missing key, and would be for an empty colour. *)
Definition colorOf (operator : string) : string :=
  match lookup DEFAULT_COLORS operator with
  | Some color => if (String.length color =? 0)%nat then "#808080" else color
  | None => "#808080"
  end.

(** [set.add(v)]: a set keeps its values in the order of their first
    insertion. *)
Definition setAdd (s : list string) (v : string) : list string :=
  if existsb (String.eqb v) s then s else (s ++ [v])%list.

(** [Array.from(new Set(allData.map(d => d.carrier)))] *)
Definition carriersOf (allData : list CsvRow) : list string :=
  fold_left setAdd (map carrier allData) [].

(** [allData.filter(d => d.carrier === carrier)] *)
Definition carrierData (allData : list CsvRow) (operator : string) : list CsvRow :=
  filter (fun d => String.eqb (carrier d) operator) allData.

(** What stops the processing, after the files are parsed. *)
Inductive Failure : Type :=
| NoData         (** no row: the error thrown by [processFile] *)
| InvalidLength  (** [new Float32Array(kSize)] with a negative size *)
| NoContext      (** the canvas gives no 2D context *)
| EmptyImage     (** [createImageData] with a side of zero *)
| NoBlob.        (** the encoder gives no blob *)

Section Process.

Variable exp : Q -> Q.

(** The browser: whether a canvas gives a 2D context, and the PNG encoder
    behind [canvas.toBlob] for a canvas of the given side, which may give
    no blob. *)
Variable Blob : Type.
Variable hasContext : bool.
Variable toBlob : nat -> list Z -> option Blob.

Variable numToString : num -> string.

(** [generateHeatmapLayer] as the caller sees it: the blob, or the first
    failure the code meets. *)
Definition renderLayer (data : list CsvRow) (bounds : Bounds) (color : string)
    (config : ProcessingConfig) : Blob + Failure :=
  if (Qceiling (radius config * 3) * 2 + 1 <? 0)%Z then inr InvalidLength
  else if negb hasContext then inr NoContext
  else if (gridRes config =? 0)%nat then inr EmptyImage
  else
    match toBlob (gridRes config)
                 (generateHeatmapLayer exp data bounds color config) with
    | Some blob => inl blob
    | None => inr NoBlob
    end.

(** The body of the loop over the carriers, up to the layer pushed. *)
Definition layerOf (allData : list CsvRow) (bounds : Bounds)
    (config : ProcessingConfig) (operator : string) : Kmz.Layer Blob + Failure :=
  let data := carrierData allData operator in
  let color := colorOf operator in
  match renderLayer data bounds color config with
  | inl blob =>
      inl (Kmz.mkLayer Blob operator blob
             (Kmz.mkBox (ymax bounds) (ymin bounds) (xmax bounds) (xmin bounds)))
  | inr failure => inr failure
  end.

(** One iteration: a failure ends the loop. *)
Definition pushLayer (allData : list CsvRow) (bounds : Bounds)
    (config : ProcessingConfig) (acc : list (Kmz.Layer Blob) + Failure)
    (operator : string) : list (Kmz.Layer Blob) + Failure :=
  match acc with
  | inl layers =>
      match layerOf allData bounds config operator with
      | inl layer => inl (layers ++ [layer])%list
      | inr failure => inr failure
      end
  | inr failure => inr failure
  end.

Definition buildLayers (allData : list CsvRow) (config : ProcessingConfig)
    : list (Kmz.Layer Blob) + Failure :=
  let bounds := computeBounds allData in
  fold_left (pushLayer allData bounds config) (carriersOf allData) (inl []).

(** From the parsed rows to the entries of the archive. *)
Definition processData (allData : list CsvRow) (config : ProcessingConfig)
    : Kmz.Zip Blob + Failure :=
  if (length allData =? 0)%nat then inr NoData
  else
    match buildLayers allData config with
    | inl layers => inl (Kmz.createKmz Blob numToString layers)
    | inr failure => inr failure
    end.

End Process.

End App.

(* ================================================================== *)
(** * Part II: properties *)
(* ================================================================== *)

(** ** The definitions on small inputs *)

Example hexToRgb_entel : hexToRgb "#0057A4" = {| r := 0; g := 87; b := 164 |}.
Proof. reflexivity. Qed.

Example hexToRgb_upper_lower : hexToRgb "ffD500" = {| r := 255; g := 213; b := 0 |}.
Proof. reflexivity. Qed.

Example hexToRgb_too_long : hexToRgb "#ffd5001" = {| r := 0; g := 0; b := 0 |}.
Proof. reflexivity. Qed.

Example computeBounds_two_points :
  computeBounds [mkRow (Fin 1) (Fin 2) "A"; mkRow (Fin 3) (Fin 5) "A"]
  = {| xmin := Fin (2 - (5 - 2) * (2 # 100)); xmax := Fin (5 + (5 - 2) * (2 # 100));
       ymin := Fin (1 - (3 - 1) * (2 # 100)); ymax := Fin (3 + (3 - 1) * (2 # 100)) |}.
Proof. reflexivity. Qed.

Example computeBounds_no_point :
  computeBounds [] = {| xmin := PInf; xmax := NInf; ymin := PInf; ymax := NInf |}.
Proof. reflexivity. Qed.

Example histogram_three_points :
  histogram {| xmin := Fin 0; xmax := Fin 10; ymin := Fin 0; ymax := Fin 10 |} 3
            [mkRow (Fin 0) (Fin 0) "A"; mkRow (Fin 5) (Fin 10) "A"; mkRow (Fin 5) (Fin 10) "A"; mkRow (Fin 20) (Fin 3) "A"]
  = [1; 0; 0; 0; 0; 2; 0; 0; 0].
Proof. reflexivity. Qed.

Example kernel_flat_exp :
  createGaussianKernel (fun _ => 1) (1 # 3) = [1 / (0 + 1 + 1 + 1); 1 / (0 + 1 + 1 + 1); 1 / (0 + 1 + 1 + 1)].
Proof. reflexivity. Qed.

Example convolveH_row :
  convolveH [0; 4; 0] 3 1 [1 # 4; 1 # 2; 1 # 4]
  = [0 + 0 * (1 # 4) + 0 * (1 # 2) + 4 * (1 # 4);
     0 + 0 * (1 # 4) + 4 * (1 # 2) + 0 * (1 # 4);
     0 + 4 * (1 # 4) + 0 * (1 # 2) + 0 * (1 # 4)].
Proof. reflexivity. Qed.

Example maxDensity_percentile : maxDensity [0; 3; 1; 2; 0; 5] = 3.
Proof. reflexivity. Qed.

Example renderPixels_flip :
  renderPixels 2 (hexToRgb "#0057A4") (3 # 10) 1 [0; 1; 2; 1 # 2]
  = [153; 187; 218; 255;  43; 115; 179; 127;
     0; 0; 0; 0;          153; 187; 218; 255]%Z.
Proof. reflexivity. Qed.

Example createKmz_two_layers :
  Kmz.entryNames nat
    (Kmz.createKmz nat (fun _ => "0"%string)
       [Kmz.mkLayer nat "ENTEL" 1%nat (Kmz.mkBox (Fin 1) (Fin 0) (Fin 1) (Fin 0));
        Kmz.mkLayer nat "CLARO PERU" 2%nat (Kmz.mkBox (Fin 1) (Fin 0) (Fin 1) (Fin 0))])
  = ["ENTEL.png"%string; "CLARO_PERU.png"%string; "doc.kml"%string].
Proof. reflexivity. Qed.

(** ** Comparisons and special values *)

Lemma Qltb_true (a b : Q) : Num.Qltb a b = true <-> a < b.
Proof.
  unfold Num.Qltb. rewrite negb_true_iff. split; intro H.
  - apply Qnot_le_lt. intro L. apply Qle_bool_iff in L. congruence.
  - destruct (Qle_bool b a) eqn:E; trivial.
    apply Qle_bool_iff in E. exfalso; lra.
Qed.

Lemma Qltb_false (a b : Q) : Num.Qltb a b = false <-> b <= a.
Proof.
  unfold Num.Qltb. rewrite negb_false_iff. apply Qle_bool_iff.
Qed.

Lemma Qis_zero_true (q : Q) : Num.Qis_zero q = true <-> q == 0.
Proof. apply Qeq_bool_iff. Qed.

Lemma Qis_zero_false (q : Q) : Num.Qis_zero q = false <-> ~ q == 0.
Proof.
  unfold Num.Qis_zero. split; intro H.
  - intro E. apply Qeq_bool_iff in E. congruence.
  - destruct (Qeq_bool q 0) eqn:E; trivial.
    apply Qeq_bool_iff in E. contradiction.
Qed.

Lemma Qle_bool_false (a b : Q) : Qle_bool a b = false <-> b < a.
Proof.
  split; intro H.
  - apply Qnot_le_lt. intro L. apply Qle_bool_iff in L. congruence.
  - destruct (Qle_bool a b) eqn:E; trivial.
    apply Qle_bool_iff in E. exfalso; lra.
Qed.

(** Case analysis on the comparisons met in a goal. *)
Ltac cmp_cases :=
  repeat match goal with
    | |- context [Num.Qltb ?a ?b] =>
        let E := fresh "E" in
        destruct (Num.Qltb a b) eqn:E;
        [apply Qltb_true in E | apply Qltb_false in E]
    | |- context [Qle_bool ?a ?b] =>
        let E := fresh "E" in
        destruct (Qle_bool a b) eqn:E;
        [apply Qle_bool_iff in E | apply Qle_bool_false in E]
    | |- context [Num.Qis_zero ?a] =>
        let E := fresh "E" in
        destruct (Num.Qis_zero a) eqn:E;
        [apply Qis_zero_true in E | apply Qis_zero_false in E]
    | H : context [Num.Qltb ?a ?b] |- _ =>
        let E := fresh "E" in
        destruct (Num.Qltb a b) eqn:E;
        [apply Qltb_true in E | apply Qltb_false in E]
    end.

(** ** Arrays *)

Lemma upd_length {A : Type} (l : list A) (i : nat) (v : A) :
  length (upd l i v) = length l.
Proof.
  revert i; induction l as [|h t IH]; intros [|i]; simpl; auto.
Qed.

Lemma nth_upd_same {A : Type} (l : list A) (i : nat) (v d : A) :
  (i < length l)%nat -> nth i (upd l i v) d = v.
Proof.
  revert i; induction l as [|h t IH]; intros [|i]; simpl; intro H;
    try lia; auto.
  apply IH. lia.
Qed.

Lemma nth_upd_other {A : Type} (l : list A) (i j : nat) (v d : A) :
  i <> j -> nth j (upd l i v) d = nth j l d.
Proof.
  revert i j; induction l as [|h t IH]; intros [|i] [|j]; simpl; intro H;
    auto; try congruence.
Qed.

Lemma Qsum_upd (l : list Q) (i : nat) (v : Q) :
  (i < length l)%nat -> Qsum (upd l i v) == Qsum l - nth i l 0 + v.
Proof.
  revert i; induction l as [|h t IH]; intros [|i]; simpl; intro H; try lia.
  - ring.
  - rewrite IH by lia. ring.
Qed.

Lemma Qsum_repeat_zero (n : nat) : Qsum (repeat 0 n) == 0.
Proof.
  induction n as [|n IH]; simpl; [reflexivity | rewrite IH; ring].
Qed.

(** ** The colour parser *)

Module HexFacts.

Import Hex.

(** The part of the pattern after [#?] takes six hexadecimal digits and
    nothing else. *)
Lemma body_sound (s : string) (res : string * string * string) :
  body s = Some res ->
  String.length s = 6%nat /\
  Forall (fun c => isHexDigit c = true) (list_ascii_of_string s).
Proof.
  unfold body, hexPair, atEnd.
  destruct s as [|c1 [|c2 [|c3 [|c4 [|c5 [|c6 [|c7 s]]]]]]];
    simpl; try discriminate;
    destruct (isHexDigit c1) eqn:H1, (isHexDigit c2) eqn:H2;
    simpl; try discriminate;
    destruct (isHexDigit c3) eqn:H3, (isHexDigit c4) eqn:H4;
    simpl; try discriminate;
    destruct (isHexDigit c5) eqn:H5, (isHexDigit c6) eqn:H6;
    simpl; try discriminate.
  intros _. split; [reflexivity | repeat constructor; assumption].
Qed.

Lemma exec_sound (s : string) (res : string * string * string) :
  exec s = Some res -> isColorCode s.
Proof.
  unfold exec, optChar, isColorCode.
  destruct s as [|c rest].
  - intro H. apply body_sound in H. simpl in H. destruct H; discriminate.
  - destruct (Ascii.eqb "#" c) eqn:E.
    + apply Ascii.eqb_eq in E. subst c.
      destruct (body rest) eqn:B.
      * intros _. simpl. eapply body_sound; eassumption.
      * intro H. apply body_sound in H. destruct H as [_ H].
        simpl in H. inversion H; subst. discriminate.
    + intro H. apply body_sound in H. unfold stripHash. rewrite E. exact H.
Qed.

(** Two hexadecimal digits read in base 16 give a byte. *)
Lemma digitVal_range (c : ascii) :
  isHexDigit c = true -> (0 <= digitVal c <= 15)%Z.
Proof.
  unfold isHexDigit, digitVal, between.
  destruct c as [[] [] [] [] [] [] [] []]; simpl; intro H;
    try discriminate; vm_compute; split; congruence.
Qed.

Lemma exec_groups (s : string) (g1 g2 g3 : string) :
  exec s = Some (g1, g2, g3) ->
  (0 <= parseInt16 g1 <= 255)%Z /\
  (0 <= parseInt16 g2 <= 255)%Z /\
  (0 <= parseInt16 g3 <= 255)%Z.
Proof.
  assert (B : forall t, body t = Some (g1, g2, g3) ->
              (0 <= parseInt16 g1 <= 255)%Z /\
              (0 <= parseInt16 g2 <= 255)%Z /\
              (0 <= parseInt16 g3 <= 255)%Z).
  { intro t. unfold body, hexPair, atEnd.
    destruct t as [|c1 [|c2 [|c3 [|c4 [|c5 [|c6 [|c7 t]]]]]]];
      simpl; try discriminate;
      destruct (isHexDigit c1) eqn:H1, (isHexDigit c2) eqn:H2;
      simpl; try discriminate;
      destruct (isHexDigit c3) eqn:H3, (isHexDigit c4) eqn:H4;
      simpl; try discriminate;
      destruct (isHexDigit c5) eqn:H5, (isHexDigit c6) eqn:H6;
      simpl; try discriminate.
    intro H. injection H as <- <- <-.
    unfold parseInt16; simpl.
    apply digitVal_range in H1, H2, H3, H4, H5, H6. lia. }
  unfold exec, optChar.
  destruct s as [|c rest]; [apply B|].
  destruct (Ascii.eqb "#" c); [|apply B].
  destruct (body rest) eqn:E; [|apply B].
  intro H. injection H as ->. apply B in E. exact E.
Qed.

End HexFacts.

Lemma hexToRgb_range (color : string) :
  (0 <= r (hexToRgb color) <= 255)%Z /\
  (0 <= g (hexToRgb color) <= 255)%Z /\
  (0 <= b (hexToRgb color) <= 255)%Z.
Proof.
  unfold hexToRgb. destruct (Hex.exec color) as [[[g1 g2] g3]|] eqn:E.
  - simpl. eapply HexFacts.exec_groups; eassumption.
  - simpl. lia.
Qed.

(** C8.  The colour parser is a total function, and a string that is not a
    colour code of six hexadecimal digits, with or without a leading [#],
    gives black; so does ["notacolor"]. *)
Theorem hexToRgb_malformed_is_black :
  (forall hex : string,
      ~ isColorCode hex -> hexToRgb hex = {| r := 0; g := 0; b := 0 |}) /\
  hexToRgb "notacolor" = {| r := 0; g := 0; b := 0 |}.
Proof.
  split; [|reflexivity].
  intros hex H. unfold hexToRgb.
  destruct (Hex.exec hex) as [res|] eqn:E; [|reflexivity].
  exfalso. apply H. eapply HexFacts.exec_sound; eassumption.
Qed.

Lemma hexToRgb_malformed_is_black_witness :
  ~ isColorCode "#12345" /\
  hexToRgb "#12345" = {| r := 0; g := 0; b := 0 |}.
Proof.
  assert (N : ~ isColorCode "#12345").
  { unfold isColorCode; simpl. intros [H _]. discriminate. }
  split; [exact N|].
  exact (proj1 hexToRgb_malformed_is_black "#12345"%string N).
Defined.

(** ** The bounding box *)












(** ** The pixel encoder: normalisation *)

Lemma clamp01_range (x : Q) : 0 <= clamp01 x <= 1.
Proof. unfold clamp01. cmp_cases; lra. Qed.

Lemma clamp01_mono (x y : Q) : x <= y -> clamp01 x <= clamp01 y.
Proof. unfold clamp01. intro H. cmp_cases; lra. Qed.

Lemma clamp01_inside (x : Q) : 0 <= x <= 1 -> clamp01 x == x.
Proof. unfold clamp01. intro H. cmp_cases; lra. Qed.

(** With a normalisation range that is not empty the quotient is finite. *)
Lemma normOf_finite (val cutOff maxH : Q) :
  ~ maxH - cutOff == 0 ->
  normOf val cutOff maxH = Fin (clamp01 ((val - cutOff) / (maxH - cutOff))).
Proof.
  intro H. unfold normOf, clamp01, Num.gtb. simpl.
  apply Qis_zero_false in H. rewrite H. simpl.
  destruct (Num.Qltb ((val - cutOff) / (maxH - cutOff)) 0); simpl;
    try match goal with
        | |- context [Num.Qltb 1 ?z] => destruct (Num.Qltb 1 z)
        end; reflexivity.
Qed.

(** With an empty range, a cell above the cut-off divides by zero to
    [+Infinity], which the second clamp brings back to 1. *)
Lemma normOf_zero_width_above (val cutOff maxH : Q) :
  maxH - cutOff == 0 -> cutOff < val -> normOf val cutOff maxH = Fin 1.
Proof.
  intros H L. unfold normOf, Num.gtb. simpl.
  apply Qis_zero_true in H. rewrite H.
  assert (Z : Num.Qis_zero (val - cutOff) = false)
    by (apply Qis_zero_false; lra).
  assert (P : Num.Qltb 0 (val - cutOff) = true) by (apply Qltb_true; lra).
  rewrite Z, P. reflexivity.
Qed.

(** With an empty range, a cell at the cut-off divides zero by zero: no
    clamp applies to [NaN], and the four bytes stored for it are 0. *)
Lemma normOf_zero_width_at (val cutOff maxH : Q) :
  maxH - cutOff == 0 -> val - cutOff == 0 -> normOf val cutOff maxH = NaN.
Proof.
  intros H L. unfold normOf, Num.gtb. simpl.
  apply Qis_zero_true in H, L. rewrite H, L. reflexivity.
Qed.

(** A stored integer is clamped to a byte. *)
Lemma toUint8Clamp_int (z : Z) :
  Num.toUint8Clamp (Fin (inject_Z z)) = Z.max 0 (Z.min 255 z).
Proof.
  unfold Num.toUint8Clamp. rewrite Qfloor_Z.
  assert (F : inject_Z z - inject_Z z == 0) by ring.
  destruct (Qle_bool (inject_Z z) 0) eqn:E0.
  - apply Qle_bool_iff in E0. change 0 with (inject_Z 0) in E0.
    rewrite <- Zle_Qle in E0. lia.
  - apply Qle_bool_false in E0. change 0 with (inject_Z 0) in E0.
    rewrite <- Zlt_Qlt in E0.
    destruct (Qle_bool 255 (inject_Z z)) eqn:E1.
    + apply Qle_bool_iff in E1. change 255 with (inject_Z 255) in E1.
      rewrite <- Zle_Qle in E1. lia.
    + apply Qle_bool_false in E1. change 255 with (inject_Z 255) in E1.
      rewrite <- Zlt_Qlt in E1.
      assert (L : Num.Qltb (inject_Z z - inject_Z z) (1 # 2) = true)
        by (apply Qltb_true; lra).
      rewrite L. lia.
Qed.

Lemma toUint8Clamp_floor (q : Q) :
  Num.toUint8Clamp (Num.floor (Fin q)) = Z.max 0 (Z.min 255 (Qfloor q)).
Proof. apply toUint8Clamp_int. Qed.

Lemma quotient_mono (a b c : Q) : 0 < c -> a <= b -> a / c <= b / c.
Proof.
  intros Hc Hab. unfold Qdiv.
  apply Qmult_le_compat_r; [exact Hab|].
  apply Qlt_le_weak, Qinv_lt_0_compat, Hc.
Qed.

Lemma quotient_one (c : Q) : ~ c == 0 -> c / c == 1.
Proof. intro H. field. exact H. Qed.

(** C6.  The encoder has no special case for an empty normalisation range:
    a cell equal to both the cut-off and the maximum density gets
    [norm = 0 / 0 = NaN], which neither clamp changes, and its pixel is
    stored as four zero bytes; so with a threshold ratio of 1 for the cell
    that holds the maximum density.  A cell above an empty range gets
    [norm = 1], from the clamp of [+Infinity].  Outside the first case
    [norm] is a finite number between 0 and 1. *)
Theorem norm_is_NaN_on_empty_range :
  (forall v : Q, normOf v v v = NaN) /\
  (let heat := [5] in
   maxDensity heat = 5 /\
   cutoff heat 1 == 5 /\
   normOf (nth 0 heat 0) (cutoff heat 1) (maxDensity heat) = NaN /\
   renderPixels 1 {| r := 0; g := 87; b := 164 |}
                (cutoff heat 1) (maxDensity heat) heat
   = [0; 0; 0; 0]%Z) /\
  (forall val cutOff maxH : Q,
      maxH == cutOff -> cutOff < val -> normOf val cutOff maxH = Fin 1) /\
  (forall val cutOff maxH : Q,
      cutOff <= val -> ~ (maxH == cutOff /\ val == cutOff) ->
      exists n, normOf val cutOff maxH = Fin n /\ 0 <= n <= 1).
Proof.
  split; [|split; [|split]].
  - intro v. apply normOf_zero_width_at; ring.
  - cbv zeta. repeat split; reflexivity.
  - intros val cutOff maxH E L. apply normOf_zero_width_above; [lra | exact L].
  - intros val cutOff maxH Hv Hn.
    destruct (Qeq_dec (maxH - cutOff) 0) as [E|E].
    + exists 1. split; [|lra].
      apply normOf_zero_width_above; [exact E|].
      destruct (Qeq_dec val cutOff) as [E'|E'].
      * exfalso. apply Hn. split; [lra | exact E'].
      * apply Qnot_le_lt. intro L. apply E'. lra.
    + exists (clamp01 ((val - cutOff) / (maxH - cutOff))).
      split; [apply normOf_finite; exact E | apply clamp01_range].
Qed.

Lemma norm_is_NaN_on_empty_range_witness :
  exists n, normOf 2 1 3 = Fin n /\ 0 <= n <= 1.
Proof.
  apply (proj2 (proj2 (proj2 norm_is_NaN_on_empty_range)) 2 1 3).
  - lra.
  - intros [H _]. vm_compute in H. discriminate.
Defined.

(** C7.  With [cutOff < maxH] fixed, the alpha value and the white-mix
    factor do not decrease when the density of the cell grows from the
    cut-off upwards; neither does the alpha byte that is stored. *)
Theorem alpha_and_glow_monotone (cutOff maxH v1 v2 : Q) :
  cutOff < maxH -> cutOff <= v1 -> v1 <= v2 ->
  exists a1 a2 g1 g2 : Q,
    alphaOf (normOf v1 cutOff maxH) = Fin a1 /\
    alphaOf (normOf v2 cutOff maxH) = Fin a2 /\
    glowOf (normOf v1 cutOff maxH) = Fin g1 /\
    glowOf (normOf v2 cutOff maxH) = Fin g2 /\
    a1 <= a2 /\ g1 <= g2 /\
    (Num.toUint8Clamp (Num.floor (Fin a1))
     <= Num.toUint8Clamp (Num.floor (Fin a2)))%Z.
Proof.
  intros Hc H1 H12.
  assert (Hw : ~ maxH - cutOff == 0) by lra.
  rewrite !(normOf_finite _ _ _ Hw).
  set (n1 := clamp01 ((v1 - cutOff) / (maxH - cutOff))).
  set (n2 := clamp01 ((v2 - cutOff) / (maxH - cutOff))).
  assert (Hn : n1 <= n2).
  { apply clamp01_mono, quotient_mono; lra. }
  assert (R1 : 0 <= n1 <= 1) by apply clamp01_range.
  assert (R2 : 0 <= n2 <= 1) by apply clamp01_range.
  exists (77 + (255 - 77) * n1), (77 + (255 - 77) * n2),
         (n1 * (6 # 10)), (n2 * (6 # 10)).
  repeat split; try reflexivity; try lra.
  assert (F : (Qfloor (77 + (255 - 77) * n1) <= Qfloor (77 + (255 - 77) * n2))%Z)
    by (apply Qfloor_resp_le; lra).
  assert (L1 : (Qfloor 77 <= Qfloor (77 + (255 - 77) * n1))%Z)
    by (apply Qfloor_resp_le; lra).
  assert (U2 : (Qfloor (77 + (255 - 77) * n2) <= Qfloor 255)%Z)
    by (apply Qfloor_resp_le; lra).
  change (Qfloor 77) with 77%Z in L1. change (Qfloor 255) with 255%Z in U2.
  rewrite !toUint8Clamp_floor. lia.
Qed.

Lemma alpha_and_glow_monotone_witness :
  exists a1 a2 g1 g2 : Q,
    alphaOf (normOf 2 1 3) = Fin a1 /\
    alphaOf (normOf (5 # 2) 1 3) = Fin a2 /\
    glowOf (normOf 2 1 3) = Fin g1 /\
    glowOf (normOf (5 # 2) 1 3) = Fin g2 /\
    a1 <= a2 /\ g1 <= g2 /\
    (Num.toUint8Clamp (Num.floor (Fin a1))
     <= Num.toUint8Clamp (Num.floor (Fin a2)))%Z.
Proof.
  apply (alpha_and_glow_monotone 1 3 2 (5 # 2)); lra.
Defined.

(** ** The pixel encoder: the image buffer *)

Lemma targetIdx_cell (gridRes i : nat) :
  targetIdx gridRes i = (targetCell gridRes i * 4)%nat.
Proof. reflexivity. Qed.

Lemma cell_row_col (gridRes i : nat) :
  (i < gridRes * gridRes)%nat ->
  (i / gridRes < gridRes)%nat /\ (i mod gridRes < gridRes)%nat.
Proof.
  intro H. assert (gridRes <> 0)%nat by lia. split.
  - apply Nat.Div0.div_lt_upper_bound. lia.
  - apply Nat.mod_upper_bound. assumption.
Qed.

Lemma targetCell_bound (gridRes i : nat) :
  (i < gridRes * gridRes)%nat -> (targetCell gridRes i < gridRes * gridRes)%nat.
Proof.
  intro H. destruct (cell_row_col _ _ H) as [Hy Hx]. unfold targetCell.
  set (y := (i / gridRes)%nat) in *. set (x := (i mod gridRes)%nat) in *.
  nia.
Qed.

Lemma targetCell_inj (gridRes i j : nat) :
  (i < gridRes * gridRes)%nat -> (j < gridRes * gridRes)%nat ->
  targetCell gridRes i = targetCell gridRes j -> i = j.
Proof.
  intros Hi Hj E.
  destruct (cell_row_col _ _ Hi) as [Hyi Hxi].
  destruct (cell_row_col _ _ Hj) as [Hyj Hxj].
  unfold targetCell in E.
  rewrite (Nat.div_mod_eq i gridRes), (Nat.div_mod_eq j gridRes).
  set (yi := (i / gridRes)%nat) in *. set (xi := (i mod gridRes)%nat) in *.
  set (yj := (j / gridRes)%nat) in *. set (xj := (j mod gridRes)%nat) in *.
  destruct (Nat.div_mod_unique gridRes (gridRes - 1 - yi) (gridRes - 1 - yj) xi xj)
    as [Hq Hr]; try assumption; try lia.
  assert (yi = yj) by lia. congruence.
Qed.

Section Render.

Variables (gridRes : nat) (rgb : Rgb) (cutOff maxH : Q) (heat : list Q).

Local Abbreviation step := (encodePixel gridRes rgb cutOff maxH heat).

Lemma encodePixel_length (pixels : list Z) (i : nat) :
  length (step pixels i) = length pixels.
Proof.
  unfold encodePixel.
  destruct (Num.ltb _ _); rewrite ?upd_length; reflexivity.
Qed.

(** A cell only writes the four bytes of its own pixel. *)
Lemma encodePixel_elsewhere (pixels : list Z) (i p : nat) :
  (p < targetIdx gridRes i \/ targetIdx gridRes i + 3 < p)%nat ->
  nth p (step pixels i) 0%Z = nth p pixels 0%Z.
Proof.
  intro H. unfold encodePixel.
  destruct (Num.ltb _ _); rewrite ?nth_upd_other by lia; reflexivity.
Qed.

Lemma encodePixel_own (pixels : list Z) (i k : nat) :
  (targetIdx gridRes i + 3 < length pixels)%nat ->
  (forall k', (k' < 3)%nat -> nth (targetIdx gridRes i + k') pixels 0%Z = 0%Z) ->
  (k < 4)%nat ->
  nth (targetIdx gridRes i + k) (step pixels i) 0%Z
  = nth k (emitted rgb cutOff maxH (nth i heat 0)) 0%Z.
Proof.
  intros Hlen Hzero Hk. unfold encodePixel, emitted.
  destruct (Num.ltb _ _).
  - destruct k as [|[|[|[|k]]]]; try lia; simpl nth at 2.
    + rewrite nth_upd_other by lia. apply (Hzero 0%nat). lia.
    + rewrite nth_upd_other by lia. apply (Hzero 1%nat). lia.
    + rewrite nth_upd_other by lia. apply (Hzero 2%nat). lia.
    + apply nth_upd_same. lia.
  - cbv zeta.
    destruct k as [|[|[|[|k]]]]; try lia; simpl nth at 2.
    + rewrite !nth_upd_other by lia. rewrite Nat.add_0_r.
      apply nth_upd_same. lia.
    + rewrite !nth_upd_other by lia.
      apply nth_upd_same. rewrite upd_length. lia.
    + rewrite !nth_upd_other by lia.
      apply nth_upd_same. rewrite !upd_length. lia.
    + apply nth_upd_same. rewrite !upd_length. lia.
Qed.

Lemma render_prefix_length (n : nat) (init : list Z) :
  length (fold_left step (seq 0 n) init) = length init.
Proof.
  induction n as [|n IH]; [reflexivity|].
  rewrite seq_S, fold_left_app. simpl. rewrite encodePixel_length. exact IH.
Qed.

(** After the first [n] cells, the pixel of a cell holds the cell's bytes
    if the cell is among them, and is still transparent black if not. *)
Lemma render_prefix (n i k : nat) :
  (n <= gridRes * gridRes)%nat -> (i < gridRes * gridRes)%nat -> (k < 4)%nat ->
  nth (targetIdx gridRes i + k)
      (fold_left step (seq 0 n) (repeat 0%Z (gridRes * gridRes * 4))) 0%Z
  = if (i <? n)%nat then nth k (emitted rgb cutOff maxH (nth i heat 0)) 0%Z
    else 0%Z.
Proof.
  revert i k. induction n as [|n IH]; intros i k Hn Hi Hk.
  - simpl. apply nth_repeat.
  - rewrite seq_S, fold_left_app. simpl.
    destruct (Nat.eq_dec i n) as [->|Hne].
    + rewrite (proj2 (Nat.ltb_lt n (S n))) by lia.
      apply encodePixel_own; [| |exact Hk].
      * rewrite render_prefix_length, repeat_length.
        pose proof (targetCell_bound gridRes n Hi).
        rewrite targetIdx_cell. lia.
      * intros k' Hk'. rewrite IH by lia.
        rewrite (proj2 (Nat.ltb_ge n n)) by lia. reflexivity.
    + rewrite encodePixel_elsewhere.
      * rewrite IH by lia.
        destruct (i <? n)%nat eqn:E1, (i <? S n)%nat eqn:E2; try reflexivity.
        -- apply Nat.ltb_lt in E1. apply Nat.ltb_ge in E2. lia.
        -- apply Nat.ltb_ge in E1. apply Nat.ltb_lt in E2. lia.
      * assert (targetCell gridRes i <> targetCell gridRes n).
        { intro E. apply Hne. apply (targetCell_inj gridRes); try lia. }
        rewrite !targetIdx_cell. lia.
Qed.

(** In the finished image, the pixel of every cell holds the bytes
    emitted for its value. *)
Lemma render_lookup (i k : nat) :
  length heat = (gridRes * gridRes)%nat ->
  (i < gridRes * gridRes)%nat -> (k < 4)%nat ->
  nth (targetIdx gridRes i + k) (renderPixels gridRes rgb cutOff maxH heat) 0%Z
  = nth k (emitted rgb cutOff maxH (nth i heat 0)) 0%Z.
Proof.
  intros Hlen Hi Hk. unfold renderPixels. rewrite Hlen.
  rewrite render_prefix by lia.
  rewrite (proj2 (Nat.ltb_lt _ _) Hi). reflexivity.
Qed.

End Render.

(** ** The adaptive threshold *)

Lemma insertNum_perm (v : Q) (l : list Q) : Permutation (insertNum v l) (v :: l).
Proof.
  induction l as [|h t IH]; simpl; [reflexivity|].
  destruct (Num.Qltb v h); [reflexivity|].
  rewrite IH. apply perm_swap.
Qed.

Lemma insertNum_sorted (v : Q) (l : list Q) :
  Sorted Qle l -> Sorted Qle (insertNum v l).
Proof.
  induction l as [|h t IH]; simpl; intro S.
  - repeat constructor.
  - destruct (Num.Qltb v h) eqn:E.
    + apply Qltb_true in E. constructor; [exact S|].
      constructor. lra.
    + apply Qltb_false in E. inversion S as [|? ? St Hd]; subst.
      constructor; [apply IH; exact St|].
      destruct t as [|h' t']; simpl.
      * constructor. exact E.
      * destruct (Num.Qltb v h'); constructor; [exact E|].
        inversion Hd; assumption.
Qed.

Lemma sortNum_from (l acc : list Q) :
  Sorted Qle acc ->
  Sorted Qle (fold_left (fun acc v => insertNum v acc) l acc) /\
  Permutation (fold_left (fun acc v => insertNum v acc) l acc) (l ++ acc).
Proof.
  revert acc; induction l as [|v l IH]; intros acc S; simpl.
  - split; [exact S | reflexivity].
  - destruct (IH (insertNum v acc) (insertNum_sorted v acc S)) as [S' P'].
    split; [exact S'|].
    rewrite P'. rewrite insertNum_perm. symmetry. apply Permutation_middle.
Qed.

Lemma sortNum_sorted (l : list Q) : Sorted Qle (sortNum l).
Proof. apply sortNum_from. constructor. Qed.

Lemma sortNum_perm (l : list Q) : Permutation (sortNum l) l.
Proof.
  unfold sortNum. destruct (sortNum_from l [] (Sorted_nil _)) as [_ P].
  rewrite P, app_nil_r. reflexivity.
Qed.

Lemma pIndex_bound (n : nat) : (0 < n)%nat -> (pIndex n < n)%nat.
Proof.
  intro H. unfold pIndex.
  set (m := (Z.of_nat n - 1)%Z).
  assert (Hm : (0 <= m)%Z) by (unfold m; lia).
  assert (Q0 : 0 <= inject_Z m).
  { change 0 with (inject_Z 0). rewrite <- Zle_Qle. exact Hm. }
  assert (U : (Qfloor (inject_Z m * (995 # 1000)) <= Qfloor (inject_Z m))%Z)
    by (apply Qfloor_resp_le; lra).
  rewrite Qfloor_Z in U.
  assert (L : (Qfloor 0 <= Qfloor (inject_Z m * (995 # 1000)))%Z)
    by (apply Qfloor_resp_le; lra).
  change (Qfloor 0) with 0%Z in L.
  subst m. lia.
Qed.

Lemma validValues_positive (heat : list Q) (v : Q) :
  In v (validValues heat) -> In v heat /\ 0 < v.
Proof.
  unfold validValues. intro H. apply filter_In in H.
  destruct H as [Hin Hp]. apply Qltb_true in Hp. split; assumption.
Qed.

Lemma validValues_none (heat : list Q) :
  (forall v, In v heat -> v <= 0) -> validValues heat = [].
Proof.
  intro H. unfold validValues.
  induction heat as [|h t IH]; simpl; [reflexivity|].
  assert (E : Num.Qltb 0 h = false)
    by (apply Qltb_false; apply H; now left).
  rewrite E. apply IH. intros v Hv. apply H. now right.
Qed.

(** The maximum density is one of the positive cells, or zero. *)
Lemma maxDensity_cases (heat : list Q) :
  (validValues heat = [] /\ maxDensity heat = 0) \/
  (In (maxDensity heat) (validValues heat) /\
   maxDensity heat
   = nth (pIndex (length (validValues heat))) (sortNum (validValues heat)) 0).
Proof.
  unfold maxDensity.
  destruct (validValues heat) as [|v valid] eqn:E.
  - left. split; reflexivity.
  - right. rewrite <- E.
    assert (Hn : (0 < length (validValues heat))%nat) by (rewrite E; simpl; lia).
    rewrite (proj2 (Nat.ltb_lt _ _) Hn). split; [|reflexivity].
    apply (Permutation_in _ (sortNum_perm _)).
    apply nth_In.
    rewrite (Permutation_length (sortNum_perm _)).
    apply pIndex_bound. exact Hn.
Qed.

Lemma maxDensity_nonneg (heat : list Q) : 0 <= maxDensity heat.
Proof.
  destruct (maxDensity_cases heat) as [[_ E]|[Hin _]].
  - rewrite E. lra.
  - apply validValues_positive in Hin. lra.
Qed.

Lemma upd_Forall {A : Type} (P : A -> Prop) (l : list A) (i : nat) (v : A) :
  Forall P l -> P v -> Forall P (upd l i v).
Proof.
  intros Hl Hv. revert i. induction Hl as [|h t Hh Ht IH]; intros [|i]; simpl;
    constructor; auto.
Qed.

(** With an empty normalisation range at zero, a cell without density
    leaves its pixel as it was: transparent black. *)
Lemma encodePixel_blank (gridRes : nat) (rgb : Rgb) (cutOff maxH : Q)
    (heat : list Q) (pixels : list Z) (i : nat) :
  cutOff == 0 -> maxH == 0 -> nth i heat 0 <= 0 ->
  Forall (eq 0%Z) pixels ->
  Forall (eq 0%Z) (encodePixel gridRes rgb cutOff maxH heat pixels i).
Proof.
  intros Hc Hm Hv Hp. unfold encodePixel.
  change (Num.ltb (Fin (nth i heat 0)) (Fin cutOff))
    with (Num.Qltb (nth i heat 0) cutOff).
  destruct (Num.Qltb (nth i heat 0) cutOff) eqn:E.
  - apply upd_Forall; [exact Hp | reflexivity].
  - apply Qltb_false in E. cbv zeta.
    rewrite normOf_zero_width_at by lra.
    repeat apply upd_Forall; try exact Hp; reflexivity.
Qed.

Lemma renderPixels_blank (gridRes : nat) (rgb : Rgb) (cutOff maxH : Q)
    (heat : list Q) :
  cutOff == 0 -> maxH == 0 -> (forall v, In v heat -> v <= 0) ->
  Forall (eq 0%Z) (renderPixels gridRes rgb cutOff maxH heat).
Proof.
  intros Hc Hm Hv. unfold renderPixels.
  assert (Hinit : Forall (eq 0%Z) (repeat 0%Z (gridRes * gridRes * 4))).
  { apply Forall_forall. intros z Hz. apply repeat_spec in Hz. congruence. }
  revert Hinit. generalize (repeat 0%Z (gridRes * gridRes * 4)).
  generalize (seq 0 (length heat)).
  intro cells; induction cells as [|i cells IH]; intros pixels Hp; simpl.
  - exact Hp.
  - apply IH. apply encodePixel_blank; try assumption.
    destruct (nth_in_or_default i heat 0) as [Hin | ->]; [apply Hv; exact Hin | lra].
Qed.


Lemma filter_none {A : Type} (f : A -> bool) (l : list A) :
  (forall x, In x l -> f x = false) -> filter f l = [].
Proof.
  induction l as [|x l IH]; intro H; simpl; [reflexivity|].
  rewrite (H x) by now left. apply IH. intros y Hy. apply H. now right.
Qed.

Lemma filter_length_perm {A : Type} (f : A -> bool) (l l' : list A) :
  Permutation l l' -> length (filter f l) = length (filter f l').
Proof.
  intro P. induction P as [|x l l' P IH|x y l|l l' l'' P1 IH1 P2 IH2]; simpl.
  - reflexivity.
  - destruct (f x); simpl; congruence.
  - destruct (f x), (f y); reflexivity.
  - congruence.
Qed.

Lemma Qle_transitive : Relations_1.Transitive Qle.
Proof. intros x y z. apply Qle_trans. Qed.

Lemma filter_both {A : Type} (f g : A -> bool) (l : list A) :
  filter g (filter f l) = filter (fun x => f x && g x) l.
Proof.
  induction l as [|x l IH]; simpl; [reflexivity|].
  destruct (f x); simpl; [destruct (g x)|]; rewrite IH; reflexivity.
Qed.

(** In an ascending list, at most [k] entries are below the entry of index
    [k], and more than [k] are not above it. *)
Lemma sorted_below (l : list Q) (k : nat) :
  StronglySorted Qle l -> (k < length l)%nat ->
  (length (filter (fun v => Num.Qltb v (nth k l 0%Q)) l) <= k)%nat.
Proof.
  intro S. revert k. induction S as [|h t St IH Hh]; intros k Hk; simpl in Hk; [lia|].
  destruct k as [|k].
  - simpl nth. rewrite filter_none; [simpl; lia|].
    intros v [<-|Hv]; apply Qltb_false; [lra|].
    rewrite Forall_forall in Hh. apply Hh, Hv.
  - simpl nth. simpl filter. specialize (IH k ltac:(lia)).
    destruct (Num.Qltb h (nth k t 0)); simpl; lia.
Qed.

Lemma sorted_upto (l : list Q) (k : nat) :
  StronglySorted Qle l -> (k < length l)%nat ->
  (k < length (filter (fun v => negb (Num.Qltb (nth k l 0%Q) v)) l))%nat.
Proof.
  intro S. revert k. induction S as [|h t St IH Hh]; intros k Hk; simpl in Hk; [lia|].
  destruct k as [|k].
  - simpl nth. simpl filter.
    rewrite (proj2 (Qltb_false h h)) by lra. simpl. lia.
  - simpl nth. simpl filter.
    assert (Hle : h <= nth k t 0).
    { rewrite Forall_forall in Hh. apply Hh, nth_In. lia. }
    rewrite (proj2 (Qltb_false _ _) Hle). simpl.
    specialize (IH k ltac:(lia)). lia.
Qed.

(** The maximum density is the entry of index [floor((n - 1) * 0.995)] of
    the [n] positive cells in ascending order. *)
Lemma maxDensity_rank (heat : list Q) :
  (exists v, In v heat /\ 0 < v) ->
  let n := length (filter (fun v => Num.Qltb 0 v) heat) in
  let k := Z.to_nat (Qfloor (inject_Z (Z.of_nat n - 1) * (995 # 1000))) in
  let m := maxDensity heat in
  (k < n)%nat /\ In m heat /\ 0 < m /\
  (length (filter (fun v => Num.Qltb 0%Q v && Num.Qltb v m) heat) <= k)%nat /\
  (k < length (filter (fun v => Num.Qltb 0%Q v && negb (Num.Qltb m v)) heat))%nat /\
  exists sorted,
    Sorted Qle sorted /\
    Permutation sorted (filter (fun v => Num.Qltb 0 v) heat) /\
    m = nth k sorted 0.
Proof.
  intros [v [Hin Hv]] n k m.
  assert (Hvalid : In v (validValues heat)).
  { unfold validValues. apply filter_In. split; [exact Hin | apply Qltb_true, Hv]. }
  assert (Hn : (0 < n)%nat).
  { unfold n. fold (validValues heat).
    destruct (validValues heat); [contradiction | simpl; lia]. }
  assert (Hk : (k < n)%nat) by (apply (pIndex_bound n Hn)).
  assert (Em : m = nth k (sortNum (validValues heat)) 0).
  { unfold m, maxDensity. fold n.
    change (length (validValues heat)) with n.
    rewrite (proj2 (Nat.ltb_lt 0 n) Hn). reflexivity. }
  pose proof (sortNum_perm (validValues heat)) as P.
  pose proof (sortNum_sorted (validValues heat)) as S.
  assert (SS : StronglySorted Qle (sortNum (validValues heat)))
    by (apply Sorted_StronglySorted; [exact Qle_transitive | exact S]).
  assert (Hl : length (sortNum (validValues heat)) = n)
    by (rewrite (Permutation_length P); reflexivity).
  assert (Hm : In m (validValues heat)).
  { rewrite Em. apply (Permutation_in _ P). apply nth_In. lia. }
  apply validValues_positive in Hm. destruct Hm as [Hmin Hmpos].
  split; [exact Hk|]. split; [exact Hmin|]. split; [exact Hmpos|].
  split; [|split].
  - rewrite <- filter_both. fold (validValues heat).
    rewrite <- (filter_length_perm _ _ _ P). rewrite Em.
    apply sorted_below; [exact SS | lia].
  - rewrite <- filter_both. fold (validValues heat).
    rewrite <- (filter_length_perm _ _ _ P). rewrite Em.
    apply sorted_upto; [exact SS | lia].
  - exists (sortNum (validValues heat)).
    split; [exact S|]. split; [exact P | exact Em].
Qed.

(** C4.  With a threshold ratio between 0 and 1 the cut-off, the maximum
    density times the ratio, is at most the maximum density.  When some
    cell is positive, the maximum density is the entry of index
    [k = floor((n - 1) * 0.995)] of the [n] positive cells in ascending
    order: it is one of them, at most [k] positive cells are below it and
    more than [k] are not above it.  When no cell is positive, the maximum
    density and the cut-off are zero and every byte of the image, so the
    alpha of every pixel, is zero. *)
Theorem adaptive_threshold_cutoff (heat : list Q) (ratio : Q) :
  0 <= ratio <= 1 ->
  cutoff heat ratio <= maxDensity heat /\
  cutoff heat ratio == maxDensity heat * ratio /\
  ((exists v, In v heat /\ 0 < v) ->
     let n := length (filter (fun v => Num.Qltb 0 v) heat) in
     let k := Z.to_nat (Qfloor (inject_Z (Z.of_nat n - 1) * (995 # 1000))) in
     let m := maxDensity heat in
     (k < n)%nat /\ In m heat /\ 0 < m /\
     (length (filter (fun v => Num.Qltb 0%Q v && Num.Qltb v m) heat) <= k)%nat /\
     (k < length (filter (fun v => Num.Qltb 0%Q v && negb (Num.Qltb m v)) heat))%nat /\
     exists sorted,
       Sorted Qle sorted /\
       Permutation sorted (filter (fun v => Num.Qltb 0 v) heat) /\
       m = nth k sorted 0) /\
  ((forall v, In v heat -> v <= 0) ->
     maxDensity heat = 0 /\ cutoff heat ratio == 0 /\
     forall (gridRes : nat) (rgb : Rgb) (pixel : nat),
       nth (pixel * 4 + 3)
           (renderPixels gridRes rgb (cutoff heat ratio) (maxDensity heat) heat)
           0%Z = 0%Z).
Proof.
  intro Hr. pose proof (maxDensity_nonneg heat) as Hm.
  split; [|split; [|split]].
  - unfold cutoff. nra.
  - reflexivity.
  - apply maxDensity_rank.
  - intro Hv.
    assert (E : maxDensity heat = 0).
    { unfold maxDensity. rewrite (validValues_none heat Hv). reflexivity. }
    assert (C : cutoff heat ratio == 0) by (unfold cutoff; rewrite E; ring).
    split; [exact E|]. split; [exact C|].
    intros gridRes rgb pixel.
    assert (B : Forall (eq 0%Z)
                  (renderPixels gridRes rgb (cutoff heat ratio) (maxDensity heat) heat)).
    { apply renderPixels_blank; [exact C | rewrite E; reflexivity | exact Hv]. }
    rewrite Forall_forall in B.
    destruct (nth_in_or_default (pixel * 4 + 3)
                (renderPixels gridRes rgb (cutoff heat ratio) (maxDensity heat) heat)
                0%Z) as [Hin | ->]; [|reflexivity].
    symmetry. apply B. exact Hin.
Qed.

Lemma adaptive_threshold_cutoff_witness :
  cutoff [0; 3; 1; 2; 0; 5] (3 # 10) <= maxDensity [0; 3; 1; 2; 0; 5] /\
  In (maxDensity [0; 3; 1; 2; 0; 5]) [0; 3; 1; 2; 0; 5] /\
  maxDensity [0; 0; 0; 0] = 0.
Proof.
  assert (Hr : 0 <= 3 # 10 <= 1) by lra.
  split; [|split].
  - exact (proj1 (adaptive_threshold_cutoff [0; 3; 1; 2; 0; 5] (3 # 10) Hr)).
  - apply (proj1 (proj2 (proj2 (adaptive_threshold_cutoff [0; 3; 1; 2; 0; 5] (3 # 10) Hr)))).
    exists 3. split; [simpl; tauto | lra].
  - apply (proj2 (proj2 (proj2 (adaptive_threshold_cutoff [0; 0; 0; 0] (3 # 10) Hr)))).
    intros v Hv. simpl in Hv.
    destruct Hv as [<-|[<-|[<-|[<-|[]]]]]; lra.
Defined.

(** ** The pixel encoder: the two ends of the ramp *)

Lemma floor_byte (q : Q) :
  0 <= q -> q <= 255 -> Num.toUint8Clamp (Num.floor (Fin q)) = Qfloor q.
Proof.
  intros L U. rewrite toUint8Clamp_floor.
  assert (L' : (Qfloor 0 <= Qfloor q)%Z) by (apply Qfloor_resp_le; exact L).
  assert (U' : (Qfloor q <= Qfloor 255)%Z) by (apply Qfloor_resp_le; exact U).
  change (Qfloor 0) with 0%Z in L'. change (Qfloor 255) with 255%Z in U'.
  lia.
Qed.

Lemma inject_Z_byte (z : Z) : (0 <= z <= 255)%Z -> 0 <= inject_Z z <= 255.
Proof.
  intros [L U]. split.
  - change 0 with (inject_Z 0). rewrite <- Zle_Qle. exact L.
  - change 255 with (inject_Z 255). rewrite <- Zle_Qle. exact U.
Qed.

(** A channel at full density: the base mixed with white at 60%. *)
Lemma channel_at_full (base : Z) (n : Q) :
  (0 <= base <= 255)%Z -> n == 1 ->
  Num.toUint8Clamp (Num.floor (channelOf base (glowOf (Fin n))))
  = Qfloor (inject_Z base + (255 - inject_Z base) * (6 # 10)).
Proof.
  intros Hb Hn. apply inject_Z_byte in Hb.
  unfold channelOf, glowOf. simpl Num.mul. simpl Num.sub. simpl Num.add.
  rewrite floor_byte.
  - apply Qfloor_comp. rewrite Hn. ring.
  - rewrite Hn. lra.
  - rewrite Hn. lra.
Qed.

(** C5.  In the image of a grid with [cutOff < maxH], the pixel of a cell
    below the cut-off has alpha 0; the pixel of a cell equal to the maximum
    density has [norm = 1], alpha 255 and, in each colour channel, the
    floor of the base colour mixed with white at 60%. *)
Theorem pixel_encoder_endpoints (gridRes : nat) (color : string)
    (cutOff maxH : Q) (heat : list Q) (i : nat) :
  cutOff < maxH ->
  length heat = (gridRes * gridRes)%nat ->
  (i < gridRes * gridRes)%nat ->
  let rgb := hexToRgb color in
  let image := renderPixels gridRes rgb cutOff maxH heat in
  let t := targetIdx gridRes i in
  let mix := fun base : Z => Qfloor (inject_Z base + (255 - inject_Z base) * (6 # 10)) in
  (nth i heat 0 < cutOff -> nth (t + 3) image 0%Z = 0%Z) /\
  (nth i heat 0 == maxH ->
     (exists n, normOf (nth i heat 0) cutOff maxH = Fin n /\ n == 1) /\
     nth (t + 3) image 0%Z = 255%Z /\
     nth t image 0%Z = mix (r rgb) /\
     nth (t + 1) image 0%Z = mix (g rgb) /\
     nth (t + 2) image 0%Z = mix (b rgb)).
Proof.
  intros Hc Hlen Hi rgb image t mix.
  assert (L : forall k, (k < 4)%nat ->
                nth (t + k) image 0%Z
                = nth k (emitted rgb cutOff maxH (nth i heat 0)) 0%Z)
    by (intros k Hk; apply render_lookup; assumption).
  split.
  - intro Hv. rewrite (L 3%nat) by lia. unfold emitted.
    change (Num.ltb (Fin (nth i heat 0)) (Fin cutOff))
      with (Num.Qltb (nth i heat 0) cutOff).
    rewrite (proj2 (Qltb_true _ _) Hv). reflexivity.
  - intro Hv.
    assert (Hw : ~ maxH - cutOff == 0) by lra.
    assert (Hn : clamp01 ((nth i heat 0 - cutOff) / (maxH - cutOff)) == 1).
    { rewrite clamp01_inside.
      - rewrite Hv. apply quotient_one. exact Hw.
      - rewrite Hv. rewrite (quotient_one _ Hw). lra. }
    assert (E : emitted rgb cutOff maxH (nth i heat 0)
                = [mix (r rgb); mix (g rgb); mix (b rgb); 255%Z]).
    { unfold emitted.
      change (Num.ltb (Fin (nth i heat 0)) (Fin cutOff))
        with (Num.Qltb (nth i heat 0) cutOff).
      rewrite (proj2 (Qltb_false _ _)) by lra.
      cbv zeta. rewrite (normOf_finite _ _ _ Hw).
      destruct (hexToRgb_range color) as [Hr [Hg Hb]].
      rewrite !(channel_at_full _ _) by (assumption || exact Hn).
      repeat f_equal.
      unfold alphaOf. simpl Num.sub. simpl Num.mul. simpl Num.add.
      rewrite floor_byte by (rewrite Hn; lra).
      transitivity (Qfloor 255); [|reflexivity].
      apply Qfloor_comp. rewrite Hn. ring. }
    split; [|split; [|split; [|split]]].
    + exists (clamp01 ((nth i heat 0 - cutOff) / (maxH - cutOff))).
      split; [apply normOf_finite; exact Hw | exact Hn].
    + rewrite (L 3%nat) by lia. rewrite E. reflexivity.
    + replace t with (t + 0)%nat by lia.
      rewrite (L 0%nat) by lia. rewrite E. reflexivity.
    + rewrite (L 1%nat) by lia. rewrite E. reflexivity.
    + rewrite (L 2%nat) by lia. rewrite E. reflexivity.
Qed.

Lemma pixel_encoder_endpoints_witness :
  nth (targetIdx 2 1 + 3) (renderPixels 2 (hexToRgb "#0057A4") (3 # 10) 1 [0; 1; 2; 1 # 2]) 0%Z
  = 255%Z.
Proof.
  assert (Hc : 3 # 10 < 1) by lra.
  assert (Hv : nth 1 [0; 1; 2; 1 # 2] 0 == 1) by reflexivity.
  assert (Hi : (1 < 2 * 2)%nat) by (simpl; lia).
  exact (proj1 (proj2 (proj2
           (pixel_encoder_endpoints 2 "#0057A4" (3 # 10) 1 [0; 1; 2; 1 # 2] 1
              Hc eq_refl Hi) Hv))).
Defined.

(** ** The histogram *)

Lemma Qfloor_lt_Z (x : Q) (z : Z) : x < inject_Z z -> (Qfloor x < z)%Z.
Proof.
  intro H. rewrite Zlt_Qlt. apply Qle_lt_trans with x; [apply Qfloor_le | exact H].
Qed.

Lemma Qfloor_ge_Z (x : Q) (z : Z) : inject_Z z <= x -> (z <= Qfloor x)%Z.
Proof.
  intro H. rewrite <- (Qfloor_Z z). apply Qfloor_resp_le. exact H.
Qed.

(** An index that passes the test of the loop is a column (or a row) of the
    grid. *)
Lemma index_in_range (a : num) (gridRes : nat) :
  Num.geb a (Fin 0) = true -> Num.ltb a (Num.ofNat gridRes) = true ->
  (Num.toIndex a < gridRes)%nat.
Proof.
  destruct a as [| | |q]; simpl; try discriminate.
  intros L U. apply Qle_bool_iff in L. apply Qltb_true in U.
  assert (L' : (0 <= Qfloor q)%Z) by (apply Qfloor_ge_Z; exact L).
  assert (U' : (Qfloor q < Z.of_nat gridRes)%Z) by (apply Qfloor_lt_Z; exact U).
  lia.
Qed.

Lemma inGrid_cell (bounds : Bounds) (gridRes : nat) (row : CsvRow) :
  inGrid bounds gridRes row = true ->
  (cellOf bounds gridRes row < gridRes * gridRes)%nat.
Proof.
  unfold inGrid, cellOf. cbv zeta. rewrite !andb_true_iff.
  intros [[[X0 X1] Y0] Y1].
  pose proof (index_in_range _ _ X0 X1). pose proof (index_in_range _ _ Y0 Y1).
  nia.
Qed.

Lemma accumulate_length (bounds : Bounds) (gridRes : nat) (grid : list Q)
    (row : CsvRow) :
  length (accumulate bounds gridRes grid row) = length grid.
Proof.
  unfold accumulate. destruct (inGrid _ _ _); [apply upd_length | reflexivity].
Qed.

Lemma accumulate_sum (bounds : Bounds) (gridRes : nat) (grid : list Q)
    (row : CsvRow) :
  length grid = (gridRes * gridRes)%nat ->
  Qsum (accumulate bounds gridRes grid row)
  == Qsum grid + (if inGrid bounds gridRes row then 1 else 0).
Proof.
  intro Hlen. unfold accumulate.
  destruct (inGrid bounds gridRes row) eqn:E.
  - rewrite Qsum_upd by (rewrite Hlen; apply inGrid_cell; exact E). ring.
  - ring.
Qed.

Lemma histogram_sum_from (bounds : Bounds) (gridRes : nat) (data : list CsvRow)
    (grid : list Q) :
  length grid = (gridRes * gridRes)%nat ->
  Qsum (fold_left (accumulate bounds gridRes) data grid)
  == Qsum grid + inject_Z (Z.of_nat (length (filter (inGrid bounds gridRes) data))).
Proof.
  revert grid; induction data as [|row data IH]; intros grid Hlen; simpl.
  - change (inject_Z 0) with 0. ring.
  - rewrite IH by (rewrite accumulate_length; exact Hlen).
    rewrite accumulate_sum by exact Hlen.
    destruct (inGrid bounds gridRes row); simpl length.
    + rewrite Nat2Z.inj_succ. unfold Z.succ. rewrite inject_Z_plus.
      change (inject_Z 1) with 1. ring.
    + ring.
Qed.

(** The index along an axis with finite bounds in the right order. *)
Lemma axisIndex_finite (lo hi : Q) (gridRes : nat) (v : Q) :
  lo <= hi ->
  axisIndex (Fin lo) (Fin hi) gridRes (Fin v)
  = Fin (inject_Z (Qfloor ((v - lo)
                           * ((inject_Z (Z.of_nat gridRes) - 1) / (hi - lo + epsilon))
                           + (1 # 2)))).
Proof.
  intro H. unfold axisIndex, axisScale, Num.ofNat. simpl.
  assert (E : Num.Qis_zero (hi - lo + epsilon) = false)
    by (apply Qis_zero_false; unfold epsilon; lra).
  rewrite E. reflexivity.
Qed.

Lemma axisIndex_at_lo (lo hi : Q) (gridRes : nat) :
  lo <= hi -> axisIndex (Fin lo) (Fin hi) gridRes (Fin lo) = Fin 0.
Proof.
  intro H. rewrite axisIndex_finite by exact H.
  change 0 with (inject_Z (Qfloor (1 # 2))). do 2 f_equal.
  apply Qfloor_comp. ring.
Qed.

Lemma axisIndex_at_hi (lo hi : Q) (gridRes : nat) :
  (1 <= gridRes)%nat -> lo <= hi ->
  exists k : Z,
    axisIndex (Fin lo) (Fin hi) gridRes (Fin hi) = Fin (inject_Z k) /\
    (0 <= k <= Z.of_nat gridRes - 1)%Z /\
    (inject_Z (2 * Z.of_nat gridRes - 3) * epsilon <= hi - lo ->
     k = (Z.of_nat gridRes - 1)%Z) /\
    (hi == lo -> k = 0%Z).
Proof.
  intros HR H. rewrite axisIndex_finite by exact H.
  set (Rq := inject_Z (Z.of_nat gridRes)).
  set (s := (Rq - 1) / (hi - lo + epsilon)).
  assert (HRq : 1 <= Rq).
  { unfold Rq. change 1 with (inject_Z 1). rewrite <- Zle_Qle. lia. }
  assert (He : 0 < epsilon) by (unfold epsilon; lra).
  assert (Hs : s * (hi - lo + epsilon) == Rq - 1).
  { unfold s. field. lra. }
  assert (Hs0 : 0 <= s).
  { unfold s, Qdiv. apply Qmult_le_0_compat; [lra|].
    apply Qlt_le_weak, Qinv_lt_0_compat. lra. }
  assert (Hes : 0 <= epsilon * s) by (apply Qmult_le_0_compat; lra).
  assert (Hds : 0 <= (hi - lo) * s) by (apply Qmult_le_0_compat; lra).
  assert (Hsum : (hi - lo) * s == Rq - 1 - epsilon * s) by (rewrite <- Hs; ring).
  assert (Em : inject_Z (Z.of_nat gridRes - 1) == Rq - 1).
  { unfold Rq, Z.sub. rewrite inject_Z_plus. reflexivity. }
  exists (Qfloor ((hi - lo) * s + (1 # 2))).
  split; [reflexivity|]. split; [|split].
  - split.
    + apply Qfloor_ge_Z. change (inject_Z 0) with 0. lra.
    + assert (Qfloor ((hi - lo) * s + (1 # 2)) < Z.of_nat gridRes)%Z; [|lia].
      apply Qfloor_lt_Z. fold Rq. lra.
  - intro Hspan.
    assert (U : (Qfloor ((hi - lo) * s + (1 # 2)) < Z.of_nat gridRes)%Z)
      by (apply Qfloor_lt_Z; fold Rq; lra).
    assert (L : (Z.of_nat gridRes - 1 <= Qfloor ((hi - lo) * s + (1 # 2)))%Z);
      [|lia].
    apply Qfloor_ge_Z. rewrite Em.
    assert (E3 : inject_Z (2 * Z.of_nat gridRes - 3) == 2 * Rq - 3).
    { unfold Rq, Z.sub. rewrite inject_Z_plus, inject_Z_mult. reflexivity. }
    rewrite E3 in Hspan.
    assert (Hhalf : epsilon * s <= 1 # 2); [|lra].
    destruct (Qlt_le_dec (1 # 2) (epsilon * s)) as [Hgt|Hle]; [|exact Hle].
    exfalso.
    assert (P : (2 * Rq - 2) * (epsilon * s) <= s * (hi - lo + epsilon))
      by nra.
    rewrite Hs in P.
    destruct (Qlt_le_dec 1 Rq) as [Hbig|Hsmall].
    + assert ((2 * Rq - 2) * (1 # 2) < (2 * Rq - 2) * (epsilon * s))
        by (apply Qmult_lt_l; lra).
      lra.
    + assert (Hz : s * (hi - lo + epsilon) == 0) by (rewrite Hs; lra).
      nra.
  - intro Heq.
    transitivity (Qfloor (1 # 2)); [|reflexivity].
    apply Qfloor_comp. setoid_replace (hi - lo) with 0 by lra. ring.
Qed.

(** C1, as the claim states its last part: a point on an edge of the bounds
    would get index 0 or [R - 1].  With bounds one [epsilon] wide and three
    cells, the point on the upper edge gets index 1. *)
Lemma edge_point_in_the_middle :
  let bounds := {| xmin := Fin 0; xmax := Fin (1 # 1000000000);
                   ymin := Fin 0; ymax := Fin (1 # 1000000000) |} in
  let row := {| gps_latitude := Fin (1 # 1000000000);
                gps_longitude := Fin (1 # 1000000000);
                carrier := "A" |} in
  gps_longitude row = xmax bounds /\
  inGrid bounds 3 row = true /\
  ~ (xIndex bounds 3 row = Fin 0 \/ xIndex bounds 3 row = Fin (3 - 1)).
Proof.
  split; [reflexivity|]. split; [reflexivity|].
  intros [H|H]; vm_compute in H; discriminate.
Qed.

(** C1, amended.  The cells of the histogram sum to the number of points
    whose two rounded indices pass the range test.  Such a point adds 1 to
    its cell and leaves the others alone; another point leaves the grid
    alone.  With finite bounds in the right order, a point on the lower
    edge gets index 0 and a point on the upper edge gets an index of the
    grid, which is [R - 1] when the span is at least [(2R - 3) * epsilon]
    and 0 when the span is zero. *)
Theorem histogram_counts_in_range_points :
  (forall (bounds : Bounds) (gridRes : nat) (data : list CsvRow),
      Qsum (histogram bounds gridRes data)
      == inject_Z (Z.of_nat (length (filter (inGrid bounds gridRes) data)))) /\
  (forall (bounds : Bounds) (gridRes : nat) (grid : list Q) (row : CsvRow),
      length grid = (gridRes * gridRes)%nat ->
      if inGrid bounds gridRes row then
        let i := cellOf bounds gridRes row in
        (i < gridRes * gridRes)%nat /\
        nth i (accumulate bounds gridRes grid row) 0 = nth i grid 0 + 1 /\
        (forall j, j <> i -> nth j (accumulate bounds gridRes grid row) 0 = nth j grid 0)
      else accumulate bounds gridRes grid row = grid) /\
  (forall (lo hi : Q) (gridRes : nat),
      (1 <= gridRes)%nat -> lo <= hi ->
      axisIndex (Fin lo) (Fin hi) gridRes (Fin lo) = Fin 0 /\
      exists k : Z,
        axisIndex (Fin lo) (Fin hi) gridRes (Fin hi) = Fin (inject_Z k) /\
        (0 <= k <= Z.of_nat gridRes - 1)%Z /\
        (inject_Z (2 * Z.of_nat gridRes - 3) * epsilon <= hi - lo ->
         k = (Z.of_nat gridRes - 1)%Z) /\
        (hi == lo -> k = 0%Z)).
Proof.
  split; [|split].
  - intros bounds gridRes data. unfold histogram.
    rewrite histogram_sum_from by apply repeat_length.
    rewrite Qsum_repeat_zero. ring.
  - intros bounds gridRes grid row Hlen. unfold accumulate.
    destruct (inGrid bounds gridRes row) eqn:E; [|reflexivity].
    pose proof (inGrid_cell _ _ _ E) as Hi. cbv zeta.
    split; [exact Hi|]. split.
    + apply nth_upd_same. rewrite Hlen. exact Hi.
    + intros j Hj. apply nth_upd_other. congruence.
  - intros lo hi gridRes HR H. split.
    + apply axisIndex_at_lo. exact H.
    + apply axisIndex_at_hi; assumption.
Qed.

Lemma histogram_counts_in_range_points_witness :
  axisIndex (Fin 0) (Fin 10) 5 (Fin 0) = Fin 0 /\
  exists k : Z,
    axisIndex (Fin 0) (Fin 10) 5 (Fin 10) = Fin (inject_Z k) /\ (0 <= k <= 4)%Z.
Proof.
  assert (HR : (1 <= 5)%nat) by lia.
  assert (H : 0 <= 10) by lra.
  destruct (proj2 (proj2 histogram_counts_in_range_points) 0 10 5%nat HR H)
    as [E0 [k [Ek [Hk _]]]].
  split; [exact E0|]. exists k. split; [exact Ek | exact Hk].
Defined.

(** ** The archive *)

Module KmzFacts.

Import Kmz.

Lemma append_assoc (a b c : string) :
  ((a ++ b) ++ c)%string = (a ++ (b ++ c))%string.
Proof. induction a as [|x a IH]; simpl; [reflexivity | rewrite IH; reflexivity]. Qed.

(** No image takes the name of the manifest. *)
Lemma fileName_not_manifest (label : string) : fileName label <> "doc.kml"%string.
Proof.
  unfold fileName. generalize (replaceRuns false label). intro s.
  destruct s as [|c1 [|c2 [|c3 [|c4 [|c5 [|c6 [|c7 [|c8 s]]]]]]]];
    simpl; intro H; congruence.
Qed.

(** The replacement leaves no whitespace, and leaves a label without
    whitespace as it is. *)
Lemma replaceRuns_no_whitespace (inRun : bool) (s : string) :
  Forall (fun c => isWhitespace c = false)
         (list_ascii_of_string (replaceRuns inRun s)).
Proof.
  revert inRun; induction s as [|c s IH]; intro inRun; simpl; [constructor|].
  destruct (isWhitespace c) eqn:E.
  - destruct inRun; [apply IH|]. simpl. constructor; [reflexivity | apply IH].
  - simpl. constructor; [exact E | apply IH].
Qed.

Lemma replaceRuns_plain (inRun : bool) (s : string) :
  Forall (fun c => isWhitespace c = false) (list_ascii_of_string s) ->
  replaceRuns inRun s = s.
Proof.
  revert inRun; induction s as [|c s IH]; intros inRun H; simpl; [reflexivity|].
  simpl in H. inversion H as [|? ? Hc Hs]; subst.
  rewrite Hc, IH by exact Hs. reflexivity.
Qed.

(** Paths without a slash have no parent folder. *)
Lemma lastSlash_none (s : string) : without "/" s -> lastSlash s = None.
Proof.
  induction s as [|c s IH]; simpl; intro H; [reflexivity|].
  inversion H as [|? ? Hc Hs]; subst. rewrite IH by exact Hs.
  rewrite Ascii.eqb_sym, Hc. reflexivity.
Qed.

Lemma endsWithSlash_none (s : string) : without "/" s -> endsWithSlash s = false.
Proof.
  induction s as [|c s IH]; simpl; intro H; [reflexivity|].
  inversion H as [|? ? Hc Hs]; subst.
  destruct s as [|c' s']; [rewrite Ascii.eqb_sym; exact Hc | apply IH, Hs].
Qed.

Lemma parentFolder_none (s : string) : without "/" s -> parentFolder s = EmptyString.
Proof.
  intro H. unfold parentFolder.
  rewrite (endsWithSlash_none s H), (lastSlash_none s H). reflexivity.
Qed.

Lemma without_append (c : ascii) (a b : string) :
  without c a -> without c b -> without c (a ++ b).
Proof.
  unfold without. induction a as [|x a IH]; simpl; intros Ha Hb; [exact Hb|].
  inversion Ha; subst. constructor; [assumption | apply IH; assumption].
Qed.

Lemma replaceRuns_without (c : ascii) (inRun : bool) (s : string) :
  Ascii.eqb c "_" = false -> without c s -> without c (replaceRuns inRun s).
Proof.
  intros Hu. revert inRun; induction s as [|x s IH]; intros inRun H; simpl;
    [constructor|].
  inversion H as [|? ? Hx Hs]; subst.
  destruct (isWhitespace x).
  - destruct inRun; [apply IH, Hs|]. constructor; [exact Hu | apply IH, Hs].
  - constructor; [exact Hx | apply IH, Hs].
Qed.

Lemma fileName_without (c : ascii) (label : string) :
  Ascii.eqb c "_" = false -> without c ".png" ->
  without c label -> without c (fileName label).
Proof.
  intros Hu Hp H. unfold fileName.
  apply without_append; [apply replaceRuns_without; assumption | exact Hp].
Qed.

Lemma fileName_no_slash (label : string) :
  without "/" label -> without "/" (fileName label).
Proof.
  apply fileName_without; [reflexivity | repeat constructor].
Qed.

Section Assembler.

Variable Blob : Type.
Variable numToString : num -> string.

Local Abbreviation Layer := (Layer Blob).
Local Abbreviation Zip := (Zip Blob).

Lemma zipSet_fresh (zip : Zip) (name : string) (data : ZipData Blob) :
  ~ In name (entryNames Blob zip) ->
  zipSet Blob zip name data = (zip ++ [(name, data)])%list.
Proof.
  induction zip as [|[n d] zip IH]; simpl; intro H; [reflexivity|].
  destruct (String.eqb n name) eqn:E.
  - apply String.eqb_eq in E. exfalso. apply H. now left.
  - rewrite IH; [reflexivity|]. intro Hin. apply H. now right.
Qed.

(** Under a name without a slash, [zip.file] declares the entry alone. *)
Lemma zipFile_plain (zip : Zip) (name : string) (data : ZipData Blob) :
  without "/" name -> zipFile Blob zip name data = zipSet Blob zip name data.
Proof.
  intro H. unfold zipFile. rewrite (parentFolder_none name H). reflexivity.
Qed.

Lemma zipFile_fresh (zip : Zip) (name : string) (data : ZipData Blob) :
  without "/" name -> ~ In name (entryNames Blob zip) ->
  zipFile Blob zip name data = (zip ++ [(name, data)])%list.
Proof.
  intros Hs H. rewrite zipFile_plain by exact Hs. apply zipSet_fresh, H.
Qed.

Lemma addLayer_fold (layers : list Layer) (kml : string) (zip : Zip) :
  Forall (fun layer => without "/" (name Blob layer)) layers ->
  NoDup (entryNames Blob zip ++ map (imageName Blob) layers) ->
  fold_left (addLayer Blob numToString) layers (kml, zip)
  = ((kml ++ overlays Blob numToString layers)%string, (zip ++ map (imageEntry Blob) layers)%list).
Proof.
  intro Hplain.
  revert kml zip; induction Hplain as [|layer layers Hl Hls IH]; intros kml zip Hnd.
  - simpl. rewrite app_nil_r. f_equal.
    induction kml as [|c kml IHk]; simpl; [reflexivity | rewrite <- IHk; reflexivity].
  - simpl fold_left. fold (imageName Blob layer).
    simpl map in Hnd.
    assert (Hfresh : ~ In (imageName Blob layer) (entryNames Blob zip)).
    { intro Hin. apply NoDup_remove_2 in Hnd. apply Hnd.
      apply in_or_app. now left. }
    rewrite zipFile_fresh; [|apply fileName_no_slash, Hl | exact Hfresh].
    rewrite IH.
    + simpl. rewrite append_assoc, <- app_assoc. reflexivity.
    + unfold entryNames in *. rewrite map_app. simpl map.
      rewrite <- app_assoc. simpl.
      apply NoDup_remove_1 in Hnd as Hnd1.
      apply NoDup_remove_2 in Hnd as Hnd2.
      apply NoDup_Add with (a := imageName Blob layer)
                           (l := (map fst zip ++ map (imageName Blob) layers)%list).
      * apply Add_app.
      * split; assumption.
Qed.

(** A text without [<] holds no tag. *)
Lemma countSub_skip (tag text rest : string) :
  without "<" text ->
  countSub (String "<" tag) (text ++ rest) = countSub (String "<" tag) rest.
Proof.
  intro H. induction text as [|c text IH]; [reflexivity|].
  inversion H as [|? ? Hc Ht]; subst.
  change (String c text ++ rest)%string with (String c (text ++ rest)).
  cbn [countSub String.prefix].
  destruct (ascii_dec "<" c) as [E|_].
  - subst c. discriminate.
  - rewrite IH by exact Ht. reflexivity.
Qed.

(** The record of a layer opens one [GroundOverlay], when neither the
    label nor the text of a number holds a [<]. *)
Lemma groundOverlay_one_tag (layer : Layer) (rest : string) :
  (forall n, without "<" (numToString n)) ->
  without "<" (name Blob layer) ->
  countSub "<GroundOverlay>" (groundOverlay Blob numToString layer ++ rest)
  = S (countSub "<GroundOverlay>" rest).
Proof.
  intros Hnum Hlabel.
  assert (Hfile : without "<" (fileName (name Blob layer)))
    by (apply fileName_without; [reflexivity | repeat constructor | exact Hlabel]).
  unfold groundOverlay. rewrite !append_assoc.
  unfold nl. cbn -[countSub String.prefix fileName].
  repeat (cbn [countSub String.prefix]; simpl ascii_dec;
          cbn [Nat.add];
          try rewrite (countSub_skip _ (name Blob layer)) by exact Hlabel;
          try rewrite (countSub_skip _ (fileName (name Blob layer))) by exact Hfile;
          try rewrite (countSub_skip _ (numToString _)) by apply Hnum).
  reflexivity.
Qed.

Lemma overlays_tags (layers : list Layer) (rest : string) :
  (forall n, without "<" (numToString n)) ->
  Forall (fun layer => without "<" (name Blob layer)) layers ->
  countSub "<GroundOverlay>" (overlays Blob numToString layers ++ rest)
  = (length layers + countSub "<GroundOverlay>" rest)%nat.
Proof.
  intros Hnum H. induction H as [|layer layers Hl Hls IH]; [reflexivity|].
  change (overlays Blob numToString (layer :: layers))
    with (groundOverlay Blob numToString layer
          ++ overlays Blob numToString layers)%string.
  rewrite append_assoc.
  rewrite groundOverlay_one_tag by assumption. rewrite IH. reflexivity.
Qed.

End Assembler.

End KmzFacts.

(** C9, as the claim states it: the manifest would come first, every layer
    would have an image of its own, the archive would hold nothing else
    and the manifest one record per layer.  With the two labels ["A B"]
    and ["A_B"] the archive holds one image, and the manifest after it;
    with the label ["N/A"] it also holds the folder ["N/"]; and a label
    that holds the text of a tag makes a manifest with three of them for
    one layer: the tag of the record, the label and the file name. *)
Lemma manifest_is_declared_last :
  let box := Kmz.mkBox (Fin 1) (Fin 0) (Fin 1) (Fin 0) in
  (let layers := [Kmz.mkLayer nat "A B" 1%nat box; Kmz.mkLayer nat "A_B" 2%nat box] in
   Kmz.entryNames nat (Kmz.createKmz nat (fun _ => "0"%string) layers)
   = ["A_B.png"%string; "doc.kml"%string]) /\
  (let layers := [Kmz.mkLayer nat "N/A" 1%nat box] in
   Kmz.entryNames nat (Kmz.createKmz nat (fun _ => "0"%string) layers)
   = ["N/"%string; "N/A.png"%string; "doc.kml"%string]) /\
  (let layers := [Kmz.mkLayer nat "<GroundOverlay>" 1%nat box] in
   countSub "<GroundOverlay>" (Kmz.manifest nat (fun _ => "0"%string) layers)
   = 3%nat).
Proof. cbv zeta. split; [|split]; reflexivity. Qed.

(** C9, amended.  When no label holds a slash and the file names of the
    layers, their labels with every run of whitespace turned into one
    underscore and [.png] added, are all different, the archive declares
    one image per layer, in the order of the layers, and then the manifest
    [doc.kml].  The manifest is the header, one [GroundOverlay] record per
    layer in the same order, with the label, the file name and the four
    sides of the box written as they are, and the footer; when neither a
    label nor the text of a number holds a [<], it has as many
    [<GroundOverlay>] tags as there are layers.  A file name holds no
    whitespace, and is the label itself before [.png] when the label holds
    none. *)
Theorem archive_entries (Blob : Type) (numToString : num -> string)
    (layers : list (Kmz.Layer Blob)) :
  Forall (fun layer => without "/" (Kmz.name Blob layer)) layers ->
  NoDup (map (Kmz.imageName Blob) layers) ->
  let nl := String (ascii_of_nat 10) EmptyString in
  let record := fun layer : Kmz.Layer Blob =>
    (nl ++
     "    <GroundOverlay>" ++ nl ++
     "      <name>" ++ Kmz.name Blob layer ++ "</name>" ++ nl ++
     "      <Icon>" ++ nl ++
     "        <href>" ++ Kmz.fileName (Kmz.name Blob layer) ++ "</href>" ++ nl ++
     "      </Icon>" ++ nl ++
     "      <LatLonBox>" ++ nl ++
     "        <north>" ++ numToString (Kmz.north (Kmz.bounds Blob layer)) ++ "</north>" ++ nl ++
     "        <south>" ++ numToString (Kmz.south (Kmz.bounds Blob layer)) ++ "</south>" ++ nl ++
     "        <east>" ++ numToString (Kmz.east (Kmz.bounds Blob layer)) ++ "</east>" ++ nl ++
     "        <west>" ++ numToString (Kmz.west (Kmz.bounds Blob layer)) ++ "</west>" ++ nl ++
     "      </LatLonBox>" ++ nl ++
     "    </GroundOverlay>" ++ nl)%string in
  let text := (Kmz.kmlHeader
               ++ fold_right (fun layer rest => record layer ++ rest) EmptyString layers
               ++ Kmz.kmlFooter)%string in
  Kmz.createKmz Blob numToString layers
  = (map (fun layer => (Kmz.fileName (Kmz.name Blob layer),
                        Kmz.ZBlob Blob (Kmz.blob Blob layer))) layers
     ++ [("doc.kml"%string, Kmz.ZText Blob text)])%list /\
  Kmz.entryNames Blob (Kmz.createKmz Blob numToString layers)
  = (map (fun layer => Kmz.fileName (Kmz.name Blob layer)) layers
     ++ ["doc.kml"%string])%list /\
  length (Kmz.createKmz Blob numToString layers) = S (length layers) /\
  ((forall n, without "<" (numToString n)) ->
   Forall (fun layer => without "<" (Kmz.name Blob layer)) layers ->
   countSub "<GroundOverlay>" text = length layers) /\
  (forall layer, In layer layers ->
     exists base,
       Kmz.fileName (Kmz.name Blob layer) = (base ++ ".png")%string /\
       Forall (fun c => Kmz.isWhitespace c = false) (list_ascii_of_string base) /\
       (Forall (fun c => Kmz.isWhitespace c = false)
               (list_ascii_of_string (Kmz.name Blob layer)) ->
        base = Kmz.name Blob layer)).
Proof.
  intros Hplain Hnd nl record text.
  assert (Et : text = Kmz.manifest Blob numToString layers) by reflexivity.
  assert (E : Kmz.createKmz Blob numToString layers
              = (map (Kmz.imageEntry Blob) layers
                 ++ [("doc.kml"%string, Kmz.ZText Blob text)])%list).
  { unfold Kmz.createKmz.
    rewrite KmzFacts.addLayer_fold by assumption. simpl app.
    rewrite KmzFacts.zipFile_fresh.
    - rewrite Et. unfold Kmz.manifest. rewrite KmzFacts.append_assoc. reflexivity.
    - repeat constructor.
    - unfold Kmz.entryNames. rewrite map_map. simpl.
      intro Hin. apply in_map_iff in Hin. destruct Hin as [layer [Hl _]].
      exact (KmzFacts.fileName_not_manifest _ Hl). }
  split; [exact E|]. split; [|split; [|split]].
  - rewrite E. unfold Kmz.entryNames. rewrite map_app, map_map. reflexivity.
  - rewrite E. rewrite length_app, length_map. simpl. lia.
  - intros Hnum Hlt. rewrite Et. unfold Kmz.manifest.
    transitivity (countSub "<GroundOverlay>"
                    (Kmz.overlays Blob numToString layers ++ Kmz.kmlFooter)).
    + reflexivity.
    + rewrite KmzFacts.overlays_tags by assumption.
      change (countSub "<GroundOverlay>" Kmz.kmlFooter) with 0%nat. lia.
  - intros layer _. exists (Kmz.replaceRuns false (Kmz.name Blob layer)).
    split; [reflexivity|]. split.
    + apply KmzFacts.replaceRuns_no_whitespace.
    + apply KmzFacts.replaceRuns_plain.
Qed.

Lemma archive_entries_witness :
  let box := Kmz.mkBox (Fin 1) (Fin 0) (Fin 1) (Fin 0) in
  let layers := [Kmz.mkLayer nat "A" 1%nat box; Kmz.mkLayer nat "B" 2%nat box] in
  Kmz.entryNames nat (Kmz.createKmz nat (fun _ => "0"%string) layers)
  = ["A.png"%string; "B.png"%string; "doc.kml"%string].
Proof.
  intros box layers.
  assert (Hplain : Forall (fun layer => without "/" (Kmz.name nat layer)) layers)
    by (repeat constructor).
  assert (Hnd : NoDup (map (Kmz.imageName nat) layers)).
  { simpl. repeat constructor; simpl; intuition discriminate. }
  exact (proj1 (proj2 (archive_entries nat (fun _ => "0"%string) layers Hplain Hnd))).
Defined.

(** ** Nonnegativity along the pipeline *)

Lemma nonneg_nth (l : list Q) (i : nat) : nonneg l -> 0 <= nth i l 0.
Proof.
  intro H. destruct (nth_in_or_default i l 0) as [Hin | ->]; [|lra].
  unfold nonneg in H. rewrite Forall_forall in H. apply H. exact Hin.
Qed.

Lemma nonneg_repeat_zero (n : nat) : nonneg (repeat 0 n).
Proof.
  apply Forall_forall. intros v Hv. apply repeat_spec in Hv. subst v. lra.
Qed.

Lemma accumulate_nonneg (bounds : Bounds) (gridRes : nat) (grid : list Q)
    (row : CsvRow) :
  nonneg grid -> nonneg (accumulate bounds gridRes grid row).
Proof.
  intro H. unfold accumulate. destruct (inGrid _ _ _); [|exact H].
  apply upd_Forall; [exact H|].
  pose proof (nonneg_nth grid (cellOf bounds gridRes row) H). lra.
Qed.

Lemma histogram_nonneg (bounds : Bounds) (gridRes : nat) (data : list CsvRow) :
  nonneg (histogram bounds gridRes data).
Proof.
  unfold histogram.
  generalize (nonneg_repeat_zero (gridRes * gridRes)).
  generalize (repeat 0 (gridRes * gridRes)).
  induction data as [|row data IH]; intros grid H; simpl; [exact H|].
  apply IH, accumulate_nonneg, H.
Qed.

(** The running sum of a loop against the sum of the list. *)
Lemma fold_left_Qplus (l : list Q) (a : Q) : fold_left Qplus l a == a + Qsum l.
Proof.
  revert a; induction l as [|h t IH]; intro a; simpl.
  - ring.
  - rewrite IH. ring.
Qed.

Lemma Qsum_positive (l : list Q) (v : Q) :
  Forall (fun w => 0 < w) l -> In v l -> 0 < Qsum l.
Proof.
  intros H Hin.
  assert (N : 0 <= Qsum l /\ (l <> [] -> 0 < Qsum l)).
  { clear Hin. induction H as [|h t Hh Ht IH]; simpl.
    - split; [lra | congruence].
    - destruct IH as [IH _]. split; [lra | intros _; lra]. }
  apply N. destruct l; [contradiction | congruence].
Qed.

Section KernelFacts.

Variable exp : Q -> Q.
Hypothesis exp_pos : forall x, 0 < exp x.

Lemma createGaussianKernel_raw (sigma : Q) :
  createGaussianKernel exp sigma
  = map (fun v => v / fold_left Qplus (rawKernel exp sigma) 0) (rawKernel exp sigma).
Proof. reflexivity. Qed.

Lemma rawKernel_positive (sigma : Q) : Forall (fun w => 0 < w) (rawKernel exp sigma).
Proof.
  unfold rawKernel. apply Forall_forall. intros w Hw.
  apply in_map_iff in Hw. destruct Hw as [i [<- _]]. apply exp_pos.
Qed.

(** Every weight of the kernel is positive. *)
Lemma kernel_positive (sigma : Q) :
  Forall (fun w => 0 < w) (createGaussianKernel exp sigma).
Proof.
  rewrite createGaussianKernel_raw. apply Forall_forall. intros w Hw.
  apply in_map_iff in Hw. destruct Hw as [v [<- Hv]].
  pose proof (rawKernel_positive sigma) as Hraw.
  assert (Hs : 0 < fold_left Qplus (rawKernel exp sigma) 0).
  { rewrite fold_left_Qplus. pose proof (Qsum_positive _ _ Hraw Hv). lra. }
  rewrite Forall_forall in Hraw. specialize (Hraw v Hv).
  unfold Qdiv. apply Qmult_lt_0_compat; [exact Hraw|].
  apply Qinv_lt_0_compat. exact Hs.
Qed.

End KernelFacts.

Lemma taps_nonneg (kernel : list Q) (cell : nat -> Q) (taps : list nat) (a : Q) :
  nonneg kernel -> (forall k, 0 <= cell k) -> 0 <= a ->
  0 <= fold_left (fun sum k => sum + cell k * nth k kernel 0) taps a.
Proof.
  intros Hk Hc. revert a. induction taps as [|k taps IH]; intros a Ha; simpl.
  - exact Ha.
  - apply IH. pose proof (nonneg_nth kernel k Hk). specialize (Hc k). nra.
Qed.

Lemma tapsH_nonneg (data : list Q) (width : nat) (kernel : list Q)
    (rowOffset x : nat) :
  nonneg data -> nonneg kernel -> 0 <= tapsH data width kernel rowOffset x.
Proof.
  intros Hd Hk. unfold tapsH.
  apply (taps_nonneg kernel
           (fun k => nth (rowOffset
                          + Z.to_nat (clampIdx (Z.of_nat x
                                                + (Z.of_nat k - Z.of_nat (length kernel / 2)))
                                               (Z.of_nat width))) data 0));
    [exact Hk | | lra].
  intro k. apply nonneg_nth. exact Hd.
Qed.

Lemma tapsV_nonneg (data : list Q) (width height : nat) (kernel : list Q)
    (x y : nat) :
  nonneg data -> nonneg kernel -> 0 <= tapsV data width height kernel x y.
Proof.
  intros Hd Hk. unfold tapsV.
  apply (taps_nonneg kernel
           (fun k => nth (Z.to_nat (clampIdx (Z.of_nat y
                                              + (Z.of_nat k - Z.of_nat (length kernel / 2)))
                                             (Z.of_nat height)) * width + x) data 0));
    [exact Hk | | lra].
  intro k. apply nonneg_nth. exact Hd.
Qed.

(** A loop that stores nonnegative values keeps the array nonnegative. *)
Lemma store_loop_nonneg (idx : nat -> nat) (val : nat -> Q) (steps : list nat)
    (out : list Q) :
  (forall i, 0 <= val i) -> nonneg out ->
  nonneg (fold_left (fun out i => upd out (idx i) (val i)) steps out).
Proof.
  intro Hv. revert out. induction steps as [|i steps IH]; intros out Ho; simpl.
  - exact Ho.
  - apply IH. apply upd_Forall; [exact Ho | apply Hv].
Qed.

Lemma convolveH_nonneg (data : list Q) (width height : nat) (kernel : list Q) :
  nonneg data -> nonneg kernel -> nonneg (convolveH data width height kernel).
Proof.
  intros Hd Hk. unfold convolveH.
  generalize (nonneg_repeat_zero (length data)).
  generalize (repeat 0 (length data)). generalize (seq 0 height).
  intro rows. induction rows as [|y rows IH]; intros out Ho; simpl.
  - exact Ho.
  - apply IH.
    apply (store_loop_nonneg (fun x => (y * width + x)%nat)
             (fun x => tapsH data width kernel (y * width) x));
      [|exact Ho].
    intro x. apply tapsH_nonneg; assumption.
Qed.

Lemma convolveV_nonneg (data : list Q) (width height : nat) (kernel : list Q) :
  nonneg data -> nonneg kernel -> nonneg (convolveV data width height kernel).
Proof.
  intros Hd Hk. unfold convolveV.
  generalize (nonneg_repeat_zero (length data)).
  generalize (repeat 0 (length data)). generalize (seq 0 width).
  intro cols. induction cols as [|x cols IH]; intros out Ho; simpl.
  - exact Ho.
  - apply IH.
    apply (store_loop_nonneg (fun y => (y * width + x)%nat)
             (fun y => tapsV data width height kernel x y));
      [|exact Ho].
    intro y. apply tapsV_nonneg; assumption.
Qed.

(** C10.  From the grid of zeros on, every stage keeps the cells
    nonnegative: the histogram only adds 1 to cells, the weights of the
    kernel are positive, and each pass of the convolution stores sums of
    products of nonnegative numbers.  So the smoothed grid, the maximum
    density and, for a nonnegative ratio, the cut-off are nonnegative. *)
Theorem pipeline_is_nonnegative (exp : Q -> Q) (data : list CsvRow)
    (bounds : Bounds) (config : ProcessingConfig) :
  (forall x, 0 < exp x) -> 0 < radius config ->
  let grid := histogram bounds (gridRes config) data in
  let kernel := createGaussianKernel exp (radius config) in
  let passH := convolveH grid (gridRes config) (gridRes config) kernel in
  let heat := heatOf exp data bounds config in
  nonneg grid /\
  Forall (fun w => 0 < w) kernel /\
  nonneg passH /\
  heat = convolveV passH (gridRes config) (gridRes config) kernel /\
  nonneg heat /\
  0 <= maxDensity heat /\
  (0 <= thresholdRatio config -> 0 <= cutoff heat (thresholdRatio config)).
Proof.
  intros Hexp Hsigma grid kernel passH heat.
  assert (Hg : nonneg grid) by apply histogram_nonneg.
  assert (Hk : Forall (fun w => 0 < w) kernel) by (apply kernel_positive; exact Hexp).
  assert (Hk0 : nonneg kernel).
  { unfold nonneg. rewrite Forall_forall in *. intros w Hw.
    apply Qlt_le_weak, Hk, Hw. }
  assert (Hh : nonneg passH) by (apply convolveH_nonneg; assumption).
  assert (Hv : nonneg heat) by (apply convolveV_nonneg; assumption).
  pose proof (maxDensity_nonneg heat) as Hm.
  repeat (split; [assumption || reflexivity|]).
  intro Hr. unfold cutoff. apply Qmult_le_0_compat; assumption.
Qed.

Lemma pipeline_is_nonnegative_witness :
  let exp := fun x : Q => 1 / (1 + x * x) in
  let data := [mkRow (Fin 1) (Fin 2) "A"; mkRow (Fin 3) (Fin 5) "A"] in
  let config := mkConfig 4 1 (3 # 10) in
  0 <= maxDensity (heatOf exp data (computeBounds data) config).
Proof.
  intros exp data config.
  assert (Hexp : forall x : Q, 0 < exp x).
  { intro x. unfold exp, Qdiv. rewrite Qmult_1_l. apply Qinv_lt_0_compat. nra. }
  assert (Hs : 0 < radius config) by (simpl; lra).
  exact (proj1 (proj2 (proj2 (proj2 (proj2 (proj2
           (pipeline_is_nonnegative exp data (computeBounds data) config Hexp Hs))))))).
Defined.

(** ** Finite sums *)

Lemma Qsum_app (l1 l2 : list Q) : Qsum (l1 ++ l2) == Qsum l1 + Qsum l2.
Proof.
  induction l1 as [|h t IH]; simpl; [ring | rewrite IH; ring].
Qed.

Lemma bigsum_S (f : nat -> Q) (n : nat) : bigsum f (S n) == bigsum f n + f n.
Proof.
  unfold bigsum. rewrite seq_S, map_app, Qsum_app. simpl. ring.
Qed.

Lemma bigsum_ext (f g : nat -> Q) (n : nat) :
  (forall i, (i < n)%nat -> f i == g i) -> bigsum f n == bigsum g n.
Proof.
  induction n as [|n IH]; intro H; [reflexivity|].
  rewrite !bigsum_S, IH, (H n) by auto with arith. reflexivity.
Qed.

Lemma bigsum_zero (f : nat -> Q) (n : nat) :
  (forall i, (i < n)%nat -> f i == 0) -> bigsum f n == 0.
Proof.
  induction n as [|n IH]; intro H; [reflexivity|].
  rewrite bigsum_S, IH, (H n) by auto with arith. ring.
Qed.

Lemma bigsum_plus (f g : nat -> Q) (n : nat) :
  bigsum (fun i => f i + g i) n == bigsum f n + bigsum g n.
Proof.
  induction n as [|n IH]; [reflexivity|].
  rewrite !bigsum_S, IH. ring.
Qed.

Lemma bigsum_scale (c : Q) (f : nat -> Q) (n : nat) :
  bigsum (fun i => f i * c) n == bigsum f n * c.
Proof.
  induction n as [|n IH]; [unfold bigsum; simpl; ring|].
  rewrite !bigsum_S, IH. ring.
Qed.

(** The two orders of a double sum. *)
Lemma bigsum_swap (f : nat -> nat -> Q) (n m : nat) :
  bigsum (fun i => bigsum (fun j => f i j) m) n
  == bigsum (fun j => bigsum (fun i => f i j) n) m.
Proof.
  induction n as [|n IH].
  - symmetry. apply bigsum_zero. reflexivity.
  - rewrite bigsum_S, IH, <- bigsum_plus.
    apply bigsum_ext. intros j _. rewrite bigsum_S. reflexivity.
Qed.

(** A sum and the sum of the terms one place further. *)
Lemma bigsum_shift (f : nat -> Q) (n : nat) :
  bigsum (fun i => f (S i)) n + f 0%nat == bigsum f n + f n.
Proof.
  induction n as [|n IH]; [unfold bigsum; simpl; ring|].
  rewrite !bigsum_S. rewrite <- IH. ring.
Qed.

Lemma bigsum_add (f : nat -> Q) (a b : nat) :
  bigsum f (a + b) == bigsum f a + bigsum (fun i => f (a + i)%nat) b.
Proof.
  induction b as [|b IH].
  - rewrite Nat.add_0_r. unfold bigsum at 3. simpl. ring.
  - rewrite Nat.add_succ_r, !bigsum_S, IH. ring.
Qed.

(** A sum over the cells of a grid, row by row. *)
Lemma bigsum_grid (f : nat -> Q) (width height : nat) :
  bigsum f (height * width)
  == bigsum (fun y => bigsum (fun x => f (y * width + x)%nat) width) height.
Proof.
  induction height as [|h IH]; [reflexivity|].
  rewrite bigsum_S, <- IH.
  replace (S h * width)%nat with (h * width + width)%nat by lia.
  apply bigsum_add.
Qed.

Lemma Qsum_nth (l : list Q) : Qsum l == bigsum (fun i => nth i l 0) (length l).
Proof.
  induction l as [|h t IH] using rev_ind; [reflexivity|].
  rewrite Qsum_app, length_app, Nat.add_comm. simpl length.
  rewrite bigsum_S, IH. simpl Qsum.
  rewrite nth_middle.
  assert (E : bigsum (fun i => nth i (t ++ [h]) 0) (length t)
              == bigsum (fun i => nth i t 0) (length t)).
  { apply bigsum_ext. intros i Hi. rewrite app_nth1 by exact Hi. reflexivity. }
  rewrite E. ring.
Qed.

Lemma fold_left_sum (f : nat -> Q) (l : list nat) (a : Q) :
  fold_left (fun sum k => sum + f k) l a == a + Qsum (map f l).
Proof.
  revert a; induction l as [|k l IH]; intro a; simpl; [ring|].
  rewrite IH. ring.
Qed.

(** ** Loops that store into an array *)

Section StoreLoop.

Variables (idx : nat -> nat) (val : nat -> Q).

Local Abbreviation store := (fun (out : list Q) (i : nat) => upd out (idx i) (val i)).

Lemma store_loop_length (steps : list nat) (out : list Q) :
  length (fold_left store steps out) = length out.
Proof.
  revert out; induction steps as [|i steps IH]; intro out; simpl; [reflexivity|].
  rewrite IH. apply upd_length.
Qed.

Lemma store_loop_elsewhere (steps : list nat) (out : list Q) (j : nat) :
  ~ In j (map idx steps) ->
  nth j (fold_left store steps out) 0 = nth j out 0.
Proof.
  revert out; induction steps as [|i steps IH]; intros out H; simpl; [reflexivity|].
  rewrite IH by (intro Hin; apply H; now right).
  apply nth_upd_other. intro E. apply H. now left.
Qed.

Lemma store_loop_stored (steps : list nat) (out : list Q) (i : nat) :
  NoDup (map idx steps) -> In i steps -> (idx i < length out)%nat ->
  nth (idx i) (fold_left store steps out) 0 = val i.
Proof.
  revert out; induction steps as [|i0 steps IH]; intros out Hnd Hin Hlen;
    simpl in *; [contradiction|].
  inversion Hnd as [|? ? Hnotin Hnd']; subst.
  destruct Hin as [->|Hin].
  - rewrite store_loop_elsewhere by exact Hnotin.
    apply nth_upd_same. exact Hlen.
  - apply IH; [exact Hnd' | exact Hin |]. rewrite upd_length. exact Hlen.
Qed.

End StoreLoop.

Lemma convolveH_nested (data : list Q) (width height : nat) (kernel : list Q) :
  convolveH data width height kernel
  = nestedStore height width (fun y x => (y * width + x)%nat)
      (fun y x => tapsH data width kernel (y * width) x)
      (repeat 0 (length data)).
Proof. reflexivity. Qed.

Lemma convolveV_nested (data : list Q) (width height : nat) (kernel : list Q) :
  convolveV data width height kernel
  = nestedStore width height (fun x y => (y * width + x)%nat)
      (fun x y => tapsV data width height kernel x y)
      (repeat 0 (length data)).
Proof. reflexivity. Qed.

Lemma nested_loop_length (innerN : nat) (idx : nat -> nat -> nat)
    (val : nat -> nat -> Q) (steps : list nat) (init : list Q) :
  length (fold_left
            (fun out a =>
               fold_left (fun out b => upd out (idx a b) (val a b)) (seq 0 innerN) out)
            steps init)
  = length init.
Proof.
  revert init; induction steps as [|a steps IH]; intro init; simpl; [reflexivity|].
  rewrite IH. apply (store_loop_length (idx a) (val a)).
Qed.

Section NestedStore.

Variables (outerN innerN : nat) (idx : nat -> nat -> nat) (val : nat -> nat -> Q).
Variable init : list Q.

Hypothesis idx_inj :
  forall a a' b b',
    (a < outerN)%nat -> (a' < outerN)%nat -> (b < innerN)%nat -> (b' < innerN)%nat ->
    idx a b = idx a' b' -> a = a' /\ b = b'.

Hypothesis idx_range :
  forall a b, (a < outerN)%nat -> (b < innerN)%nat -> (idx a b < length init)%nat.

Lemma nestedStore_length :
  length (nestedStore outerN innerN idx val init) = length init.
Proof. apply nested_loop_length. Qed.

Lemma inner_targets_distinct (a : nat) :
  (a < outerN)%nat -> NoDup (map (idx a) (seq 0 innerN)).
Proof.
  intro Ha. apply Injective_map_NoDup_in; [|apply seq_NoDup].
  intros b b' Hb Hb' E. apply in_seq in Hb, Hb'.
  apply (idx_inj a a b b'); lia.
Qed.

Lemma nestedStore_prefix (m a b : nat) :
  (m <= outerN)%nat -> (a < m)%nat -> (b < innerN)%nat ->
  nth (idx a b)
      (fold_left
         (fun out a =>
            fold_left (fun out b => upd out (idx a b) (val a b)) (seq 0 innerN) out)
         (seq 0 m) init) 0
  = val a b.
Proof.
  induction m as [|m IH]; intros Hm Ha Hb; [lia|].
  rewrite seq_S, fold_left_app. simpl.
  set (out := fold_left _ (seq 0 m) init).
  assert (Hlen : length out = length init) by apply nested_loop_length.
  destruct (Nat.eq_dec a m) as [->|Hne].
  - apply (store_loop_stored (idx m) (val m)).
    + apply inner_targets_distinct. lia.
    + apply in_seq. lia.
    + rewrite Hlen. apply idx_range; lia.
  - rewrite (store_loop_elsewhere (idx m) (val m)).
    + apply IH; lia.
    + intro Hin. apply in_map_iff in Hin. destruct Hin as [b' [E Hb']].
      apply in_seq in Hb'.
      destruct (idx_inj m a b' b) as [E' _]; try lia.
Qed.

Lemma nestedStore_nth (a b : nat) :
  (a < outerN)%nat -> (b < innerN)%nat ->
  nth (idx a b) (nestedStore outerN innerN idx val init) 0 = val a b.
Proof.
  intros Ha Hb. unfold nestedStore. apply nestedStore_prefix; lia.
Qed.

End NestedStore.

(** ** The mass of a grid under the convolution *)

Lemma clampNat_right (p d n : nat) :
  (p < n)%nat -> clampNat p (Z.of_nat d) n = Nat.min (p + d) (n - 1).
Proof.
  intro H. unfold clampNat, clampIdx.
  destruct (Z.ltb_spec (Z.of_nat p + Z.of_nat d) 0); [lia|].
  destruct (Z.geb_spec (Z.of_nat p + Z.of_nat d) (Z.of_nat n)); lia.
Qed.

Lemma clampNat_left (p d n : nat) :
  (p < n)%nat -> clampNat p (- Z.of_nat d) n = (p - d)%nat.
Proof.
  intro H. unfold clampNat, clampIdx.
  destruct (Z.ltb_spec (Z.of_nat p + - Z.of_nat d) 0); [lia|].
  destruct (Z.geb_spec (Z.of_nat p + - Z.of_nat d) (Z.of_nat n)); lia.
Qed.

Lemma clampNat_bound (p : nat) (d : Z) (n : nat) :
  (0 < n)%nat -> (clampNat p d n < n)%nat.
Proof.
  intro H. unfold clampNat, clampIdx.
  destruct (Z.ltb_spec (Z.of_nat p + d) 0); [lia|].
  destruct (Z.geb_spec (Z.of_nat p + d) (Z.of_nat n)); lia.
Qed.

Section Shift.

Variables (line : nat -> Q) (n c : nat).
Hypothesis n_pos : (0 < n)%nat.
Hypothesis line_margin : margin line n c.

Lemma shift_right (d : nat) :
  (d <= c)%nat ->
  bigsum (fun p => line (Nat.min (p + d) (n - 1))) n == bigsum line n.
Proof.
  induction d as [|d IH]; intro Hd.
  - apply bigsum_ext. intros p Hp.
    replace (Nat.min (p + 0) (n - 1)) with p by lia. reflexivity.
  - rewrite <- IH by lia.
    pose proof (bigsum_shift (fun p => line (Nat.min (p + d) (n - 1))) n) as Sh.
    cbv beta in Sh.
    assert (E0 : line (Nat.min (0 + d) (n - 1)) == 0)
      by (apply line_margin; lia).
    assert (En : line (Nat.min (n + d) (n - 1)) == 0)
      by (apply line_margin; lia).
    rewrite E0, En in Sh.
    assert (E : bigsum (fun p => line (Nat.min (p + S d) (n - 1))) n
                == bigsum (fun p => line (Nat.min (S p + d) (n - 1))) n).
    { apply bigsum_ext. intros p _.
      replace (p + S d)%nat with (S p + d)%nat by lia. reflexivity. }
    rewrite E. lra.
Qed.

Lemma shift_left (d : nat) :
  (d <= c)%nat ->
  bigsum (fun p => line (p - d)%nat) n == bigsum line n.
Proof.
  induction d as [|d IH]; intro Hd.
  - apply bigsum_ext. intros p Hp.
    replace (p - 0)%nat with p by lia. reflexivity.
  - rewrite <- IH by lia.
    pose proof (bigsum_shift (fun p => line (p - S d)%nat) n) as Sh.
    cbv beta in Sh.
    assert (E0 : line (0 - S d)%nat == 0) by (apply line_margin; lia).
    assert (En : line (n - S d)%nat == 0) by (apply line_margin; lia).
    rewrite E0, En in Sh.
    assert (E : bigsum (fun p => line (S p - S d)%nat) n
                == bigsum (fun p => line (p - d)%nat) n).
    { apply bigsum_ext. intros p _. reflexivity. }
    rewrite E in Sh. lra.
Qed.

(** Every tap of a kernel of half-width [c] sees the whole mass. *)
Lemma shift_tap (t : nat) :
  (t <= 2 * c)%nat ->
  bigsum (fun p => line (clampNat p (Z.of_nat t - Z.of_nat c) n)) n
  == bigsum line n.
Proof.
  intro Ht. destruct (Nat.le_ge_cases c t) as [Hge|Hlt].
  - rewrite <- (shift_right (t - c)) by lia.
    apply bigsum_ext. intros p Hp.
    replace (Z.of_nat t - Z.of_nat c)%Z with (Z.of_nat (t - c)) by lia.
    rewrite clampNat_right by exact Hp. reflexivity.
  - rewrite <- (shift_left (c - t)) by lia.
    apply bigsum_ext. intros p Hp.
    replace (Z.of_nat t - Z.of_nat c)%Z with (- Z.of_nat (c - t))%Z by lia.
    rewrite clampNat_left by exact Hp. reflexivity.
Qed.

End Shift.

(** One line under a kernel of length [2c + 1] that sums to 1. *)
Lemma line_mass (line : nat -> Q) (n c : nat) (kernel : list Q) :
  length kernel = (2 * c + 1)%nat -> Qsum kernel == 1 -> margin line n c ->
  bigsum (fun p =>
            bigsum (fun t => line (clampNat p (Z.of_nat t - Z.of_nat c) n)
                             * nth t kernel 0) (length kernel)) n
  == bigsum line n.
Proof.
  intros Hlen Hsum Hm.
  destruct (Nat.eq_dec n 0) as [->|Hn]; [reflexivity|].
  rewrite bigsum_swap.
  assert (E : bigsum (fun t =>
                        bigsum (fun p => line (clampNat p (Z.of_nat t - Z.of_nat c) n)
                                         * nth t kernel 0) n) (length kernel)
              == bigsum (fun t => nth t kernel 0 * bigsum line n) (length kernel)).
  { apply bigsum_ext. intros t Ht.
    rewrite bigsum_scale.
    rewrite (shift_tap line n c) by (assumption || lia). ring. }
  rewrite E, bigsum_scale, <- Qsum_nth, Hsum. ring.
Qed.

Lemma half_of_odd (c : nat) : ((2 * c + 1) / 2 = c)%nat.
Proof.
  replace (2 * c + 1)%nat with (c * 2 + 1)%nat by lia.
  rewrite Nat.div_add_l by lia. simpl. lia.
Qed.

Lemma tapsH_bigsum (data : list Q) (width : nat) (kernel : list Q)
    (rowOffset x : nat) :
  tapsH data width kernel rowOffset x
  == bigsum (fun t =>
               nth (rowOffset
                    + clampNat x (Z.of_nat t - Z.of_nat (length kernel / 2)) width)
                   data 0
               * nth t kernel 0) (length kernel).
Proof.
  unfold tapsH. cbv zeta.
  rewrite (fold_left_sum
             (fun k =>
                nth (rowOffset
                     + Z.to_nat (clampIdx (Z.of_nat x
                                           + (Z.of_nat k - Z.of_nat (length kernel / 2)))
                                          (Z.of_nat width))) data 0
                * nth k kernel 0)).
  unfold bigsum, clampNat. ring.
Qed.

Lemma tapsV_bigsum (data : list Q) (width height : nat) (kernel : list Q)
    (x y : nat) :
  tapsV data width height kernel x y
  == bigsum (fun t =>
               nth (clampNat y (Z.of_nat t - Z.of_nat (length kernel / 2)) height
                    * width + x)
                   data 0
               * nth t kernel 0) (length kernel).
Proof.
  unfold tapsV. cbv zeta.
  rewrite (fold_left_sum
             (fun k =>
                nth (Z.to_nat (clampIdx (Z.of_nat y
                                         + (Z.of_nat k - Z.of_nat (length kernel / 2)))
                                        (Z.of_nat height)) * width + x) data 0
                * nth k kernel 0)).
  unfold bigsum, clampNat. ring.
Qed.

Lemma cell_index_unique (width a a' b b' : nat) :
  (b < width)%nat -> (b' < width)%nat ->
  (a * width + b = a' * width + b')%nat -> a = a' /\ b = b'.
Proof.
  intros Hb Hb' E.
  apply (Nat.div_mod_unique width); try assumption. lia.
Qed.

Section Mass.

Variables (data : list Q) (width height c : nat) (kernel : list Q).
Hypothesis data_length : length data = (width * height)%nat.
Hypothesis kernel_length : length kernel = (2 * c + 1)%nat.
Hypothesis kernel_sum : Qsum kernel == 1.

Lemma convolveH_length :
  length (convolveH data width height kernel) = length data.
Proof.
  rewrite convolveH_nested. unfold nestedStore.
  rewrite nested_loop_length. apply repeat_length.
Qed.

Lemma convolveV_length :
  length (convolveV data width height kernel) = length data.
Proof.
  rewrite convolveV_nested. unfold nestedStore.
  rewrite nested_loop_length. apply repeat_length.
Qed.

(** Each cell of a pass holds the sum of its taps. *)
Lemma convolveH_cell (y x : nat) :
  (y < height)%nat -> (x < width)%nat ->
  nth (y * width + x) (convolveH data width height kernel) 0
  = tapsH data width kernel (y * width) x.
Proof.
  clear kernel_length kernel_sum.
  intros Hy Hx. rewrite convolveH_nested.
  apply (nestedStore_nth height width (fun y x => (y * width + x)%nat)
           (fun y x => tapsH data width kernel (y * width) x)); try assumption.
  - intros a a' b b' _ _ Hb Hb' E. apply (cell_index_unique width); assumption.
  - intros a b Ha Hb. rewrite repeat_length, data_length. nia.
Qed.

Lemma convolveV_cell (y x : nat) :
  (y < height)%nat -> (x < width)%nat ->
  nth (y * width + x) (convolveV data width height kernel) 0
  = tapsV data width height kernel x y.
Proof.
  clear kernel_length kernel_sum.
  intros Hy Hx. rewrite convolveV_nested.
  apply (nestedStore_nth width height (fun x y => (y * width + x)%nat)
           (fun x y => tapsV data width height kernel x y)); try assumption.
  - intros a a' b b' Ha Ha' _ _ E.
    destruct (cell_index_unique width b b' a a' Ha Ha' E). split; assumption.
  - intros a b Ha Hb. rewrite repeat_length, data_length. nia.
Qed.

Lemma grid_sum (cells : list Q) :
  length cells = (width * height)%nat ->
  Qsum cells
  == bigsum (fun y => bigsum (fun x => nth (y * width + x) cells 0) width) height.
Proof.
  intro Hlen. rewrite Qsum_nth, Hlen, Nat.mul_comm. apply bigsum_grid.
Qed.

(** The horizontal pass keeps the sum of a grid whose first and last [c]
    columns are zero. *)
Lemma convolveH_mass :
  (forall y, (y < height)%nat ->
             margin (fun x => nth (y * width + x) data 0) width c) ->
  Qsum (convolveH data width height kernel) == Qsum data.
Proof.
  intro Hm.
  rewrite (grid_sum (convolveH data width height kernel))
    by (rewrite convolveH_length; exact data_length).
  rewrite (grid_sum data data_length).
  apply bigsum_ext. intros y Hy.
  rewrite <- (line_mass (fun x => nth (y * width + x) data 0) width c kernel)
    by (assumption || apply Hm; exact Hy).
  apply bigsum_ext. intros x Hx.
  rewrite convolveH_cell by assumption.
  rewrite tapsH_bigsum, kernel_length, half_of_odd. reflexivity.
Qed.

(** The vertical pass keeps the sum of a grid whose first and last [c]
    rows are zero. *)
Lemma convolveV_mass :
  (forall x, (x < width)%nat ->
             margin (fun y => nth (y * width + x) data 0) height c) ->
  Qsum (convolveV data width height kernel) == Qsum data.
Proof.
  intro Hm.
  rewrite (grid_sum (convolveV data width height kernel))
    by (rewrite convolveV_length; exact data_length).
  rewrite (grid_sum data data_length).
  rewrite bigsum_swap. rewrite (bigsum_swap _ height width).
  apply bigsum_ext. intros x Hx.
  rewrite <- (line_mass (fun y => nth (y * width + x) data 0) height c kernel)
    by (assumption || apply Hm; exact Hx).
  apply bigsum_ext. intros y Hy.
  rewrite convolveV_cell by assumption.
  rewrite tapsV_bigsum, kernel_length, half_of_odd. reflexivity.
Qed.

(** The horizontal pass leaves a row of zeros as it is. *)
Lemma convolveH_zero_row (y : nat) :
  (y < height)%nat ->
  (forall x, (x < width)%nat -> nth (y * width + x) data 0 == 0) ->
  forall x, (x < width)%nat ->
            nth (y * width + x) (convolveH data width height kernel) 0 == 0.
Proof.
  clear kernel_length kernel_sum.
  intros Hy Hrow x Hx. rewrite convolveH_cell by assumption.
  rewrite tapsH_bigsum. apply bigsum_zero. intros t _.
  rewrite Hrow by (apply clampNat_bound; lia). ring.
Qed.

End Mass.

(** ** The kernel *)

Section KernelShape.

Variable exp : Q -> Q.
Hypothesis exp_pos : forall x, 0 < exp x.

Variable sigma : Q.
Hypothesis sigma_pos : 0 < sigma.

Lemma halfWidth_ceiling : (0 <= Qceiling (sigma * 3))%Z.
Proof.
  assert (H : 0 < inject_Z (Qceiling (sigma * 3))).
  { apply Qlt_le_trans with (sigma * 3); [lra | apply Qle_ceiling]. }
  change 0 with (inject_Z 0) in H. rewrite <- Zlt_Qlt in H. lia.
Qed.

Lemma rawKernel_length : length (rawKernel exp sigma) = (2 * halfWidth sigma + 1)%nat.
Proof.
  unfold rawKernel, halfWidth. rewrite length_map, length_seq.
  pose proof halfWidth_ceiling. lia.
Qed.

Lemma kernel_length :
  length (createGaussianKernel exp sigma) = (2 * halfWidth sigma + 1)%nat.
Proof.
  rewrite createGaussianKernel_raw, length_map. apply rawKernel_length.
Qed.

Lemma Qsum_quotients (l : list Q) (s : Q) :
  Qsum (map (fun v => v / s) l) == Qsum l / s.
Proof.
  induction l as [|h t IH]; simpl.
  - unfold Qdiv. ring.
  - rewrite IH. unfold Qdiv. ring.
Qed.

(** The weights of the kernel sum to 1. *)
Lemma kernel_sum : Qsum (createGaussianKernel exp sigma) == 1.
Proof.
  rewrite createGaussianKernel_raw, Qsum_quotients, fold_left_Qplus.
  assert (P : 0 < Qsum (rawKernel exp sigma)).
  { pose proof rawKernel_length as L.
    destruct (rawKernel exp sigma) as [|v l] eqn:E; [simpl in L; lia|].
    rewrite <- E.
    apply (Qsum_positive _ v); [apply rawKernel_positive; exact exp_pos|].
    rewrite E. now left. }
  field. lra.
Qed.

End KernelShape.

(** ** The mass of a smoothed grid *)

Lemma cornerGrid_smoothed (k0 k1 k2 k3 k4 : Q) :
  Qsum (convolveV (convolveH cornerGrid 3 3 [k0; k1; k2; k3; k4]) 3 3
                  [k0; k1; k2; k3; k4])
  == (3 * k0 + 2 * k1 + k2) * (3 * k0 + 2 * k1 + k2).
Proof.
  cbv -[Qplus Qmult Qeq]. ring.
Qed.

(** The kernel of [sigma = 1/2]: five weights, the same on both sides of
    the centre. *)
Lemma kernel_of_half (exp : Q -> Q) :
  let e0 := exp (- (0 * 0) / (2 * (1 # 2) * (1 # 2))) in
  let e1 := exp (- (1 * 1) / (2 * (1 # 2) * (1 # 2))) in
  let e2 := exp (- (2 * 2) / (2 * (1 # 2) * (1 # 2))) in
  let s := 0 + e2 + e1 + e0 + e1 + e2 in
  createGaussianKernel exp (1 # 2) = [e2 / s; e1 / s; e0 / s; e1 / s; e2 / s].
Proof. reflexivity. Qed.

(** A single point, with the bounds computed from it, is counted in the
    corner cell of the grid; smoothed with [sigma = 1/2] on three by three
    cells, this unit of mass weighs [(1 + w)^2] where [w > 0] is the
    outermost weight of the kernel, whatever positive function stands for
    [Math.exp]. *)
Lemma corner_mass_grows :
  let data := [mkRow (Fin 1) (Fin 2) "A"] in
  let bounds := computeBounds data in
  let config := mkConfig 3 (1 # 2) (3 # 10) in
  histogram bounds 3 data = cornerGrid /\
  ~ exists exp : Q -> Q,
      (forall x, 0 < exp x) /\
      Qsum (heatOf exp data bounds config) == Qsum (histogram bounds 3 data).
Proof.
  split; [reflexivity|].
  intros [exp [Hpos H]].
  change (histogram (computeBounds [mkRow (Fin 1) (Fin 2) "A"]) 3 [mkRow (Fin 1) (Fin 2) "A"])
    with cornerGrid in H.
  change (heatOf exp [mkRow (Fin 1) (Fin 2) "A"] (computeBounds [mkRow (Fin 1) (Fin 2) "A"])
                 (mkConfig 3 (1 # 2) (3 # 10)))
    with (convolveV
            (convolveH cornerGrid 3 3 (createGaussianKernel exp (1 # 2))) 3 3
            (createGaussianKernel exp (1 # 2))) in H.
  rewrite kernel_of_half in H. cbv zeta in H.
  rewrite cornerGrid_smoothed in H.
  set (e0 := exp (- (0 * 0) / (2 * (1 # 2) * (1 # 2)))) in *.
  set (e1 := exp (- (1 * 1) / (2 * (1 # 2) * (1 # 2)))) in *.
  set (e2 := exp (- (2 * 2) / (2 * (1 # 2) * (1 # 2)))) in *.
  assert (P0 : 0 < e0) by apply Hpos.
  assert (P1 : 0 < e1) by apply Hpos.
  assert (P2 : 0 < e2) by apply Hpos.
  set (s := 0 + e2 + e1 + e0 + e1 + e2) in *.
  assert (Ps : 0 < s) by (unfold s; lra).
  assert (W : 0 < e2 / s).
  { unfold Qdiv. apply Qmult_lt_0_compat; [exact P2|].
    apply Qinv_lt_0_compat. exact Ps. }
  assert (E : 3 * (e2 / s) + 2 * (e1 / s) + e0 / s == 1 + e2 / s).
  { unfold s. field. fold s. lra. }
  rewrite E in H.
  change (Qsum cornerGrid) with (1 + (0 + (0 + (0 + (0 + (0 + (0 + (0 + (0 + 0))))))))) in H.
  nra.
Qed.

Lemma cornerGrid4_smoothed (k0 k1 k2 k3 k4 k5 k6 : Q) :
  Qsum (convolveV (convolveH cornerGrid4 4 4 [k0; k1; k2; k3; k4; k5; k6]) 4 4
                  [k0; k1; k2; k3; k4; k5; k6])
  == (4 * k0 + 3 * k1 + 2 * k2 + k3) * (4 * k0 + 3 * k1 + 2 * k2 + k3).
Proof.
  cbv -[Qplus Qmult Qeq]. ring.
Qed.

(** The kernel of [sigma = 1]: seven weights. *)
Lemma kernel_of_one (exp : Q -> Q) :
  let e0 := exp (- (0 * 0) / (2 * 1 * 1)) in
  let e1 := exp (- (1 * 1) / (2 * 1 * 1)) in
  let e2 := exp (- (2 * 2) / (2 * 1 * 1)) in
  let e3 := exp (- (3 * 3) / (2 * 1 * 1)) in
  let s := 0 + e3 + e2 + e1 + e0 + e1 + e2 + e3 in
  createGaussianKernel exp 1
  = [e3 / s; e2 / s; e1 / s; e0 / s; e1 / s; e2 / s; e3 / s].
Proof. reflexivity. Qed.

(** With [sigma = 1] on four by four cells, and a function within the
    enclosures of the exponential in place of [Math.exp], the unit of mass
    in the corner weighs more than 1.07 after the two passes. *)
Lemma corner_mass_grows_by_seven_percent :
  let data := [mkRow (Fin 1) (Fin 2) "A"] in
  let bounds := computeBounds data in
  let config := mkConfig 4 1 (3 # 10) in
  histogram bounds 4 data = cornerGrid4 /\
  ~ exists exp : Q -> Q,
      expEnclosed exp /\
      Qsum (heatOf exp data bounds config)
      <= (107 # 100) * Qsum (histogram bounds 4 data).
Proof.
  split; [reflexivity|].
  intros [exp [Henc H]].
  change (histogram (computeBounds [mkRow (Fin 1) (Fin 2) "A"]) 4 [mkRow (Fin 1) (Fin 2) "A"])
    with cornerGrid4 in H.
  change (heatOf exp [mkRow (Fin 1) (Fin 2) "A"] (computeBounds [mkRow (Fin 1) (Fin 2) "A"])
                 (mkConfig 4 1 (3 # 10)))
    with (convolveV
            (convolveH cornerGrid4 4 4 (createGaussianKernel exp 1)) 4 4
            (createGaussianKernel exp 1)) in H.
  rewrite kernel_of_one in H. cbv zeta in H.
  rewrite cornerGrid4_smoothed in H.
  assert (B : forall a lo hi,
             Qle_bool (-8) a = true -> Qle_bool a 0 = true ->
             Qle_bool lo (expLow a) = true -> Qle_bool (expHigh a) hi = true ->
             lo <= exp a /\ exp a <= hi).
  { intros a lo hi H1 H2 H3 H4.
    apply Qle_bool_iff in H1, H2, H3, H4.
    destruct (Henc a H1 H2) as [L U]. split.
    - apply Qle_trans with (expLow a); assumption.
    - apply Qle_trans with (expHigh a); assumption. }
  destruct (B (- (0 * 0) / (2 * 1 * 1)) 1 1) as [L0 U0]; try reflexivity.
  destruct (B (- (1 * 1) / (2 * 1 * 1)) (59 # 100) (62 # 100)) as [L1 U1];
    try reflexivity.
  destruct (B (- (2 * 2) / (2 * 1 * 1)) (1 # 10) (17 # 100)) as [L2 U2];
    try reflexivity.
  destruct (B (- (3 * 3) / (2 * 1 * 1)) (1 # 1000) (3 # 100)) as [L3 U3];
    try reflexivity.
  set (e0 := exp (- (0 * 0) / (2 * 1 * 1))) in *.
  set (e1 := exp (- (1 * 1) / (2 * 1 * 1))) in *.
  set (e2 := exp (- (2 * 2) / (2 * 1 * 1))) in *.
  set (e3 := exp (- (3 * 3) / (2 * 1 * 1))) in *.
  set (s := 0 + e3 + e2 + e1 + e0 + e1 + e2 + e3) in *.
  assert (Ps : 0 < s) by (unfold s; lra).
  assert (Us : s <= 264 # 100) by (unfold s; lra).
  set (w := (2 * e3 + e2) / s).
  assert (Ew : w * s == 2 * e3 + e2) by (unfold w; field; lra).
  assert (Lw : 3 # 80 <= w).
  { destruct (Qlt_le_dec w (3 # 80)) as [Hlt|Hge]; [|exact Hge].
    exfalso.
    assert (w * s < (3 # 80) * s) by (apply Qmult_lt_compat_r; assumption).
    lra. }
  assert (E : 4 * (e3 / s) + 3 * (e2 / s) + 2 * (e1 / s) + e0 / s == 1 + w).
  { unfold w, s. field. fold s. lra. }
  rewrite E in H.
  change (Qsum cornerGrid4)
    with (1 + (0 + (0 + (0 + (0 + (0 + (0 + (0 + (0 + (0 + (0 + (0 + (0
          + (0 + (0 + (0 + 0)))))))))))))))) in H.
  nra.
Qed.

(** C3, as the claim states it: the two passes would keep the sum of any
    nonnegative grid, up to rounding.  The histogram of a single point is a
    unit of mass in the corner cell.  On three by three cells with
    [sigma = 1/2] the two passes make it heavier, whatever positive
    function stands for [Math.exp]; on four by four cells with [sigma = 1]
    they make it heavier by more than 7%, for every function within the
    enclosures of the exponential. *)
Lemma corner_mass_is_not_kept :
  (let data := [mkRow (Fin 1) (Fin 2) "A"] in
   let bounds := computeBounds data in
   let config := mkConfig 3 (1 # 2) (3 # 10) in
   histogram bounds 3 data = cornerGrid /\
   ~ exists exp : Q -> Q,
       (forall x, 0 < exp x) /\
       Qsum (heatOf exp data bounds config) == Qsum (histogram bounds 3 data)) /\
  (let data := [mkRow (Fin 1) (Fin 2) "A"] in
   let bounds := computeBounds data in
   let config := mkConfig 4 1 (3 # 10) in
   histogram bounds 4 data = cornerGrid4 /\
   ~ exists exp : Q -> Q,
       expEnclosed exp /\
       Qsum (heatOf exp data bounds config)
       <= (107 # 100) * Qsum (histogram bounds 4 data)).
Proof.
  split; [exact corner_mass_grows | exact corner_mass_grows_by_seven_percent].
Qed.

(** C3, amended.  When the cells within [ceil(3 * sigma)] cells of a border
    are zero, the horizontal pass followed by the vertical pass keeps the
    sum of the grid; the kernel has [2 * ceil(3 * sigma) + 1] weights, which
    sum to 1. *)
Theorem smoothing_keeps_mass_inside (exp : Q -> Q) (sigma : Q) (gridRes : nat)
    (grid : list Q) :
  (forall x, 0 < exp x) -> 0 < sigma ->
  length grid = (gridRes * gridRes)%nat ->
  let kernel := createGaussianKernel exp sigma in
  let c := Z.to_nat (Qceiling (sigma * 3)) in
  (forall y x, (y < gridRes)%nat -> (x < gridRes)%nat ->
     (x < c \/ gridRes <= x + c \/ y < c \/ gridRes <= y + c)%nat ->
     nth (y * gridRes + x) grid 0 == 0) ->
  length kernel = (2 * c + 1)%nat /\
  Qsum kernel == 1 /\
  Qsum (convolveV (convolveH grid gridRes gridRes kernel) gridRes gridRes kernel)
  == Qsum grid.
Proof.
  intros Hexp Hsigma Hlen kernel c Hborder.
  assert (Kl : length kernel = (2 * c + 1)%nat) by (apply kernel_length; exact Hsigma).
  assert (Ks : Qsum kernel == 1) by (apply kernel_sum; assumption).
  split; [exact Kl|]. split; [exact Ks|].
  assert (Hl : length (convolveH grid gridRes gridRes kernel)
               = (gridRes * gridRes)%nat)
    by (rewrite convolveH_length; exact Hlen).
  rewrite (convolveV_mass _ gridRes gridRes c kernel Hl Kl Ks).
  - apply (convolveH_mass grid gridRes gridRes c kernel Hlen Kl Ks).
    intros y Hy p Hp Hedge. apply Hborder; try assumption.
    destruct Hedge; [now left | right; now left].
  - intros x Hx p Hp Hedge.
    apply (convolveH_zero_row grid gridRes gridRes kernel Hlen p Hp);
      [|exact Hx].
    intros x' Hx'. apply Hborder; try assumption.
    destruct Hedge; [right; right; now left | right; right; now right].
Qed.

Lemma smoothing_keeps_mass_inside_witness :
  let exp := fun x : Q => 1 / (1 + x * x) in
  let grid := [0; 0; 0; 0; 0;
               0; 0; 0; 0; 0;
               0; 0; 7; 0; 0;
               0; 0; 0; 0; 0;
               0; 0; 0; 0; 0] in
  let kernel := createGaussianKernel exp (1 # 2) in
  Qsum (convolveV (convolveH grid 5 5 kernel) 5 5 kernel) == Qsum grid.
Proof.
  intros exp grid kernel.
  assert (Hexp : forall x : Q, 0 < exp x).
  { intro x. unfold exp, Qdiv. rewrite Qmult_1_l. apply Qinv_lt_0_compat. nra. }
  assert (Hs : 0 < 1 # 2) by lra.
  assert (Hb : forall y x, (y < 5)%nat -> (x < 5)%nat ->
                 (x < 2 \/ 5 <= x + 2 \/ y < 2 \/ 5 <= y + 2)%nat ->
                 nth (y * 5 + x) grid 0 == 0).
  { intros y x Hy Hx Hedge.
    destruct y as [|[|[|[|[|y]]]]]; try lia;
      destruct x as [|[|[|[|[|x]]]]]; try lia; try reflexivity. }
  exact (proj2 (proj2 (smoothing_keeps_mass_inside exp (1 # 2) 5 grid
                         Hexp Hs eq_refl Hb))).
Defined.

(* ================================================================== *)
(** * Part III: further properties of the code *)
(* ================================================================== *)

(** ** The histogram, cell by cell *)

Lemma inject_Z_succ (k : Z) : inject_Z k + 1 = inject_Z (k + 1).
Proof.
  unfold Qplus, inject_Z. simpl. f_equal. lia.
Qed.


(** The loop keeps a grid of counts a grid of counts. *)
Lemma accumulate_counts (bounds : Bounds) (gridRes : nat) (grid : list Q)
    (k : nat -> Z) (row : CsvRow) :
  length grid = (gridRes * gridRes)%nat ->
  (forall i, nth i grid 0 = inject_Z (k i)) ->
  forall i,
    nth i (accumulate bounds gridRes grid row) 0
    = inject_Z (k i + (if hitsCell bounds gridRes i row then 1 else 0)).
Proof.
  intros Hlen Hk i. unfold accumulate, hitsCell.
  destruct (inGrid bounds gridRes row) eqn:E; simpl.
  - pose proof (inGrid_cell _ _ _ E) as Hc.
    destruct (Nat.eqb_spec (cellOf bounds gridRes row) i) as [Heq|Hne].
    + rewrite <- Heq.
      rewrite nth_upd_same by (rewrite Hlen; exact Hc).
      rewrite Hk. apply inject_Z_succ.
    + rewrite nth_upd_other by exact Hne. rewrite Hk, Z.add_0_r. reflexivity.
  - rewrite Hk, Z.add_0_r. reflexivity.
Qed.

Lemma histogram_counts_from (bounds : Bounds) (gridRes : nat)
    (data : list CsvRow) (grid : list Q) (k : nat -> Z) :
  length grid = (gridRes * gridRes)%nat ->
  (forall i, nth i grid 0 = inject_Z (k i)) ->
  forall i,
    nth i (fold_left (accumulate bounds gridRes) data grid) 0
    = inject_Z (k i + hitCount bounds gridRes data i).
Proof.
  revert grid k; induction data as [|row data IH]; intros grid k Hlen Hk i.
  - simpl. unfold hitCount. simpl. rewrite Z.add_0_r. apply Hk.
  - simpl fold_left.
    rewrite (IH _ (fun i => (k i + (if hitsCell bounds gridRes i row then 1 else 0))%Z)).
    + f_equal. unfold hitCount. simpl filter.
      destruct (hitsCell bounds gridRes i row); simpl length; lia.
    + rewrite accumulate_length. exact Hlen.
    + apply accumulate_counts; assumption.
Qed.

Lemma histogram_length (bounds : Bounds) (gridRes : nat) (data : list CsvRow) :
  length (histogram bounds gridRes data) = (gridRes * gridRes)%nat.
Proof.
  unfold histogram.
  assert (H : forall grid, length (fold_left (accumulate bounds gridRes) data grid)
                           = length grid).
  { induction data as [|row data IH]; intro grid; simpl; [reflexivity|].
    rewrite IH. apply accumulate_length. }
  rewrite H. apply repeat_length.
Qed.

Lemma histogram_cells (bounds : Bounds) (gridRes : nat) (data : list CsvRow)
    (i : nat) :
  nth i (histogram bounds gridRes data) 0
  = inject_Z (hitCount bounds gridRes data i).
Proof.
  unfold histogram.
  rewrite (histogram_counts_from bounds gridRes data _ (fun _ => 0%Z)).
  - reflexivity.
  - apply repeat_length.
  - intro j. apply nth_repeat.
Qed.

(** X1.  The histogram has [R * R] cells, and each cell holds the number of
    rows whose indices pass the range test and address that cell. *)
Theorem histogram_cell_is_hit_count (bounds : Bounds) (gridRes : nat)
    (data : list CsvRow) :
  length (histogram bounds gridRes data) = (gridRes * gridRes)%nat /\
  forall i, nth i (histogram bounds gridRes data) 0
            = inject_Z (hitCount bounds gridRes data i).
Proof.
  split; [apply histogram_length | apply histogram_cells].
Qed.

(** X2.  The histogram does not depend on the order of the rows. *)
Theorem histogram_order_independent (bounds : Bounds) (gridRes : nat)
    (data data' : list CsvRow) :
  Permutation data data' ->
  histogram bounds gridRes data = histogram bounds gridRes data'.
Proof.
  intro P. apply (nth_ext _ _ 0 0).
  - rewrite !histogram_length. reflexivity.
  - intros i _. rewrite !histogram_cells.
    unfold hitCount. rewrite (filter_length_perm _ _ _ P). reflexivity.
Qed.

Lemma histogram_order_independent_witness :
  histogram {| xmin := Fin 0; xmax := Fin 10; ymin := Fin 0; ymax := Fin 10 |} 3
            [mkRow (Fin 0) (Fin 0) "A"; mkRow (Fin 5) (Fin 10) "A"]
  = histogram {| xmin := Fin 0; xmax := Fin 10; ymin := Fin 0; ymax := Fin 10 |} 3
              [mkRow (Fin 5) (Fin 10) "A"; mkRow (Fin 0) (Fin 0) "A"].
Proof.
  apply histogram_order_independent. apply perm_swap.
Defined.

(** X3.  The histogram of two lists of rows put end to end is, cell by
    cell, the sum of their histograms. *)
Theorem histogram_of_concatenation (bounds : Bounds) (gridRes : nat)
    (data data' : list CsvRow) (i : nat) :
  nth i (histogram bounds gridRes (data ++ data')) 0
  == nth i (histogram bounds gridRes data) 0
     + nth i (histogram bounds gridRes data') 0.
Proof.
  rewrite !histogram_cells. unfold hitCount.
  rewrite filter_app, length_app, Nat2Z.inj_add, inject_Z_plus. reflexivity.
Qed.

(** ** The histogram inside the computed bounds *)








(** X5.  The bounds computed from no row are turned inside out,
    [+Infinity] below and [-Infinity] above, and with them every index is
    [NaN]: the histogram drops every row. *)
Theorem empty_bounds_drop_every_row (gridRes : nat) (data : list CsvRow) :
  computeBounds [] = {| xmin := PInf; xmax := NInf; ymin := PInf; ymax := NInf |} /\
  (forall row, xIndex (computeBounds []) gridRes row = NaN /\
               yIndex (computeBounds []) gridRes row = NaN) /\
  histogram (computeBounds []) gridRes data = repeat 0 (gridRes * gridRes)%nat.
Proof.
  assert (N : forall row, xIndex (computeBounds []) gridRes row = NaN /\
                          yIndex (computeBounds []) gridRes row = NaN).
  { intros [[| | |lat] [| | |lon] c]; split; reflexivity. }
  split; [reflexivity|]. split; [exact N|].
  unfold histogram. generalize (repeat 0 (gridRes * gridRes)%nat).
  induction data as [|row data IH]; intro grid; simpl; [reflexivity|].
  rewrite <- (IH grid) at 2. unfold accumulate, inGrid. cbv zeta.
  rewrite (proj1 (N row)). reflexivity.
Qed.



(** ** The shape of the kernel *)

Section KernelSymmetry.

Variable exp : Q -> Q.
Variable sigma : Q.
Hypothesis sigma_pos : 0 < sigma.

Lemma kernel_size :
  Z.to_nat (Qceiling (sigma * 3) * 2 + 1) = (2 * halfWidth sigma + 1)%nat.
Proof.
  unfold halfWidth. pose proof (halfWidth_ceiling sigma sigma_pos). lia.
Qed.

(** The weight [i] places before the division by the sum. *)
Lemma rawKernel_nth (i : nat) :
  (i <= 2 * halfWidth sigma)%nat ->
  nth i (rawKernel exp sigma) 0
  = exp (- (inject_Z (Z.of_nat i - Z.of_nat (halfWidth sigma))
            * inject_Z (Z.of_nat i - Z.of_nat (halfWidth sigma)))
         / (2 * sigma * sigma)).
Proof.
  intro Hi. unfold rawKernel. rewrite kernel_size, half_of_odd.
  rewrite (nth_indep _ 0
             (exp (- (inject_Z (Z.of_nat 0 - Z.of_nat (halfWidth sigma))
                      * inject_Z (Z.of_nat 0 - Z.of_nat (halfWidth sigma)))
                   / (2 * sigma * sigma))))
    by (rewrite length_map, length_seq; lia).
  rewrite (map_nth (fun i =>
                      exp (- (inject_Z (Z.of_nat i - Z.of_nat (halfWidth sigma))
                              * inject_Z (Z.of_nat i - Z.of_nat (halfWidth sigma)))
                           / (2 * sigma * sigma)))).
  rewrite seq_nth by lia. reflexivity.
Qed.

Lemma kernel_nth (i : nat) :
  (i <= 2 * halfWidth sigma)%nat ->
  nth i (createGaussianKernel exp sigma) 0
  = nth i (rawKernel exp sigma) 0 / fold_left Qplus (rawKernel exp sigma) 0.
Proof.
  intro Hi. rewrite createGaussianKernel_raw.
  rewrite (nth_indep _ 0 (0 / fold_left Qplus (rawKernel exp sigma) 0))
    by (rewrite length_map, (rawKernel_length exp sigma sigma_pos); lia).
  apply (map_nth (fun v => v / fold_left Qplus (rawKernel exp sigma) 0)).
Qed.

Lemma square_of_opposite (a : Z) :
  inject_Z (- a) * inject_Z (- a) = inject_Z a * inject_Z a.
Proof.
  unfold Qmult, inject_Z. simpl. f_equal. lia.
Qed.

Lemma rawKernel_mirror (i : nat) :
  (i <= 2 * halfWidth sigma)%nat ->
  nth i (rawKernel exp sigma) 0
  = nth (2 * halfWidth sigma - i) (rawKernel exp sigma) 0.
Proof.
  intro Hi. rewrite !rawKernel_nth by lia.
  replace (Z.of_nat (2 * halfWidth sigma - i) - Z.of_nat (halfWidth sigma))%Z
    with (- (Z.of_nat i - Z.of_nat (halfWidth sigma)))%Z by lia.
  rewrite square_of_opposite. reflexivity.
Qed.

End KernelSymmetry.

(** X7.  The kernel is symmetric around its centre: the weight [i] places
    from the start is the weight [i] places from the end. *)
Theorem kernel_is_symmetric (exp : Q -> Q) (sigma : Q) (i : nat) :
  0 < sigma -> (i <= 2 * halfWidth sigma)%nat ->
  nth i (createGaussianKernel exp sigma) 0
  = nth (2 * halfWidth sigma - i) (createGaussianKernel exp sigma) 0.
Proof.
  intros Hs Hi. rewrite !(kernel_nth exp sigma Hs) by lia.
  rewrite (rawKernel_mirror exp sigma Hs i Hi). reflexivity.
Qed.

Lemma kernel_is_symmetric_witness :
  nth 0 (createGaussianKernel (fun x => 1 / (1 + x * x)) 1) 0
  = nth (2 * halfWidth 1 - 0) (createGaussianKernel (fun x => 1 / (1 + x * x)) 1) 0.
Proof.
  apply kernel_is_symmetric.
  - reflexivity.
  - apply Nat.le_0_l.
Defined.

(** X8.  When the function in place of [Math.exp] is positive and does not
    decrease, as the exponential, the weights do not decrease from the
    start of the kernel up to its centre. *)
Theorem kernel_rises_to_centre (exp : Q -> Q) (sigma : Q) (i j : nat) :
  (forall x, 0 < exp x) -> (forall x y, x <= y -> exp x <= exp y) ->
  0 < sigma -> (i <= j)%nat -> (j <= halfWidth sigma)%nat ->
  nth i (createGaussianKernel exp sigma) 0
  <= nth j (createGaussianKernel exp sigma) 0.
Proof.
  intros Hpos Hmono Hs Hij Hj.
  rewrite !(kernel_nth exp sigma Hs) by lia.
  assert (P : 0 < fold_left Qplus (rawKernel exp sigma) 0).
  { rewrite fold_left_Qplus.
    pose proof (rawKernel_length exp sigma Hs) as L.
    pose proof (rawKernel_positive exp Hpos sigma) as R.
    destruct (rawKernel exp sigma) as [|v l] eqn:E; [simpl in L; lia|].
    pose proof (Qsum_positive (v :: l) v R (or_introl eq_refl)). lra. }
  apply quotient_mono; [exact P|].
  rewrite !(rawKernel_nth exp sigma Hs) by lia.
  apply Hmono.
  set (a := inject_Z (Z.of_nat i - Z.of_nat (halfWidth sigma))).
  set (b := inject_Z (Z.of_nat j - Z.of_nat (halfWidth sigma))).
  assert (Hab : a <= b) by (unfold a, b; rewrite <- Zle_Qle; lia).
  assert (Hb : b <= 0).
  { unfold b. change 0 with (inject_Z 0). rewrite <- Zle_Qle. lia. }
  assert (Hsq : b * b <= a * a) by nra.
  assert (Hd : 0 < 2 * sigma * sigma) by nra.
  apply quotient_mono; [exact Hd | lra].
Qed.

Lemma kernel_rises_to_centre_witness :
  let exp := fun x : Q => if Qle_bool x 0 then 1 else 1 + x in
  nth 0 (createGaussianKernel exp 1) 0 <= nth 2 (createGaussianKernel exp 1) 0.
Proof.
  intro exp.
  assert (Hpos : forall x, 0 < exp x) by (intro x; unfold exp; cmp_cases; lra).
  assert (Hmono : forall x y, x <= y -> exp x <= exp y)
    by (intros x y H; unfold exp; cmp_cases; lra).
  apply (kernel_rises_to_centre exp 1 0 2 Hpos Hmono).
  - reflexivity.
  - apply Nat.le_0_l.
  - unfold halfWidth. vm_compute. lia.
Defined.

(** ** The range of a smoothed grid *)

Lemma bigsum_le (f g : nat -> Q) (n : nat) :
  (forall i, (i < n)%nat -> f i <= g i) -> bigsum f n <= bigsum g n.
Proof.
  induction n as [|n IH]; intro H; [unfold bigsum; simpl; lra|].
  rewrite !bigsum_S.
  assert (bigsum f n <= bigsum g n) by (apply IH; intros i Hi; apply H; lia).
  assert (f n <= g n) by (apply H; lia). lra.
Qed.

(** A sum weighted by a kernel of nonnegative weights that sum to 1 lies
    between the least and the greatest of its terms. *)
Lemma weighted_between (kernel : list Q) (cell : nat -> Q) (lo hi : Q) :
  nonneg kernel -> Qsum kernel == 1 ->
  (forall t, (t < length kernel)%nat -> lo <= cell t <= hi) ->
  lo <= bigsum (fun t => cell t * nth t kernel 0) (length kernel) <= hi.
Proof.
  intros Hk Hs Hc.
  assert (E : forall c, bigsum (fun t => nth t kernel 0 * c) (length kernel) == c).
  { intro c. rewrite bigsum_scale, <- Qsum_nth, Hs. ring. }
  split.
  - rewrite <- (E lo) at 1. apply bigsum_le. intros t Ht.
    pose proof (nonneg_nth kernel t Hk). destruct (Hc t Ht). nra.
  - rewrite <- (E hi) at 1. apply bigsum_le. intros t Ht.
    pose proof (nonneg_nth kernel t Hk). destruct (Hc t Ht). nra.
Qed.

Lemma within_nth (lo hi : Q) (l : list Q) (i : nat) :
  within lo hi l -> (i < length l)%nat -> lo <= nth i l 0 <= hi.
Proof.
  intros H Hi. unfold within in H. rewrite Forall_forall in H.
  apply H, nth_In, Hi.
Qed.

Lemma cell_of_index (width height j : nat) :
  (j < width * height)%nat ->
  (j / width < height)%nat /\ (j mod width < width)%nat /\
  j = (j / width * width + j mod width)%nat.
Proof.
  intro H. assert (Hw : width <> 0%nat) by lia.
  split; [|split].
  - apply Nat.Div0.div_lt_upper_bound. lia.
  - apply Nat.mod_upper_bound. exact Hw.
  - rewrite (Nat.div_mod_eq j width) at 1. lia.
Qed.

Section Range.

Variables (data : list Q) (width height : nat) (kernel : list Q) (lo hi : Q).
Hypothesis data_length : length data = (width * height)%nat.
Hypothesis kernel_nonneg : nonneg kernel.
Hypothesis kernel_sum_one : Qsum kernel == 1.
Hypothesis data_within : within lo hi data.

Lemma convolveH_within : within lo hi (convolveH data width height kernel).
Proof.
  apply Forall_forall. intros v Hv.
  destruct (In_nth _ _ 0 Hv) as [j [Hj <-]].
  rewrite convolveH_length, data_length in Hj.
  destruct (cell_of_index width height j Hj) as [Hy [Hx E]].
  rewrite E. rewrite convolveH_cell by assumption.
  rewrite tapsH_bigsum.
  apply weighted_between; try assumption.
  intros t _. apply within_nth; [exact data_within|].
  pose proof (clampNat_bound (j mod width)
                (Z.of_nat t - Z.of_nat (length kernel / 2)) width).
  rewrite data_length. nia.
Qed.

Lemma convolveV_within : within lo hi (convolveV data width height kernel).
Proof.
  apply Forall_forall. intros v Hv.
  destruct (In_nth _ _ 0 Hv) as [j [Hj <-]].
  rewrite convolveV_length, data_length in Hj.
  destruct (cell_of_index width height j Hj) as [Hy [Hx E]].
  rewrite E. rewrite convolveV_cell by assumption.
  rewrite tapsV_bigsum.
  apply weighted_between; try assumption.
  intros t _. apply within_nth; [exact data_within|].
  pose proof (clampNat_bound (j / width)
                (Z.of_nat t - Z.of_nat (length kernel / 2)) height).
  rewrite data_length. nia.
Qed.

End Range.

Lemma smoothed_within (exp : Q -> Q) (sigma : Q) (gridRes : nat) (grid : list Q)
    (lo hi : Q) :
  (forall x, 0 < exp x) -> 0 < sigma ->
  length grid = (gridRes * gridRes)%nat -> within lo hi grid ->
  within lo hi
    (convolveV (convolveH grid gridRes gridRes (createGaussianKernel exp sigma))
               gridRes gridRes (createGaussianKernel exp sigma)).
Proof.
  intros Hexp Hs Hlen Hg.
  assert (Kn : nonneg (createGaussianKernel exp sigma)).
  { pose proof (kernel_positive exp Hexp sigma) as P.
    unfold nonneg. rewrite Forall_forall in *. intros w Hw.
    apply Qlt_le_weak, P, Hw. }
  assert (Ks : Qsum (createGaussianKernel exp sigma) == 1)
    by (apply kernel_sum; assumption).
  apply convolveV_within; try assumption.
  - rewrite convolveH_length. exact Hlen.
  - apply convolveH_within; assumption.
Qed.

(** X9.  Smoothing does not overshoot: when every cell of an [R] by [R]
    grid lies between [lo] and [hi], so does every cell after the two
    passes, at the borders too. *)
Theorem smoothing_stays_in_range (exp : Q -> Q) (sigma : Q) (gridRes : nat)
    (grid : list Q) (lo hi : Q) :
  (forall x, 0 < exp x) -> 0 < sigma ->
  length grid = (gridRes * gridRes)%nat ->
  (forall v, In v grid -> lo <= v <= hi) ->
  forall v,
    In v (convolveV
            (convolveH grid gridRes gridRes (createGaussianKernel exp sigma))
            gridRes gridRes (createGaussianKernel exp sigma)) ->
    lo <= v <= hi.
Proof.
  intros Hexp Hs Hlen Hg.
  assert (W : within lo hi grid) by (apply Forall_forall; exact Hg).
  pose proof (smoothed_within exp sigma gridRes grid lo hi Hexp Hs Hlen W) as S.
  unfold within in S. rewrite Forall_forall in S. exact S.
Qed.

Lemma smoothing_stays_in_range_witness :
  let exp := fun x : Q => 1 / (1 + x * x) in
  let smoothed :=
    convolveV (convolveH [0; 4; 1; 3] 2 2 (createGaussianKernel exp (1 # 3)))
              2 2 (createGaussianKernel exp (1 # 3)) in
  0 <= nth 0 smoothed 0 <= 4.
Proof.
  intros exp smoothed.
  assert (Hexp : forall x : Q, 0 < exp x).
  { intro x. unfold exp, Qdiv. rewrite Qmult_1_l. apply Qinv_lt_0_compat. nra. }
  apply (smoothing_stays_in_range exp (1 # 3) 2 [0; 4; 1; 3] 0 4 Hexp).
  - reflexivity.
  - reflexivity.
  - intros v Hv. simpl in Hv.
    destruct Hv as [<-|[<-|[<-|[<-|[]]]]]; lra.
  - vm_compute. left. reflexivity.
Defined.

(** X10.  A uniform grid stays uniform: with every cell equal to [c],
    every cell after the two passes equals [c], at the borders too. *)
Theorem smoothing_keeps_uniform_grid (exp : Q -> Q) (sigma : Q) (gridRes : nat)
    (grid : list Q) (c : Q) :
  (forall x, 0 < exp x) -> 0 < sigma ->
  length grid = (gridRes * gridRes)%nat ->
  (forall v, In v grid -> v == c) ->
  forall v,
    In v (convolveV
            (convolveH grid gridRes gridRes (createGaussianKernel exp sigma))
            gridRes gridRes (createGaussianKernel exp sigma)) ->
    v == c.
Proof.
  intros Hexp Hs Hlen Hg v Hv.
  assert (W : within c c grid).
  { apply Forall_forall. intros u Hu. specialize (Hg u Hu). lra. }
  pose proof (smoothed_within exp sigma gridRes grid c c Hexp Hs Hlen W) as S.
  unfold within in S. rewrite Forall_forall in S. specialize (S v Hv). lra.
Qed.

Lemma smoothing_keeps_uniform_grid_witness :
  let exp := fun x : Q => 1 / (1 + x * x) in
  let smoothed :=
    convolveV (convolveH [3; 3; 3; 3] 2 2 (createGaussianKernel exp (1 # 3)))
              2 2 (createGaussianKernel exp (1 # 3)) in
  nth 0 smoothed 0 == 3.
Proof.
  intros exp smoothed.
  assert (Hexp : forall x : Q, 0 < exp x).
  { intro x. unfold exp, Qdiv. rewrite Qmult_1_l. apply Qinv_lt_0_compat. nra. }
  apply (smoothing_keeps_uniform_grid exp (1 # 3) 2 [3; 3; 3; 3] 3 Hexp).
  - reflexivity.
  - reflexivity.
  - intros v Hv. simpl in Hv.
    destruct Hv as [<-|[<-|[<-|[<-|[]]]]]; reflexivity.
  - vm_compute. left. reflexivity.
Defined.

(** ** The order of the two passes *)

Section Commute.

Variables (data : list Q) (width height : nat) (kernel : list Q).
Hypothesis data_length : length data = (width * height)%nat.

Local Abbreviation tapAt := (fun (p : nat) (t : nat) (n : nat) =>
  clampNat p (Z.of_nat t - Z.of_nat (length kernel / 2)) n).

(** A cell after both passes, in either order, as a double sum. *)
Lemma vertical_after_horizontal (y x : nat) :
  (y < height)%nat -> (x < width)%nat ->
  nth (y * width + x)
      (convolveV (convolveH data width height kernel) width height kernel) 0
  == bigsum (fun s =>
       bigsum (fun t =>
         nth (tapAt y s height * width + tapAt x t width) data 0
         * nth t kernel 0 * nth s kernel 0) (length kernel)) (length kernel).
Proof.
  intros Hy Hx.
  rewrite convolveV_cell by (rewrite ?convolveH_length; assumption).
  rewrite tapsV_bigsum. apply bigsum_ext. intros s _.
  rewrite convolveH_cell; try assumption; [|apply clampNat_bound; lia].
  rewrite tapsH_bigsum, <- bigsum_scale. reflexivity.
Qed.

Lemma horizontal_after_vertical (y x : nat) :
  (y < height)%nat -> (x < width)%nat ->
  nth (y * width + x)
      (convolveH (convolveV data width height kernel) width height kernel) 0
  == bigsum (fun t =>
       bigsum (fun s =>
         nth (tapAt y s height * width + tapAt x t width) data 0
         * nth s kernel 0 * nth t kernel 0) (length kernel)) (length kernel).
Proof.
  intros Hy Hx.
  rewrite convolveH_cell by (rewrite ?convolveV_length; assumption).
  rewrite tapsH_bigsum. apply bigsum_ext. intros t _.
  rewrite convolveV_cell; try assumption; [|apply clampNat_bound; lia].
  rewrite tapsV_bigsum, <- bigsum_scale. reflexivity.
Qed.

End Commute.

(** X11.  The two passes commute: on a grid of [width * height] cells, the
    vertical pass after the horizontal one and the horizontal pass after
    the vertical one give the same value in every cell. *)
Theorem passes_commute (data : list Q) (width height : nat) (kernel : list Q)
    (y x : nat) :
  length data = (width * height)%nat -> (y < height)%nat -> (x < width)%nat ->
  nth (y * width + x)
      (convolveV (convolveH data width height kernel) width height kernel) 0
  == nth (y * width + x)
         (convolveH (convolveV data width height kernel) width height kernel) 0.
Proof.
  intros Hlen Hy Hx.
  rewrite vertical_after_horizontal, horizontal_after_vertical by assumption.
  rewrite bigsum_swap. apply bigsum_ext. intros t _.
  apply bigsum_ext. intros s _. ring.
Qed.

Lemma passes_commute_witness :
  nth (1 * 2 + 0)
      (convolveV (convolveH [0; 4; 1; 3] 2 2 [1 # 4; 1 # 2; 1 # 4]) 2 2
                 [1 # 4; 1 # 2; 1 # 4]) 0
  == nth (1 * 2 + 0)
         (convolveH (convolveV [0; 4; 1; 3] 2 2 [1 # 4; 1 # 2; 1 # 4]) 2 2
                    [1 # 4; 1 # 2; 1 # 4]) 0.
Proof.
  apply (passes_commute [0; 4; 1; 3] 2 2 [1 # 4; 1 # 2; 1 # 4] 1 0).
  - reflexivity.
  - lia.
  - lia.
Defined.

(** ** The percentile *)

Lemma filter_length_le {A : Type} (f : A -> bool) (l : list A) :
  (length (filter f l) <= length l)%nat.
Proof.
  induction l as [|x l IH]; simpl; [lia|]. destruct (f x); simpl; lia.
Qed.

Lemma filter_filter_length {A : Type} (f g : A -> bool) (l : list A) :
  (forall x, f x = true -> g x = true) ->
  length (filter f (filter g l)) = length (filter f l).
Proof.
  intro H. induction l as [|x l IH]; simpl; [reflexivity|].
  destruct (g x) eqn:G; simpl.
  - destruct (f x); simpl; congruence.
  - destruct (f x) eqn:F; [|exact IH].
    apply H in F. congruence.
Qed.

(** In an ascending list, the entries above the entry of index [p] come
    after it. *)
Lemma countAbove_sorted (l : list Q) (p : nat) :
  StronglySorted Qle l -> (p < length l)%nat ->
  (countAbove (nth p l 0%Q) l <= length l - 1 - p)%nat.
Proof.
  intro S. revert p. induction S as [|h t St IH Hh]; intros p Hp; simpl in Hp.
  - lia.
  - unfold countAbove in *. destruct p as [|p]; simpl.
    + rewrite (proj2 (Qltb_false h h)) by lra.
      pose proof (filter_length_le (fun v => Num.Qltb h v) t). lia.
    + assert (Hle : h <= nth p t 0).
      { rewrite Forall_forall in Hh. apply Hh, nth_In. lia. }
      rewrite (proj2 (Qltb_false _ _) Hle).
      specialize (IH p). lia.
Qed.

Lemma pIndex_tail (n : nat) :
  (1 <= n)%nat -> (200 * (n - 1 - pIndex n) < n - 1 + 200)%nat.
Proof.
  intro Hn. unfold pIndex.
  set (m := (Z.of_nat n - 1)%Z).
  set (f := Qfloor (inject_Z m * (995 # 1000))).
  assert (Hm : (0 <= m)%Z) by (unfold m; lia).
  assert (L : (0 <= f)%Z).
  { apply Qfloor_ge_Z. change (inject_Z 0) with 0.
    apply Qmult_le_0_compat; [|lra].
    change 0 with (inject_Z 0). rewrite <- Zle_Qle. exact Hm. }
  assert (U : inject_Z m * (995 # 1000) < inject_Z (f + 1)) by apply Qlt_floor.
  unfold Qlt in U. simpl in U.
  unfold m in *. lia.
Qed.

(** X12.  Few cells exceed the maximum density: with [n >= 1] positive
    cells, the cells strictly above it number at most
    [n - 1 - floor((n - 1) * 0.995)], which is less than [(n - 1) / 200 + 1]. *)
Theorem few_cells_exceed_maxDensity (heat : list Q) :
  let n := length (validValues heat) in
  (1 <= n)%nat ->
  (countAbove (maxDensity heat) heat <= n - 1 - pIndex n)%nat /\
  (200 * (n - 1 - pIndex n) < n - 1 + 200)%nat.
Proof.
  intros n Hn. split; [|apply pIndex_tail; exact Hn].
  assert (E : maxDensity heat = nth (pIndex n) (sortNum (validValues heat)) 0).
  { unfold maxDensity. fold n. rewrite (proj2 (Nat.ltb_lt 0 n)) by lia. reflexivity. }
  pose proof (maxDensity_nonneg heat) as Hm.
  unfold countAbove.
  rewrite <- (filter_filter_length _ (fun v => Num.Qltb 0 v)).
  - fold (validValues heat).
    rewrite <- (filter_length_perm _ _ _ (sortNum_perm (validValues heat))).
    rewrite E.
    pose proof (Permutation_length (sortNum_perm (validValues heat))) as Hl.
    fold n in Hl.
    assert (S : StronglySorted Qle (sortNum (validValues heat)))
      by (apply Sorted_StronglySorted; [exact Qle_transitive | apply sortNum_sorted]).
    pose proof (countAbove_sorted _ (pIndex n) S) as C.
    unfold countAbove in C. rewrite Hl in C.
    apply C. apply pIndex_bound. lia.
  - intros v Hv. apply Qltb_true in Hv. apply Qltb_true. lra.
Qed.

Lemma few_cells_exceed_maxDensity_witness :
  let heat : list Q := [0; 3; 1; 2; 0; 5] in
  (countAbove (maxDensity heat) heat <= 4 - 1 - pIndex 4)%nat.
Proof.
  intro heat.
  assert (H : (1 <= length (validValues heat))%nat) by (simpl; lia).
  exact (proj1 (few_cells_exceed_maxDensity heat H)).
Defined.

Lemma pIndex_small (n : nat) :
  (2 <= n)%nat -> (n <= 201)%nat -> pIndex n = (n - 2)%nat.
Proof.
  intros L U. unfold pIndex.
  set (m := (Z.of_nat n - 1)%Z).
  assert (Lm : (1 <= m)%Z) by (unfold m; lia).
  assert (Um : (m <= 200)%Z) by (unfold m; lia).
  assert (Q1 : 1 <= inject_Z m)
    by (change 1 with (inject_Z 1); rewrite <- Zle_Qle; exact Lm).
  assert (Q2 : inject_Z m <= 200)
    by (change 200 with (inject_Z 200); rewrite <- Zle_Qle; exact Um).
  assert (E : inject_Z (m - 1) == inject_Z m - 1).
  { unfold Z.sub. rewrite inject_Z_plus. reflexivity. }
  assert (A : (m - 1 <= Qfloor (inject_Z m * (995 # 1000)))%Z)
    by (apply Qfloor_ge_Z; rewrite E; lra).
  assert (B : (Qfloor (inject_Z m * (995 # 1000)) < m)%Z)
    by (apply Qfloor_lt_Z; lra).
  unfold m in *. lia.
Qed.

(** X13.  With 2 to 201 positive cells the maximum density is the second
    largest of them, so at most one cell lies strictly above it. *)
Theorem maxDensity_of_few_cells (heat : list Q) :
  let n := length (validValues heat) in
  (2 <= n)%nat -> (n <= 201)%nat ->
  maxDensity heat = nth (n - 2) (sortNum (validValues heat)) 0 /\
  (countAbove (maxDensity heat) heat <= 1)%nat.
Proof.
  intros n L U.
  assert (E : maxDensity heat = nth (pIndex n) (sortNum (validValues heat)) 0).
  { unfold maxDensity. fold n. rewrite (proj2 (Nat.ltb_lt 0 n)) by lia. reflexivity. }
  rewrite (pIndex_small n L U) in E. split; [exact E|].
  pose proof (maxDensity_nonneg heat) as Hm.
  unfold countAbove.
  rewrite <- (filter_filter_length _ (fun v => Num.Qltb 0 v)).
  - fold (validValues heat).
    rewrite <- (filter_length_perm _ _ _ (sortNum_perm (validValues heat))).
    rewrite E.
    pose proof (Permutation_length (sortNum_perm (validValues heat))) as Hl.
    fold n in Hl.
    assert (S : StronglySorted Qle (sortNum (validValues heat)))
      by (apply Sorted_StronglySorted; [exact Qle_transitive | apply sortNum_sorted]).
    pose proof (countAbove_sorted _ (n - 2) S) as C.
    unfold countAbove in C. rewrite Hl in C. specialize (C ltac:(lia)). lia.
  - intros v Hv. apply Qltb_true in Hv. apply Qltb_true. lra.
Qed.

Lemma maxDensity_of_few_cells_witness :
  let heat : list Q := [0; 3; 1; 2; 0; 5] in
  maxDensity heat = nth (4 - 2) (sortNum (validValues heat)) 0.
Proof.
  intro heat.
  assert (L : (2 <= length (validValues heat))%nat) by (simpl; lia).
  assert (U : (length (validValues heat) <= 201)%nat) by (simpl; lia).
  exact (proj1 (maxDensity_of_few_cells heat L U)).
Defined.

(** ** The flip of the rows *)

Lemma targetCell_of_row_col (gridRes row col : nat) :
  (row < gridRes)%nat -> (col < gridRes)%nat ->
  targetCell gridRes ((gridRes - 1 - row) * gridRes + col) = (row * gridRes + col)%nat.
Proof.
  intros Hr Hc. unfold targetCell.
  assert (Hg : gridRes <> 0%nat) by lia.
  rewrite (Nat.add_comm _ col).
  rewrite Nat.div_add by exact Hg. rewrite Nat.Div0.mod_add.
  rewrite Nat.div_small by exact Hc. rewrite Nat.mod_small by exact Hc.
  simpl. replace (gridRes - 1 - (gridRes - 1 - row))%nat with row by lia.
  reflexivity.
Qed.

Lemma flipped_cell_bound (gridRes row col : nat) :
  (row < gridRes)%nat -> (col < gridRes)%nat ->
  ((gridRes - 1 - row) * gridRes + col < gridRes * gridRes)%nat.
Proof. intros Hr Hc. nia. Qed.

(** X15.  The image is the grid upside down: the pixel of image row [row]
    and column [col] holds the four bytes emitted for the cell of grid row
    [gridRes - 1 - row] and the same column. *)
Theorem image_rows_are_flipped (gridRes : nat) (rgb : Rgb) (cutOff maxH : Q)
    (heat : list Q) (row col k : nat) :
  length heat = (gridRes * gridRes)%nat ->
  (row < gridRes)%nat -> (col < gridRes)%nat -> (k < 4)%nat ->
  nth ((row * gridRes + col) * 4 + k) (renderPixels gridRes rgb cutOff maxH heat) 0%Z
  = nth k (emitted rgb cutOff maxH
             (nth ((gridRes - 1 - row) * gridRes + col) heat 0)) 0%Z.
Proof.
  intros Hlen Hr Hc Hk.
  rewrite <- (targetCell_of_row_col gridRes row col Hr Hc).
  rewrite <- targetIdx_cell.
  apply render_lookup; [exact Hlen | apply flipped_cell_bound; assumption | exact Hk].
Qed.

Lemma image_rows_are_flipped_witness :
  nth ((0 * 2 + 1) * 4 + 3)
      (renderPixels 2 (hexToRgb "#0057A4") (3 # 10) 1 [0; 1 # 2; 2; 1]) 0%Z
  = nth 3 (emitted (hexToRgb "#0057A4") (3 # 10) 1
             (nth ((2 - 1 - 0) * 2 + 1) [0; 1 # 2; 2; 1] 0)) 0%Z.
Proof.
  apply (image_rows_are_flipped 2 (hexToRgb "#0057A4") (3 # 10) 1 [0; 1 # 2; 2; 1] 0 1 3);
    [reflexivity | lia | lia | lia].
Defined.

(** ** The alpha byte *)

Lemma normOf_cases (val cutOff maxH : Q) :
  cutOff <= val ->
  normOf val cutOff maxH = NaN \/
  exists n, normOf val cutOff maxH = Fin n /\ 0 <= n <= 1.
Proof.
  intro Hv.
  destruct (Qeq_dec (maxH - cutOff) 0) as [E|E].
  - destruct (Qeq_dec (val - cutOff) 0) as [E'|E'].
    + left. apply normOf_zero_width_at; assumption.
    + right. exists 1. split; [|lra].
      apply normOf_zero_width_above; [exact E|].
      apply Qnot_le_lt. intro L. apply E'. lra.
  - right. exists (clamp01 ((val - cutOff) / (maxH - cutOff))).
    split; [apply normOf_finite; exact E | apply clamp01_range].
Qed.

Lemma alpha_byte_range (n : Q) :
  0 <= n <= 1 ->
  (77 <= Num.toUint8Clamp (Num.floor (alphaOf (Fin n))) <= 255)%Z.
Proof.
  intro Hn. unfold alphaOf. simpl Num.sub. simpl Num.mul. simpl Num.add.
  rewrite floor_byte by lra.
  assert (L : (Qfloor 77 <= Qfloor (77 + (255 - 77) * n))%Z)
    by (apply Qfloor_resp_le; lra).
  assert (U : (Qfloor (77 + (255 - 77) * n) <= Qfloor 255)%Z)
    by (apply Qfloor_resp_le; lra).
  change (Qfloor 77) with 77%Z in L. change (Qfloor 255) with 255%Z in U.
  lia.
Qed.

Lemma emitted_alpha (rgb : Rgb) (cutOff maxH val : Q) :
  let a := nth 3 (emitted rgb cutOff maxH val) 0%Z in
  (a = 0%Z \/ (77 <= a <= 255)%Z) /\
  (val < cutOff -> a = 0%Z) /\
  (cutOff < maxH -> cutOff <= val -> (77 <= a <= 255)%Z).
Proof.
  unfold emitted.
  change (Num.ltb (Fin val) (Fin cutOff)) with (Num.Qltb val cutOff).
  destruct (Num.Qltb val cutOff) eqn:E.
  - apply Qltb_true in E. simpl. split; [left; reflexivity|].
    split; [reflexivity | intros; exfalso; lra].
  - apply Qltb_false in E. cbv zeta. simpl nth.
    split; [|split].
    + destruct (normOf_cases val cutOff maxH E) as [N | [n [N Hn]]]; rewrite N.
      * left. reflexivity.
      * right. apply alpha_byte_range, Hn.
    + intro L. exfalso; lra.
    + intros Hc _. rewrite normOf_finite by lra.
      apply alpha_byte_range, clamp01_range.
Qed.

(** X16.  The alpha byte of a pixel is 0 or at least 77: no pixel is
    fainter than 30% unless it is fully transparent.  When the cut-off is
    below the maximum density, the pixel is transparent exactly when its
    cell is below the cut-off. *)
Theorem alpha_is_zero_or_at_least_77 (gridRes : nat) (rgb : Rgb)
    (cutOff maxH : Q) (heat : list Q) (i : nat) :
  length heat = (gridRes * gridRes)%nat ->
  (i < gridRes * gridRes)%nat ->
  let a := nth (targetIdx gridRes i + 3)
               (renderPixels gridRes rgb cutOff maxH heat) 0%Z in
  (a = 0%Z \/ (77 <= a <= 255)%Z) /\
  (cutOff < maxH -> (a = 0%Z <-> nth i heat 0 < cutOff)).
Proof.
  intros Hlen Hi a. unfold a.
  rewrite (render_lookup gridRes rgb cutOff maxH heat i 3 Hlen Hi) by lia.
  destruct (emitted_alpha rgb cutOff maxH (nth i heat 0)) as [A [B C]].
  split; [exact A|].
  intro Hc. split.
  - intro E. apply Qnot_le_lt. intro L. specialize (C Hc L). lia.
  - exact B.
Qed.

Lemma alpha_is_zero_or_at_least_77_witness :
  let a := nth (targetIdx 2 1 + 3)
               (renderPixels 2 (hexToRgb "#0057A4") (3 # 10) 1 [0; 1 # 2; 2; 1]) 0%Z in
  a = 0%Z \/ (77 <= a <= 255)%Z.
Proof.
  assert (Hi : (1 < 2 * 2)%nat) by (simpl; lia).
  exact (proj1 (alpha_is_zero_or_at_least_77 2 (hexToRgb "#0057A4") (3 # 10) 1
                  [0; 1 # 2; 2; 1] 1 eq_refl Hi)).
Defined.

(** ** The colour channels *)

Lemma channel_range (base : Z) (n : Q) :
  (0 <= base <= 255)%Z -> 0 <= n <= 1 ->
  (base <= Num.toUint8Clamp (Num.floor (channelOf base (glowOf (Fin n))))
        <= Qfloor (inject_Z base + (255 - inject_Z base) * (6 # 10)))%Z.
Proof.
  intros Hb Hn. apply inject_Z_byte in Hb.
  unfold channelOf, glowOf. simpl Num.mul. simpl Num.sub. simpl Num.add.
  assert (P : 0 <= (255 - inject_Z base) * (n * (6 # 10))) by nra.
  assert (U : (255 - inject_Z base) * (n * (6 # 10))
              <= (255 - inject_Z base) * (6 # 10)) by nra.
  rewrite floor_byte by lra. split.
  - apply Qfloor_ge_Z. lra.
  - apply Qfloor_resp_le. lra.
Qed.

Lemma mix_byte (base : Z) :
  (0 <= base <= 255)%Z ->
  (base <= Qfloor (inject_Z base + (255 - inject_Z base) * (6 # 10)) <= 255)%Z.
Proof.
  intro Hb. apply inject_Z_byte in Hb. split.
  - apply Qfloor_ge_Z. lra.
  - assert (U : (Qfloor (inject_Z base + (255 - inject_Z base) * (6 # 10))
                 <= Qfloor 255)%Z) by (apply Qfloor_resp_le; lra).
    exact U.
Qed.

(** X17.  With the cut-off below the maximum density, each colour byte of
    a pixel at or above the cut-off lies between the operator's base
    colour and that colour mixed with white at 60%: the glow only
    lightens the colour, and never by more than 60%. *)
Theorem colour_between_base_and_glow (gridRes : nat) (color : string)
    (cutOff maxH : Q) (heat : list Q) (i : nat) :
  cutOff < maxH ->
  length heat = (gridRes * gridRes)%nat ->
  (i < gridRes * gridRes)%nat ->
  cutOff <= nth i heat 0 ->
  let rgb := hexToRgb color in
  let image := renderPixels gridRes rgb cutOff maxH heat in
  let t := targetIdx gridRes i in
  let mix := fun base : Z => Qfloor (inject_Z base + (255 - inject_Z base) * (6 # 10)) in
  (r rgb <= nth t image 0 <= mix (r rgb))%Z /\
  (g rgb <= nth (t + 1) image 0 <= mix (g rgb))%Z /\
  (b rgb <= nth (t + 2) image 0 <= mix (b rgb))%Z /\
  (mix (r rgb) <= 255 /\ mix (g rgb) <= 255 /\ mix (b rgb) <= 255)%Z.
Proof.
  intros Hc Hlen Hi Hv rgb image t mix.
  assert (L : forall k, (k < 4)%nat ->
                nth (t + k) image 0%Z
                = nth k (emitted rgb cutOff maxH (nth i heat 0)) 0%Z)
    by (intros k Hk; apply render_lookup; assumption).
  assert (E : emitted rgb cutOff maxH (nth i heat 0)
              = let norm := normOf (nth i heat 0) cutOff maxH in
                let glow := glowOf norm in
                [Num.toUint8Clamp (Num.floor (channelOf (r rgb) glow));
                 Num.toUint8Clamp (Num.floor (channelOf (g rgb) glow));
                 Num.toUint8Clamp (Num.floor (channelOf (b rgb) glow));
                 Num.toUint8Clamp (Num.floor (alphaOf norm))]).
  { unfold emitted.
    change (Num.ltb (Fin (nth i heat 0)) (Fin cutOff))
      with (Num.Qltb (nth i heat 0) cutOff).
    rewrite (proj2 (Qltb_false _ _)) by lra. reflexivity. }
  cbv zeta in E. rewrite normOf_finite in E by lra.
  pose proof (clamp01_range ((nth i heat 0 - cutOff) / (maxH - cutOff))) as Hn.
  destruct (hexToRgb_range color) as [Hr [Hg Hb]]. fold rgb in Hr, Hg, Hb.
  split; [|split; [|split]].
  - replace t with (t + 0)%nat by lia. rewrite (L 0%nat) by lia. rewrite E.
    apply channel_range; assumption.
  - rewrite (L 1%nat) by lia. rewrite E. apply channel_range; assumption.
  - rewrite (L 2%nat) by lia. rewrite E. apply channel_range; assumption.
  - unfold mix. split; [|split]; apply mix_byte; assumption.
Qed.

Lemma colour_between_base_and_glow_witness :
  let rgb := hexToRgb "#0057A4" in
  let image := renderPixels 2 rgb (3 # 10) 1 [0; 1 # 2; 2; 1] in
  (r rgb <= nth (targetIdx 2 1) image 0)%Z.
Proof.
  assert (Hc : 3 # 10 < 1) by lra.
  assert (Hi : (1 < 2 * 2)%nat) by (simpl; lia).
  assert (Hv : 3 # 10 <= nth 1 [0; 1 # 2; 2; 1] 0) by (simpl; lra).
  exact (proj1 (proj1 (colour_between_base_and_glow 2 "#0057A4" (3 # 10) 1
                         [0; 1 # 2; 2; 1] 1 Hc eq_refl Hi Hv))).
Defined.

(** ** Saturation *)

Lemma clamp01_above (x : Q) : 1 <= x -> clamp01 x == 1.
Proof. unfold clamp01. intro H. cmp_cases; lra. Qed.

Lemma normOf_saturated (val cutOff maxH : Q) :
  cutOff <= maxH -> maxH <= val -> cutOff < val ->
  exists n, normOf val cutOff maxH = Fin n /\ n == 1.
Proof.
  intros Hc Hm Hv.
  destruct (Qeq_dec (maxH - cutOff) 0) as [E|E].
  - exists 1. split; [|reflexivity].
    apply normOf_zero_width_above; assumption.
  - exists (clamp01 ((val - cutOff) / (maxH - cutOff))).
    split; [apply normOf_finite; exact E|].
    apply clamp01_above.
    rewrite <- (quotient_one (maxH - cutOff) E).
    apply quotient_mono; lra.
Qed.

Lemma alpha_at_full (n : Q) :
  n == 1 -> Num.toUint8Clamp (Num.floor (alphaOf (Fin n))) = 255%Z.
Proof.
  intro Hn. unfold alphaOf. simpl Num.sub. simpl Num.mul. simpl Num.add.
  rewrite floor_byte by (rewrite Hn; lra).
  transitivity (Qfloor 255); [|reflexivity].
  apply Qfloor_comp. rewrite Hn. ring.
Qed.

Lemma emitted_saturated (color : string) (cutOff maxH val : Q) :
  cutOff <= maxH -> maxH <= val -> cutOff < val ->
  let rgb := hexToRgb color in
  let mix := fun base : Z => Qfloor (inject_Z base + (255 - inject_Z base) * (6 # 10)) in
  emitted rgb cutOff maxH val = [mix (r rgb); mix (g rgb); mix (b rgb); 255%Z].
Proof.
  intros Hc Hm Hv rgb mix. unfold emitted.
  change (Num.ltb (Fin val) (Fin cutOff)) with (Num.Qltb val cutOff).
  rewrite (proj2 (Qltb_false _ _)) by lra.
  cbv zeta.
  destruct (normOf_saturated val cutOff maxH Hc Hm Hv) as [n [N Hn]].
  rewrite N.
  destruct (hexToRgb_range color) as [Hr [Hg Hb]].
  rewrite !(channel_at_full _ _) by (assumption || exact Hn).
  rewrite (alpha_at_full n Hn). reflexivity.
Qed.

(** X18.  The ramp saturates: with the cut-off not above the maximum
    density, every cell that is at least the maximum density and above
    the cut-off gets the same pixel, fully opaque and with each channel
    mixed with white at 60%, whatever its value. *)
Theorem pixels_saturate_above_maxDensity (gridRes : nat) (color : string)
    (cutOff maxH : Q) (heat : list Q) (i : nat) :
  cutOff <= maxH ->
  length heat = (gridRes * gridRes)%nat ->
  (i < gridRes * gridRes)%nat ->
  maxH <= nth i heat 0 -> cutOff < nth i heat 0 ->
  let rgb := hexToRgb color in
  let image := renderPixels gridRes rgb cutOff maxH heat in
  let t := targetIdx gridRes i in
  let mix := fun base : Z => Qfloor (inject_Z base + (255 - inject_Z base) * (6 # 10)) in
  nth t image 0%Z = mix (r rgb) /\
  nth (t + 1) image 0%Z = mix (g rgb) /\
  nth (t + 2) image 0%Z = mix (b rgb) /\
  nth (t + 3) image 0%Z = 255%Z.
Proof.
  intros Hc Hlen Hi Hm Hv rgb image t mix.
  assert (L : forall k, (k < 4)%nat ->
                nth (t + k) image 0%Z
                = nth k (emitted rgb cutOff maxH (nth i heat 0)) 0%Z)
    by (intros k Hk; apply render_lookup; assumption).
  pose proof (emitted_saturated color cutOff maxH (nth i heat 0) Hc Hm Hv) as E.
  cbv zeta in E. fold rgb in E.
  split; [|split; [|split]].
  - replace t with (t + 0)%nat by lia. rewrite (L 0%nat) by lia. rewrite E. reflexivity.
  - rewrite (L 1%nat) by lia. rewrite E. reflexivity.
  - rewrite (L 2%nat) by lia. rewrite E. reflexivity.
  - rewrite (L 3%nat) by lia. rewrite E. reflexivity.
Qed.

Lemma pixels_saturate_above_maxDensity_witness :
  nth (targetIdx 2 2 + 3)
      (renderPixels 2 (hexToRgb "#0057A4") (3 # 10) 1 [0; 1 # 2; 2; 1]) 0%Z
  = 255%Z.
Proof.
  assert (Hc : 3 # 10 <= 1) by lra.
  assert (Hi : (2 < 2 * 2)%nat) by (simpl; lia).
  assert (Hm : 1 <= nth 2 [0; 1 # 2; 2; 1] 0) by (simpl; lra).
  assert (Hv : 3 # 10 < nth 2 [0; 1 # 2; 2; 1] 0) by (simpl; lra).
  exact (proj2 (proj2 (proj2
           (pixels_saturate_above_maxDensity 2 "#0057A4" (3 # 10) 1
              [0; 1 # 2; 2; 1] 2 Hc eq_refl Hi Hm Hv)))).
Defined.

(** ** The colour parser on a colour code *)

Lemma body_complete (c1 c2 c3 c4 c5 c6 : ascii) :
  Hex.isHexDigit c1 = true -> Hex.isHexDigit c2 = true ->
  Hex.isHexDigit c3 = true -> Hex.isHexDigit c4 = true ->
  Hex.isHexDigit c5 = true -> Hex.isHexDigit c6 = true ->
  Hex.body (String c1 (String c2 (String c3 (String c4 (String c5 (String c6 EmptyString))))))
  = Some (String c1 (String c2 EmptyString),
          String c3 (String c4 EmptyString),
          String c5 (String c6 EmptyString)).
Proof.
  intros H1 H2 H3 H4 H5 H6. unfold Hex.body, Hex.hexPair, Hex.atEnd.
  rewrite H1, H2, H3, H4, H5, H6. reflexivity.
Qed.

Lemma exec_complete (hex : string) :
  isColorCode hex ->
  exists c1 c2 c3 c4 c5 c6 : ascii,
    stripHash hex
    = String c1 (String c2 (String c3 (String c4 (String c5 (String c6 EmptyString))))) /\
    Hex.exec hex = Some (String c1 (String c2 EmptyString),
                         String c3 (String c4 EmptyString),
                         String c5 (String c6 EmptyString)) /\
    Forall (fun c => Hex.isHexDigit c = true) [c1; c2; c3; c4; c5; c6].
Proof.
  intros [Hlen Hdig].
  destruct (stripHash hex) as [|c1 [|c2 [|c3 [|c4 [|c5 [|c6 [|c7 s]]]]]]] eqn:E;
    simpl in Hlen; try discriminate.
  exists c1, c2, c3, c4, c5, c6. simpl in Hdig.
  split; [reflexivity|]. split; [|exact Hdig].
  inversion Hdig as [|? ? H1 Hd1]; subst.
  inversion Hd1 as [|? ? H2 Hd2]; subst.
  inversion Hd2 as [|? ? H3 Hd3]; subst.
  inversion Hd3 as [|? ? H4 Hd4]; subst.
  inversion Hd4 as [|? ? H5 Hd5]; subst.
  inversion Hd5 as [|? ? H6 Hd6]; subst.
  pose proof (body_complete c1 c2 c3 c4 c5 c6 H1 H2 H3 H4 H5 H6) as B.
  unfold Hex.exec, Hex.optChar. unfold stripHash in E.
  destruct hex as [|c rest]; [discriminate|].
  destruct (Ascii.eqb "#" c) eqn:Ec.
  - rewrite E, B. reflexivity.
  - rewrite E. exact B.
Qed.

(** X19.  The colour parser gives three bytes for every string.  On a
    colour code, six hexadecimal digits with or without a leading [#],
    each channel is sixteen times the value of its first digit plus the
    value of its second, in the order red, green, blue. *)
Theorem hexToRgb_reads_a_colour_code :
  (forall hex : string,
      (0 <= r (hexToRgb hex) <= 255)%Z /\
      (0 <= g (hexToRgb hex) <= 255)%Z /\
      (0 <= b (hexToRgb hex) <= 255)%Z) /\
  (forall hex : string,
      isColorCode hex ->
      exists c1 c2 c3 c4 c5 c6 : ascii,
        stripHash hex
        = String c1 (String c2 (String c3 (String c4 (String c5 (String c6 EmptyString))))) /\
        hexToRgb hex
        = {| r := 16 * Hex.digitVal c1 + Hex.digitVal c2;
             g := 16 * Hex.digitVal c3 + Hex.digitVal c4;
             b := 16 * Hex.digitVal c5 + Hex.digitVal c6 |}).
Proof.
  split; [exact hexToRgb_range|].
  intros hex H.
  destruct (exec_complete hex H) as [c1 [c2 [c3 [c4 [c5 [c6 [E [X _]]]]]]]].
  exists c1, c2, c3, c4, c5, c6. split; [exact E|].
  unfold hexToRgb. rewrite X. unfold Hex.parseInt16.
  cbn [list_ascii_of_string fold_left]. f_equal; lia.
Qed.

Lemma hexToRgb_reads_a_colour_code_witness :
  exists c1 c2 c3 c4 c5 c6 : ascii,
    stripHash "#00a65A"
    = String c1 (String c2 (String c3 (String c4 (String c5 (String c6 EmptyString))))) /\
    hexToRgb "#00a65A"
    = {| r := 16 * Hex.digitVal c1 + Hex.digitVal c2;
         g := 16 * Hex.digitVal c3 + Hex.digitVal c4;
         b := 16 * Hex.digitVal c5 + Hex.digitVal c6 |}.
Proof.
  apply (proj2 hexToRgb_reads_a_colour_code "#00a65A"%string).
  unfold isColorCode. simpl. split; [reflexivity | repeat constructor].
Defined.

(** ** The archive of any list of layers *)

Module KmzArchive.

Import Kmz.

Lemma append_nil_r (s : string) : (s ++ "")%string = s.
Proof. induction s as [|c s IH]; simpl; [reflexivity | rewrite IH; reflexivity]. Qed.

Lemma length_append (a b : string) :
  String.length (a ++ b) = (String.length a + String.length b)%nat.
Proof. induction a as [|c a IH]; simpl; [reflexivity | rewrite IH; reflexivity]. Qed.

Lemma append_cancel_r (a b c : string) :
  (a ++ c)%string = (b ++ c)%string -> a = b.
Proof.
  revert b; induction a as [|x a IH]; intros [|y b] H; simpl in H.
  - reflexivity.
  - exfalso. apply (f_equal String.length) in H. simpl in H.
    rewrite length_append in H. lia.
  - exfalso. apply (f_equal String.length) in H. simpl in H.
    rewrite length_append in H. lia.
  - injection H as -> H. f_equal. apply IH, H.
Qed.

(** *** Paths *)

Lemma endsWithSlash_cons (c : ascii) (s : string) :
  s <> EmptyString -> endsWithSlash (String c s) = endsWithSlash s.
Proof. destruct s; [congruence | reflexivity]. Qed.

Lemma append_not_empty (a : string) (c : ascii) (b : string) :
  (a ++ String c b)%string <> EmptyString.
Proof. destruct a; simpl; discriminate. Qed.

Lemma endsWithSlash_append (a : string) (c : ascii) (b : string) :
  endsWithSlash (a ++ String c b) = endsWithSlash (String c b).
Proof.
  induction a as [|x a IH]; [reflexivity|].
  change (String x a ++ String c b)%string with (String x (a ++ String c b)).
  rewrite endsWithSlash_cons by apply append_not_empty. exact IH.
Qed.

Lemma forceTrailingSlash_ends (path : string) :
  endsWithSlash (forceTrailingSlash path) = true.
Proof.
  unfold forceTrailingSlash. destruct (endsWithSlash path) eqn:E; [exact E|].
  apply endsWithSlash_append.
Qed.

Lemma fileName_not_folder (label : string) : endsWithSlash (fileName label) = false.
Proof. unfold fileName. apply endsWithSlash_append. Qed.

Lemma dropLast_cons (c : ascii) (s : string) :
  s <> EmptyString -> dropLast (String c s) = String c (dropLast s).
Proof. destruct s; [congruence | reflexivity]. Qed.

Lemma dropLast_append (path : string) (c : ascii) :
  dropLast (path ++ String c EmptyString) = path.
Proof.
  induction path as [|x path IH]; [reflexivity|].
  change (String x path ++ String c EmptyString)%string
    with (String x (path ++ String c EmptyString)).
  rewrite dropLast_cons by apply append_not_empty. rewrite IH. reflexivity.
Qed.

Lemma dropLast_length (path : string) :
  String.length (dropLast path) = (String.length path - 1)%nat.
Proof.
  induction path as [|x path IH]; [reflexivity|].
  destruct path as [|y path]; [reflexivity|].
  rewrite dropLast_cons by discriminate.
  simpl String.length in *. rewrite IH. lia.
Qed.

Lemma lastSlash_bound (path : string) (i : nat) :
  lastSlash path = Some i -> (i < String.length path)%nat.
Proof.
  revert i; induction path as [|c path IH]; intro i; simpl; [discriminate|].
  destruct (lastSlash path) as [j|].
  - intro H. injection H as <-. specialize (IH j eq_refl). lia.
  - destruct (Ascii.eqb c "/"); [|discriminate].
    intro H. injection H as <-. lia.
Qed.

Lemma substring_length (n : nat) (s : string) :
  (n <= String.length s)%nat -> String.length (String.substring 0 n s) = n.
Proof.
  revert s; induction n as [|n IH]; intros s H.
  - destruct s; reflexivity.
  - destruct s as [|c s]; simpl in H; [lia|].
    simpl. rewrite IH by lia. reflexivity.
Qed.

(** The parent of a folder has a shorter name than the folder had before
    its slash was added. *)
Lemma parentFolder_shorter (path : string) :
  (String.length (parentFolder (forceTrailingSlash path)) < String.length path
   \/ parentFolder (forceTrailingSlash path) = EmptyString)%nat.
Proof.
  unfold parentFolder. rewrite forceTrailingSlash_ends.
  unfold forceTrailingSlash.
  destruct (endsWithSlash path) eqn:E.
  - destruct (lastSlash (dropLast path)) as [[|i]|] eqn:L; [now right | | now right].
    left. apply lastSlash_bound in L. rewrite dropLast_length in L.
    rewrite substring_length by (rewrite dropLast_length; lia). lia.
  - rewrite dropLast_append.
    destruct (lastSlash path) as [[|i]|] eqn:L; [now right | | now right].
    left. apply lastSlash_bound in L.
    rewrite substring_length by lia. lia.
Qed.

Section Assembler.

Variable Blob : Type.
Variable numToString : num -> string.

Local Abbreviation Layer := (Layer Blob).
Local Abbreviation Zip := (Zip Blob).
Local Abbreviation storeImage :=
  (fun (zip : Zip) (layer : Layer) =>
     zipFile Blob zip (imageName Blob layer) (ZBlob Blob (blob Blob layer))).

Lemma folderAdd_step (fuel : nat) (zip : Zip) (path : string) :
  folderAdd Blob (S fuel) zip path
  = if zipHas Blob zip (forceTrailingSlash path) then zip
    else zipSet Blob
           match parentFolder (forceTrailingSlash path) with
           | EmptyString => zip
           | String c parent => folderAdd Blob fuel zip (String c parent)
           end
           (forceTrailingSlash path) (ZDir Blob).
Proof.
  cbn [folderAdd]. cbv zeta.
  destruct (zipHas Blob zip (forceTrailingSlash path)); [reflexivity|].
  destruct (parentFolder (forceTrailingSlash path)); reflexivity.
Qed.

(** The length of the name is enough fuel: with it, one more unit changes
    nothing. *)
Lemma folderAdd_fuel (fuel : nat) (zip : Zip) (path : string) :
  (String.length path <= fuel)%nat ->
  folderAdd Blob (S fuel) zip path = folderAdd Blob fuel zip path.
Proof.
  revert zip path; induction fuel as [|fuel IH]; intros zip path H.
  - destruct path; [reflexivity | simpl in H; lia].
  - rewrite (folderAdd_step (S fuel)), (folderAdd_step fuel).
    destruct (zipHas Blob zip (forceTrailingSlash path)); [reflexivity|].
    destruct (parentFolder_shorter path) as [L|E].
    + destruct (parentFolder (forceTrailingSlash path)) as [|c parent] eqn:P;
        [reflexivity|].
      rewrite IH by lia. reflexivity.
    + rewrite E. reflexivity.
Qed.

(** The loop over the layers writes the manifest and the archive
    independently of each other. *)
Lemma addLayer_split (layers : list Layer) (kml : string) (zip : Zip) :
  fold_left (addLayer Blob numToString) layers (kml, zip)
  = ((kml ++ overlays Blob numToString layers)%string,
     fold_left storeImage layers zip).
Proof.
  revert kml zip; induction layers as [|layer layers IH]; intros kml zip.
  - simpl. rewrite append_nil_r. reflexivity.
  - simpl fold_left. rewrite IH. simpl overlays.
    rewrite KmzFacts.append_assoc. reflexivity.
Qed.

(** *** Setting an entry *)

Lemma zipHas_In (zip : Zip) (name : string) :
  zipHas Blob zip name = true <-> In name (entryNames Blob zip).
Proof.
  unfold zipHas. rewrite existsb_exists. unfold entryNames. rewrite in_map_iff.
  split; intros [[n d] [A B]]; exists (n, d); simpl in *.
  - apply String.eqb_eq in B. split; assumption.
  - split; [exact B | apply String.eqb_eq; exact A].
Qed.

Lemma zipHas_absent (zip : Zip) (name : string) :
  zipHas Blob zip name = false -> ~ In name (entryNames Blob zip).
Proof. intros H Hin. apply zipHas_In in Hin. congruence. Qed.

Lemma zipSet_known (zip : Zip) (name : string) (data : ZipData Blob) :
  In name (entryNames Blob zip) ->
  entryNames Blob (zipSet Blob zip name data) = entryNames Blob zip.
Proof.
  induction zip as [|[n d] zip IH]; simpl; intro H; [contradiction|].
  destruct (String.eqb n name) eqn:E; [reflexivity|].
  simpl. f_equal. apply IH. destruct H as [H|H]; [|exact H].
  apply String.eqb_neq in E. congruence.
Qed.

Lemma zipSet_names (zip : Zip) (name : string) (data : ZipData Blob) :
  (In name (entryNames Blob zip) /\
   entryNames Blob (zipSet Blob zip name data) = entryNames Blob zip) \/
  (~ In name (entryNames Blob zip) /\
   entryNames Blob (zipSet Blob zip name data) = (entryNames Blob zip ++ [name])%list).
Proof.
  destruct (in_dec string_dec name (entryNames Blob zip)) as [H|H].
  - left. split; [exact H | apply zipSet_known, H].
  - right. split; [exact H|]. rewrite KmzFacts.zipSet_fresh by exact H.
    unfold entryNames. rewrite map_app. reflexivity.
Qed.

Lemma zipSet_NoDup (zip : Zip) (name : string) (data : ZipData Blob) :
  NoDup (entryNames Blob zip) -> NoDup (entryNames Blob (zipSet Blob zip name data)).
Proof.
  intro H. destruct (zipSet_names zip name data) as [[_ E]|[Hn E]]; rewrite E.
  - exact H.
  - apply NoDup_app; [exact H | repeat constructor; simpl; tauto |].
    intros n Hin [<-|[]]. exact (Hn Hin).
Qed.

Lemma zipSet_Forall (P : string * ZipData Blob -> Prop) (zip : Zip)
    (name : string) (data : ZipData Blob) :
  Forall P zip -> P (name, data) -> Forall P (zipSet Blob zip name data).
Proof.
  intros H Hp. induction H as [|[n d] zip Hh Ht IH]; simpl.
  - repeat constructor. exact Hp.
  - destruct (String.eqb n name) eqn:E.
    + apply String.eqb_eq in E. subst n. constructor; assumption.
    + constructor; assumption.
Qed.

Lemma zipSet_app_r (a b : Zip) (name : string) (data : ZipData Blob) :
  ~ In name (entryNames Blob a) ->
  zipSet Blob (a ++ b) name data = (a ++ zipSet Blob b name data)%list.
Proof.
  induction a as [|[n d] a IH]; simpl; intro H; [reflexivity|].
  destruct (String.eqb n name) eqn:E.
  - apply String.eqb_eq in E. exfalso. apply H. now left.
  - rewrite IH; [reflexivity|]. intro Hin. apply H. now right.
Qed.

Lemma zipGet_zipSet (zip : Zip) (name : string) (data : ZipData Blob) (n : string) :
  zipGet (zipSet Blob zip name data) n
  = if String.eqb name n then Some data else zipGet zip n.
Proof.
  induction zip as [|[h d] zip IH]; simpl; [reflexivity|].
  destruct (String.eqb h name) eqn:E; simpl.
  - apply String.eqb_eq in E. subst h.
    destruct (String.eqb name n); reflexivity.
  - rewrite IH. destruct (String.eqb h n) eqn:E'; [|reflexivity].
    apply String.eqb_eq in E'. subst n.
    rewrite String.eqb_sym, E. reflexivity.
Qed.

Lemma zipGet_app (a b : Zip) (n : string) :
  zipGet (a ++ b) n
  = match zipGet a n with
    | Some d => Some d
    | None => zipGet b n
    end.
Proof.
  induction a as [|[h d] a IH]; simpl; [reflexivity|].
  destruct (String.eqb h n); [reflexivity | exact IH].
Qed.

Lemma zipGet_absent (zip : Zip) (n : string) :
  ~ In n (entryNames Blob zip) -> zipGet zip n = None.
Proof.
  induction zip as [|[h d] zip IH]; simpl; intro H; [reflexivity|].
  destruct (String.eqb h n) eqn:E.
  - apply String.eqb_eq in E. exfalso. apply H. now left.
  - apply IH. intro Hin. apply H. now right.
Qed.

Lemma zipGet_In (zip : Zip) (n : string) (d : ZipData Blob) :
  zipGet zip n = Some d -> In (n, d) zip.
Proof.
  induction zip as [|[h e] zip IH]; simpl; [discriminate|].
  destruct (String.eqb h n) eqn:E.
  - apply String.eqb_eq in E. intro H. injection H as <-. left. congruence.
  - intro H. right. apply IH, H.
Qed.

(** A name that is not that of a folder is not among folders. *)
Lemma zipGet_folders (dirs : Zip) (n : string) :
  Forall isFolder dirs -> endsWithSlash n = false -> zipGet dirs n = None.
Proof.
  intros H Hn. apply zipGet_absent. intro Hin.
  unfold entryNames in Hin. apply in_map_iff in Hin.
  destruct Hin as [[m d] [E Hm]]. simpl in E. subst m.
  rewrite Forall_forall in H. destruct (H _ Hm) as [_ Hs]. simpl in Hs. congruence.
Qed.

(** *** Folders *)

(** The folders of a path come after the entries there are, which stay as
    they are. *)
Lemma folderAdd_appends (fuel : nat) (zip : Zip) (path : string) :
  exists dirs : Zip,
    folderAdd Blob fuel zip path = (zip ++ dirs)%list /\ Forall isFolder dirs.
Proof.
  revert zip path; induction fuel as [|fuel IH]; intros zip path;
    cbn [folderAdd]; cbv zeta;
    destruct (zipHas Blob zip (forceTrailingSlash path)) eqn:Has;
    try (exists []; split; [rewrite app_nil_r; reflexivity | constructor]).
  - exists [(forceTrailingSlash path, ZDir Blob)]. split.
    + destruct (parentFolder (forceTrailingSlash path));
        apply KmzFacts.zipSet_fresh, zipHas_absent, Has.
    + repeat constructor. apply forceTrailingSlash_ends.
  - assert (F : isFolder (forceTrailingSlash path, ZDir Blob))
      by (split; [reflexivity | apply forceTrailingSlash_ends]).
    destruct (parentFolder (forceTrailingSlash path)) as [|c parent].
    + exists [(forceTrailingSlash path, ZDir Blob)]. split.
      * apply KmzFacts.zipSet_fresh, zipHas_absent, Has.
      * repeat constructor. apply forceTrailingSlash_ends.
    + destruct (IH zip (String c parent)) as [dirs [E Hd]]. rewrite E.
      exists (zipSet Blob dirs (forceTrailingSlash path) (ZDir Blob)). split.
      * apply zipSet_app_r, zipHas_absent, Has.
      * apply zipSet_Forall; assumption.
Qed.

Lemma folderAdd_NoDup (fuel : nat) (zip : Zip) (path : string) :
  NoDup (entryNames Blob zip) -> NoDup (entryNames Blob (folderAdd Blob fuel zip path)).
Proof.
  revert zip path; induction fuel as [|fuel IH]; intros zip path H;
    cbn [folderAdd]; cbv zeta;
    destruct (zipHas Blob zip (forceTrailingSlash path)); try exact H.
  - destruct (parentFolder (forceTrailingSlash path)); apply zipSet_NoDup, H.
  - destruct (parentFolder (forceTrailingSlash path)).
    + apply zipSet_NoDup, H.
    + apply zipSet_NoDup, IH, H.
Qed.

(** [zip.file] sets the entry after the folders it may declare. *)
Lemma zipFile_appends (zip : Zip) (name : string) (data : ZipData Blob) :
  exists dirs : Zip,
    zipFile Blob zip name data = zipSet Blob (zip ++ dirs) name data /\
    Forall isFolder dirs.
Proof.
  unfold zipFile. destruct (parentFolder name) as [|c parent].
  - exists []. rewrite app_nil_r. split; [reflexivity | constructor].
  - destruct (folderAdd_appends (String.length name) zip (String c parent))
      as [dirs [E Hd]].
    exists dirs. rewrite E. split; [reflexivity | exact Hd].
Qed.

Lemma zipFile_NoDup (zip : Zip) (name : string) (data : ZipData Blob) :
  NoDup (entryNames Blob zip) -> NoDup (entryNames Blob (zipFile Blob zip name data)).
Proof.
  intro H. unfold zipFile. destruct (parentFolder name).
  - apply zipSet_NoDup, H.
  - apply zipSet_NoDup, folderAdd_NoDup, H.
Qed.

Lemma zipFile_Forall (P : string * ZipData Blob -> Prop) (zip : Zip)
    (name : string) (data : ZipData Blob) :
  (forall entry, isFolder entry -> P entry) ->
  Forall P zip -> P (name, data) -> Forall P (zipFile Blob zip name data).
Proof.
  intros Hf Hz Hp. destruct (zipFile_appends zip name data) as [dirs [E Hd]].
  rewrite E. apply zipSet_Forall; [|exact Hp].
  apply Forall_app. split; [exact Hz|].
  rewrite Forall_forall in *. intros entry Hin. apply Hf, Hd, Hin.
Qed.

Lemma zipGet_zipFile_same (zip : Zip) (name : string) (data : ZipData Blob) :
  zipGet (zipFile Blob zip name data) name = Some data.
Proof.
  unfold zipFile. rewrite zipGet_zipSet, String.eqb_refl. reflexivity.
Qed.

Lemma zipGet_zipFile_other (zip : Zip) (name : string) (data : ZipData Blob)
    (n : string) :
  name <> n -> endsWithSlash n = false ->
  zipGet (zipFile Blob zip name data) n = zipGet zip n.
Proof.
  intros Hne Hn. destruct (zipFile_appends zip name data) as [dirs [E Hd]].
  rewrite E, zipGet_zipSet.
  apply String.eqb_neq in Hne. rewrite Hne.
  rewrite zipGet_app, (zipGet_folders dirs n Hd Hn).
  destruct (zipGet zip n); reflexivity.
Qed.

(** *** The images are stored *)

(** An entry is a folder or the image of one of the layers. *)
Local Abbreviation madeFrom :=
  (fun (layers : list Layer) (entry : string * ZipData Blob) =>
     isFolder entry \/
     (isImage entry /\ exists layer, In layer layers /\ imageName Blob layer = fst entry)).

Lemma stored_NoDup (layers : list Layer) (zip : Zip) :
  NoDup (entryNames Blob zip) ->
  NoDup (entryNames Blob (fold_left storeImage layers zip)).
Proof.
  revert zip; induction layers as [|layer layers IH]; intros zip H; simpl.
  - exact H.
  - apply IH, zipFile_NoDup, H.
Qed.

Lemma stored_shape (all layers : list Layer) (zip : Zip) :
  incl layers all ->
  Forall (madeFrom all) zip ->
  Forall (madeFrom all) (fold_left storeImage layers zip).
Proof.
  revert zip; induction layers as [|layer layers IH]; intros zip Hincl H; simpl.
  - exact H.
  - apply IH; [intros l Hl; apply Hincl; now right|].
    apply zipFile_Forall; [intros entry He; now left | exact H |].
    right. split; [exists (blob Blob layer); reflexivity|].
    exists layer. split; [apply Hincl; now left | reflexivity].
Qed.

Lemma stored_plain (layers : list Layer) (zip : Zip) :
  Forall (fun layer => without "/" (name Blob layer)) layers ->
  Forall isImage zip -> Forall isImage (fold_left storeImage layers zip).
Proof.
  intro Hp. revert zip; induction Hp as [|layer layers Hl Hls IH]; intros zip H; simpl.
  - exact H.
  - apply IH. rewrite KmzFacts.zipFile_plain by (apply KmzFacts.fileName_no_slash, Hl).
    apply zipSet_Forall; [exact H | exists (blob Blob layer); reflexivity].
Qed.

Lemma stored_elsewhere (layers : list Layer) (zip : Zip) (n : string) :
  endsWithSlash n = false ->
  (forall layer, In layer layers -> imageName Blob layer <> n) ->
  zipGet (fold_left storeImage layers zip) n = zipGet zip n.
Proof.
  intro Hn. revert zip; induction layers as [|layer layers IH]; intros zip H; simpl.
  - reflexivity.
  - rewrite IH by (intros l Hl; apply H; now right).
    apply zipGet_zipFile_other; [apply H; now left | exact Hn].
Qed.

(** The image of a layer is there, or a later one under the same name. *)
Lemma stored_image (layers : list Layer) (zip : Zip) (layer : Layer) :
  In layer layers ->
  exists data, zipGet (fold_left storeImage layers zip) (imageName Blob layer)
               = Some (ZBlob Blob data).
Proof.
  revert zip; induction layers as [|l layers IH] using rev_ind; intros zip H;
    [contradiction|].
  rewrite fold_left_app. simpl.
  destruct (string_dec (imageName Blob l) (imageName Blob layer)) as [E|E].
  - rewrite <- E. exists (blob Blob l). apply zipGet_zipFile_same.
  - rewrite zipGet_zipFile_other; [|exact E | apply fileName_not_folder].
    apply IH. apply in_app_or in H. destruct H as [H|[H|[]]]; [exact H|].
    subst l. congruence.
Qed.

Lemma manifest_name_free (all layers : list Layer) (zip : Zip) :
  Forall (madeFrom all) zip -> ~ In "doc.kml"%string (entryNames Blob zip).
Proof.
  intros H Hin. unfold entryNames in Hin. apply in_map_iff in Hin.
  destruct Hin as [[n d] [E Hn]]. simpl in E. subst n.
  rewrite Forall_forall in H. destruct (H _ Hn) as [[_ Hs]|[_ [layer [_ Hl]]]].
  - simpl in Hs. discriminate.
  - simpl in Hl. exact (KmzFacts.fileName_not_manifest _ Hl).
Qed.

Lemma createKmz_split (layers : list Layer) :
  createKmz Blob numToString layers
  = (fold_left storeImage layers []
     ++ [("doc.kml"%string, ZText Blob (manifest Blob numToString layers))])%list.
Proof.
  unfold createKmz. rewrite addLayer_split.
  rewrite KmzFacts.zipFile_fresh.
  - unfold manifest. rewrite KmzFacts.append_assoc. reflexivity.
  - repeat constructor.
  - apply (manifest_name_free layers layers).
    apply stored_shape; [apply incl_refl | constructor].
Qed.

End Assembler.

End KmzArchive.

(** X20.  For any list of layers the archive ends with the manifest
    [doc.kml], which records every layer, and its names are all
    different.  Before the manifest come only folders, under names that
    end with a slash, and images, under file names of the layers; every
    layer finds an image under its file name.  When no label holds a
    slash there is no folder, so at most one entry per layer. *)
Theorem archive_of_any_layers (Blob : Type) (numToString : num -> string)
    (layers : list (Kmz.Layer Blob)) :
  exists entries : Kmz.Zip Blob,
    Kmz.createKmz Blob numToString layers
    = (entries ++ [("doc.kml"%string,
                    Kmz.ZText Blob (Kmz.manifest Blob numToString layers))])%list /\
    NoDup (Kmz.entryNames Blob (Kmz.createKmz Blob numToString layers)) /\
    Forall (fun entry =>
              isFolder entry \/
              (isImage entry /\
               exists layer, In layer layers /\
                             Kmz.fileName (Kmz.name Blob layer) = fst entry))
           entries /\
    (forall layer, In layer layers ->
       exists data,
         In (Kmz.fileName (Kmz.name Blob layer), Kmz.ZBlob Blob data) entries) /\
    (Forall (fun layer => without "/" (Kmz.name Blob layer)) layers ->
     Forall isImage entries /\ (length entries <= length layers)%nat).
Proof.
  exists (fold_left (fun zip layer =>
                       Kmz.zipFile Blob zip (Kmz.imageName Blob layer)
                                   (Kmz.ZBlob Blob (Kmz.blob Blob layer)))
                    layers []).
  assert (Hnd : NoDup (Kmz.entryNames Blob
                 (fold_left (fun zip layer =>
                       Kmz.zipFile Blob zip (Kmz.imageName Blob layer)
                                   (Kmz.ZBlob Blob (Kmz.blob Blob layer)))
                    layers []))).
  { apply KmzArchive.stored_NoDup. constructor. }
  assert (Hshape : Forall (fun entry =>
              isFolder entry \/
              (isImage entry /\
               exists layer, In layer layers /\
                             Kmz.fileName (Kmz.name Blob layer) = fst entry))
            (fold_left (fun zip layer =>
                       Kmz.zipFile Blob zip (Kmz.imageName Blob layer)
                                   (Kmz.ZBlob Blob (Kmz.blob Blob layer)))
                    layers [])).
  { apply (KmzArchive.stored_shape Blob layers layers); [apply incl_refl | constructor]. }
  split; [apply KmzArchive.createKmz_split|]. split; [|split; [|split]].
  - rewrite KmzArchive.createKmz_split. unfold Kmz.entryNames.
    rewrite map_app. simpl.
    apply NoDup_app; [exact Hnd | repeat constructor; simpl; tauto |].
    intros n H [<-|[]].
    exact (KmzArchive.manifest_name_free Blob layers layers _ Hshape H).
  - exact Hshape.
  - intros layer Hl.
    destruct (KmzArchive.stored_image Blob layers [] layer Hl) as [data E].
    exists data. apply KmzArchive.zipGet_In. exact E.
  - intro Hplain.
    assert (Himg : Forall isImage
              (fold_left (fun zip layer =>
                       Kmz.zipFile Blob zip (Kmz.imageName Blob layer)
                                   (Kmz.ZBlob Blob (Kmz.blob Blob layer)))
                    layers []))
      by (apply KmzArchive.stored_plain; [exact Hplain | constructor]).
    split; [exact Himg|].
    rewrite <- (length_map fst).
    rewrite <- (length_map (fun layer => Kmz.fileName (Kmz.name Blob layer)) layers).
    apply NoDup_incl_length; [exact Hnd|].
    intros n H. apply in_map_iff in H. destruct H as [[m d] [E Hm]].
    simpl in E. subst m.
    rewrite Forall_forall in Hshape, Himg.
    destruct (Hshape _ Hm) as [[Hd _]|[_ [layer [Hl El]]]].
    + destruct (Himg _ Hm) as [data Hdata]. simpl in Hd, Hdata. congruence.
    + simpl in El. subst n. apply in_map_iff. exists layer.
      split; [reflexivity | exact Hl].
Qed.

Lemma archive_of_any_layers_witness :
  let box := Kmz.mkBox (Fin 1) (Fin 0) (Fin 1) (Fin 0) in
  let layers := [Kmz.mkLayer nat "N/A" 1%nat box; Kmz.mkLayer nat "B" 2%nat box] in
  exists entries : Kmz.Zip nat,
    Kmz.createKmz nat (fun _ => "0"%string) layers
    = (entries ++ [("doc.kml"%string,
                    Kmz.ZText nat (Kmz.manifest nat (fun _ => "0"%string) layers))])%list /\
    exists data, In ("B.png"%string, Kmz.ZBlob nat data) entries.
Proof.
  intros box layers.
  destruct (archive_of_any_layers nat (fun _ => "0"%string) layers)
    as [entries [E [_ [_ [H _]]]]].
  exists entries. split; [exact E|].
  apply (H (Kmz.mkLayer nat "B" 2%nat box)). simpl. tauto.
Defined.

(** X21.  The archive holds the manifest under [doc.kml], and under the
    file name of a layer the image of the last layer with that file name:
    when two layers share a file name, the later image replaces the
    earlier. *)
Theorem later_image_replaces_earlier (Blob : Type) (numToString : num -> string)
    (before after : list (Kmz.Layer Blob)) (layer : Kmz.Layer Blob) :
  (forall other, In other after ->
     Kmz.fileName (Kmz.name Blob other) <> Kmz.fileName (Kmz.name Blob layer)) ->
  let layers := (before ++ layer :: after)%list in
  zipGet (Kmz.createKmz Blob numToString layers) (Kmz.fileName (Kmz.name Blob layer))
  = Some (Kmz.ZBlob Blob (Kmz.blob Blob layer)) /\
  zipGet (Kmz.createKmz Blob numToString layers) "doc.kml"
  = Some (Kmz.ZText Blob (Kmz.manifest Blob numToString layers)).
Proof.
  intros Hafter layers. rewrite KmzArchive.createKmz_split.
  rewrite !KmzArchive.zipGet_app. split.
  - unfold layers. rewrite fold_left_app. simpl fold_left.
    rewrite KmzArchive.stored_elsewhere;
      [|apply KmzArchive.fileName_not_folder | exact Hafter].
    unfold Kmz.imageName. rewrite KmzArchive.zipGet_zipFile_same. reflexivity.
  - rewrite KmzArchive.zipGet_absent; [simpl; reflexivity|].
    apply (KmzArchive.manifest_name_free Blob layers layers).
    apply KmzArchive.stored_shape; [apply incl_refl | constructor].
Qed.

Lemma later_image_replaces_earlier_witness :
  let box := Kmz.mkBox (Fin 1) (Fin 0) (Fin 1) (Fin 0) in
  zipGet (Kmz.createKmz nat (fun _ => "0"%string)
            [Kmz.mkLayer nat "A B" 1%nat box; Kmz.mkLayer nat "A_B" 2%nat box])
         "A_B.png"
  = Some (Kmz.ZBlob nat 2%nat).
Proof.
  intro box.
  assert (H : forall other : Kmz.Layer nat, In other [] ->
                Kmz.fileName (Kmz.name nat other)
                <> Kmz.fileName (Kmz.name nat (Kmz.mkLayer nat "A_B" 2%nat box)))
    by (intros other []).
  exact (proj1 (later_image_replaces_earlier nat (fun _ => "0"%string)
                  [Kmz.mkLayer nat "A B" 1%nat box] []
                  (Kmz.mkLayer nat "A_B" 2%nat box) H)).
Defined.

(** ** File names *)

Lemma fileName_plain (label : string) :
  noWhitespace label -> Kmz.fileName label = (label ++ ".png")%string.
Proof.
  intro H. unfold Kmz.fileName. rewrite KmzFacts.replaceRuns_plain by exact H.
  reflexivity.
Qed.

Lemma fileName_plain_inj (a b : string) :
  noWhitespace a -> noWhitespace b -> Kmz.fileName a = Kmz.fileName b -> a = b.
Proof.
  intros Ha Hb E.
  rewrite (fileName_plain a Ha), (fileName_plain b Hb) in E.
  exact (KmzArchive.append_cancel_r _ _ _ E).
Qed.

Lemma fileName_plain_NoDup (labels : list string) :
  Forall noWhitespace labels -> NoDup labels -> NoDup (map Kmz.fileName labels).
Proof.
  intros Hw Hnd. induction Hnd as [|a l Ha Hl IH]; simpl; constructor.
  - intro Hin. apply in_map_iff in Hin. destruct Hin as [b' [E Hb']].
    inversion Hw as [|? ? Wa Wl]; subst.
    rewrite Forall_forall in Wl.
    assert (b' = a) by (apply fileName_plain_inj; [apply Wl, Hb' | exact Wa | exact E]).
    subst b'. exact (Ha Hb').
  - apply IH. inversion Hw; assumption.
Qed.

(** X22.  The replacement of whitespace is idempotent, and two different
    labels without whitespace get different file names; so layers whose
    labels are different and hold no whitespace never share an image. *)
Theorem fileName_keeps_plain_labels_apart :
  (forall label : string,
      Kmz.replaceRuns false (Kmz.replaceRuns false label)
      = Kmz.replaceRuns false label) /\
  (forall a b : string,
      noWhitespace a -> noWhitespace b ->
      Kmz.fileName a = Kmz.fileName b -> a = b) /\
  (forall labels : list string,
      Forall noWhitespace labels -> NoDup labels ->
      NoDup (map Kmz.fileName labels)).
Proof.
  split; [|split].
  - intro label. apply KmzFacts.replaceRuns_plain.
    apply KmzFacts.replaceRuns_no_whitespace.
  - exact fileName_plain_inj.
  - exact fileName_plain_NoDup.
Qed.

Lemma fileName_keeps_plain_labels_apart_witness :
  NoDup (map Kmz.fileName ["ENTEL"%string; "CLARO"%string]).
Proof.
  apply (proj2 (proj2 fileName_keeps_plain_labels_apart)).
  - repeat constructor.
  - repeat constructor; simpl; intuition discriminate.
Defined.

(** ** The layers of the application *)

Module AppFacts.

Import App.

Lemma existsb_eqb (v : string) (s : list string) :
  existsb (String.eqb v) s = true <-> In v s.
Proof.
  rewrite existsb_exists. split.
  - intros [x [Hx E]]. apply String.eqb_eq in E. congruence.
  - intro H. exists v. split; [exact H | apply String.eqb_refl].
Qed.

Lemma setAdd_In (s : list string) (v c : string) :
  In c (setAdd s v) <-> In c s \/ c = v.
Proof.
  unfold setAdd. destruct (existsb (String.eqb v) s) eqn:E.
  - apply existsb_eqb in E. split; [tauto|]. intros [H| ->]; assumption.
  - rewrite in_app_iff. simpl. split.
    + intros [H|[H|[]]]; [now left | right; congruence].
    + intros [H|H]; [now left | right; left; congruence].
Qed.

Lemma setAdd_NoDup (s : list string) (v : string) :
  NoDup s -> NoDup (setAdd s v).
Proof.
  intro H. unfold setAdd. destruct (existsb (String.eqb v) s) eqn:E; [exact H|].
  apply NoDup_app; [exact H | repeat constructor; simpl; tauto |].
  intros c Hc [<-|[]].
  apply existsb_eqb in Hc. congruence.
Qed.

Lemma set_NoDup (l acc : list string) :
  NoDup acc -> NoDup (fold_left setAdd l acc).
Proof.
  revert acc; induction l as [|v l IH]; intros acc H; simpl;
    [exact H | apply IH, setAdd_NoDup, H].
Qed.

Lemma set_In (l acc : list string) (c : string) :
  In c (fold_left setAdd l acc) <-> In c acc \/ In c l.
Proof.
  revert acc; induction l as [|v l IH]; intro acc; simpl.
  - tauto.
  - rewrite IH, setAdd_In. split.
    + intros [[H|H]|H]; auto.
    + intros [H|[H|H]]; auto.
Qed.

Lemma carriersOf_NoDup (allData : list CsvRow) : NoDup (carriersOf allData).
Proof. apply set_NoDup. constructor. Qed.

Lemma carriersOf_In (allData : list CsvRow) (c : string) :
  In c (carriersOf allData) <-> exists row, In row allData /\ carrier row = c.
Proof.
  unfold carriersOf. rewrite set_In, in_map_iff. simpl. split.
  - intros [[]|[row [E H]]]. exists row. split; assumption.
  - intros [row [H E]]. right. exists row. split; assumption.
Qed.

Lemma carrierData_In (allData : list CsvRow) (c : string) (row : CsvRow) :
  In row (carrierData allData c) <-> In row allData /\ carrier row = c.
Proof.
  unfold carrierData. rewrite filter_In, String.eqb_eq. reflexivity.
Qed.

Lemma list_sum_zero {A : Type} (l : list A) :
  list_sum (map (fun _ => 0%nat) l) = 0%nat.
Proof. induction l as [|x l IH]; simpl; [reflexivity | exact IH]. Qed.

Lemma list_sum_plus {A : Type} (f h : A -> nat) (l : list A) :
  list_sum (map (fun x => (f x + h x)%nat) l)
  = (list_sum (map f l) + list_sum (map h l))%nat.
Proof. induction l as [|x l IH]; simpl; [reflexivity | rewrite IH; lia]. Qed.

Lemma count_absent (x : string) (cs : list string) :
  ~ In x cs ->
  list_sum (map (fun c => if String.eqb x c then 1%nat else 0%nat) cs) = 0%nat.
Proof.
  induction cs as [|c cs IH]; simpl; intro H; [reflexivity|].
  destruct (String.eqb x c) eqn:E.
  - apply String.eqb_eq in E. exfalso. apply H. left. congruence.
  - apply IH. intro Hin. apply H. now right.
Qed.

Lemma count_present (x : string) (cs : list string) :
  NoDup cs -> In x cs ->
  list_sum (map (fun c => if String.eqb x c then 1%nat else 0%nat) cs) = 1%nat.
Proof.
  induction 1 as [|c cs Hc Hnd IH]; simpl; intro H; [contradiction|].
  destruct (String.eqb x c) eqn:E.
  - apply String.eqb_eq in E. subst c. rewrite count_absent by exact Hc. reflexivity.
  - apply IH. destruct H as [H|H]; [|exact H].
    apply String.eqb_neq in E. congruence.
Qed.

(** Every row is counted by one carrier of a duplicate-free list that
    holds its carrier. *)
Lemma partition_count (cs : list string) (data : list CsvRow) :
  NoDup cs -> (forall row, In row data -> In (carrier row) cs) ->
  list_sum (map (fun c => length (carrierData data c)) cs) = length data.
Proof.
  intros Hnd. induction data as [|row data IH]; intro H.
  - simpl. apply list_sum_zero.
  - transitivity
      (list_sum (map (fun c => ((if String.eqb (carrier row) c then 1 else 0)
                                + length (carrierData data c))%nat) cs)).
    + f_equal. apply map_ext. intro c. unfold carrierData. simpl.
      destruct (String.eqb (carrier row) c); reflexivity.
    + rewrite list_sum_plus, count_present.
      * rewrite IH; [reflexivity|]. intros r Hr. apply H. now right.
      * exact Hnd.
      * apply H. now left.
Qed.



Lemma lookup_cases (operator : string) :
  colorOf operator = "#0057A4"%string \/ colorOf operator = "#00A65A"%string \/
  colorOf operator = "#D40000"%string \/ colorOf operator = "#FFD500"%string \/
  (lookup DEFAULT_COLORS operator = None /\ colorOf operator = "#808080"%string).
Proof.
  unfold colorOf, DEFAULT_COLORS, lookup.
  destruct (String.eqb "ENTEL" operator); [simpl; tauto|].
  destruct (String.eqb "MOVISTAR" operator); [simpl; tauto|].
  destruct (String.eqb "CLARO" operator); [simpl; tauto|].
  destruct (String.eqb "BITEL" operator); [simpl; tauto|].
  simpl. tauto.
Qed.

Section Process.

Variable exp : Q -> Q.
Variable Blob : Type.
Variable hasContext : bool.
Variable toBlob : nat -> list Z -> option Blob.

Local Abbreviation layerOf := (App.layerOf exp Blob hasContext toBlob).
Local Abbreviation pushLayer := (App.pushLayer exp Blob hasContext toBlob).
Local Abbreviation boxOf :=
  (fun bounds : Bounds =>
     Kmz.mkBox (ymax bounds) (ymin bounds) (xmax bounds) (xmin bounds)).

(** What a layer that is pushed holds. *)
Lemma layerOf_inv (allData : list CsvRow) (bounds : Bounds)
    (config : ProcessingConfig) (c : string) (layer : Kmz.Layer Blob) :
  layerOf allData bounds config c = inl layer ->
  Kmz.name Blob layer = c /\
  Kmz.bounds Blob layer = boxOf bounds /\
  toBlob (gridRes config)
         (generateHeatmapLayer exp (carrierData allData c) bounds (colorOf c) config)
  = Some (Kmz.blob Blob layer).
Proof.
  unfold App.layerOf, App.renderLayer. cbv zeta.
  destruct (Qceiling (radius config * 3) * 2 + 1 <? 0)%Z; [discriminate|].
  destruct (negb hasContext); [discriminate|].
  destruct (gridRes config =? 0)%nat; [discriminate|].
  destruct (toBlob _ _) as [blob|]; [|discriminate].
  intro H. injection H as <-. repeat split.
Qed.

(** The failures of a layer. *)
Lemma layerOf_failure (allData : list CsvRow) (bounds : Bounds)
    (config : ProcessingConfig) (c : string) (failure : Failure) :
  layerOf allData bounds config c = inr failure -> failure <> NoData.
Proof.
  unfold App.layerOf, App.renderLayer. cbv zeta.
  destruct (Qceiling (radius config * 3) * 2 + 1 <? 0)%Z; [intro H; injection H as <-; discriminate|].
  destruct (negb hasContext); [intro H; injection H as <-; discriminate|].
  destruct (gridRes config =? 0)%nat; [intro H; injection H as <-; discriminate|].
  destruct (toBlob _ _) as [blob|]; [discriminate|].
  intro H; injection H as <-; discriminate.
Qed.

Lemma layerOf_ok (allData : list CsvRow) (bounds : Bounds)
    (config : ProcessingConfig) (c : string) :
  (0 <= Qceiling (radius config * 3) * 2 + 1)%Z -> hasContext = true ->
  (1 <= gridRes config)%nat -> (forall side pixels, toBlob side pixels <> None) ->
  exists layer, layerOf allData bounds config c = inl layer.
Proof.
  intros Hk Hc HR Hb. unfold App.layerOf, App.renderLayer. cbv zeta.
  rewrite (proj2 (Z.ltb_ge _ _) Hk), Hc. simpl negb. cbv iota.
  rewrite (proj2 (Nat.eqb_neq _ _)) by lia.
  destruct (toBlob _ _) as [blob|] eqn:E; [|exfalso; exact (Hb _ _ E)].
  eexists. reflexivity.
Qed.

(** *** The loop *)

Lemma push_failed (allData : list CsvRow) (bounds : Bounds)
    (config : ProcessingConfig) (cs : list string) (failure : Failure) :
  fold_left (pushLayer allData bounds config) cs (inr failure) = inr failure.
Proof. induction cs as [|c cs IH]; simpl; [reflexivity | exact IH]. Qed.

Lemma push_all (allData : list CsvRow) (bounds : Bounds)
    (config : ProcessingConfig) (cs : list string)
    (acc layers : list (Kmz.Layer Blob)) :
  Forall2 (fun c layer => layerOf allData bounds config c = inl layer) cs layers ->
  fold_left (pushLayer allData bounds config) cs (inl acc) = inl (acc ++ layers)%list.
Proof.
  intro H. revert acc. induction H as [|c layer cs layers Hc Hcs IH]; intro acc; simpl.
  - rewrite app_nil_r. reflexivity.
  - rewrite Hc, IH, <- app_assoc. reflexivity.
Qed.


Lemma push_failure (allData : list CsvRow) (bounds : Bounds)
    (config : ProcessingConfig) (cs : list string)
    (acc : list (Kmz.Layer Blob)) (failure : Failure) :
  fold_left (pushLayer allData bounds config) cs (inl acc) = inr failure ->
  failure <> NoData.
Proof.
  revert acc; induction cs as [|c cs IH]; intros acc H; simpl in H; [discriminate|].
  destruct (layerOf allData bounds config c) as [layer|f] eqn:E.
  - exact (IH _ H).
  - rewrite push_failed in H. injection H as <-.
    exact (layerOf_failure _ _ _ _ _ E).
Qed.

Lemma push_first (allData : list CsvRow) (bounds : Bounds)
    (config : ProcessingConfig) (cs : list string) (failure : Failure) :
  cs <> [] ->
  (forall c, layerOf allData bounds config c = inr failure) ->
  fold_left (pushLayer allData bounds config) cs (inl []) = inr failure.
Proof.
  intros Hne H. destruct cs as [|c cs]; [congruence|].
  simpl. rewrite H. apply push_failed.
Qed.

Lemma layers_exist (allData : list CsvRow) (bounds : Bounds)
    (config : ProcessingConfig) (cs : list string) :
  (0 <= Qceiling (radius config * 3) * 2 + 1)%Z -> hasContext = true ->
  (1 <= gridRes config)%nat -> (forall side pixels, toBlob side pixels <> None) ->
  exists layers,
    Forall2 (fun c layer => layerOf allData bounds config c = inl layer) cs layers.
Proof.
  intros Hk Hc HR Hb. induction cs as [|c cs [layers IH]].
  - exists []. constructor.
  - destruct (layerOf_ok allData bounds config c Hk Hc HR Hb) as [layer E].
    exists (layer :: layers). constructor; assumption.
Qed.

Lemma layers_names (allData : list CsvRow) (bounds : Bounds)
    (config : ProcessingConfig) (cs : list string) (layers : list (Kmz.Layer Blob)) :
  Forall2 (fun c layer => layerOf allData bounds config c = inl layer) cs layers ->
  map (Kmz.name Blob) layers = cs.
Proof.
  induction 1 as [|c layer cs layers Hc Hcs IH]; simpl; [reflexivity|].
  rewrite IH. destruct (layerOf_inv _ _ _ _ _ Hc) as [-> _]. reflexivity.
Qed.

Lemma layers_each (allData : list CsvRow) (bounds : Bounds)
    (config : ProcessingConfig) (cs : list string) (layers : list (Kmz.Layer Blob))
    (layer : Kmz.Layer Blob) :
  Forall2 (fun c layer => layerOf allData bounds config c = inl layer) cs layers ->
  In layer layers ->
  In (Kmz.name Blob layer) cs /\
  layerOf allData bounds config (Kmz.name Blob layer) = inl layer.
Proof.
  induction 1 as [|c l cs layers Hc Hcs IH]; simpl; [contradiction|].
  intros [<-|Hin].
  - destruct (layerOf_inv _ _ _ _ _ Hc) as [E _]. rewrite E.
    split; [now left | exact Hc].
  - destruct (IH Hin) as [A B]. split; [now right | exact B].
Qed.

Lemma carriersOf_not_empty (allData : list CsvRow) :
  allData <> [] -> carriersOf allData <> [].
Proof.
  destruct allData as [|row rest]; [congruence|]. intros _ E.
  assert (H : In (carrier row) (carriersOf (row :: rest)))
    by (apply carriersOf_In; exists row; split; [now left | reflexivity]).
  rewrite E in H. exact H.
Qed.

End Process.

End AppFacts.

(** X23.  When the radius is positive, the canvas has a context, the grid
    has at least one cell per side and the encoder gives a blob, the loop
    over the carriers ends with one layer per carrier: the labels of the layers
    are all different and are the carriers of the rows, and each layer
    holds the encoded image of the rows of its carrier, of which there is
    at least one.  When there is a row and the grid has no cell, the loop
    fails. *)
Theorem one_layer_per_carrier (exp : Q -> Q) (Blob : Type) (hasContext : bool)
    (toBlob : nat -> list Z -> option Blob) (allData : list CsvRow)
    (config : ProcessingConfig) :
  0 < radius config -> hasContext = true ->
  (forall side pixels, toBlob side pixels <> None) ->
  ((1 <= gridRes config)%nat ->
   exists layers,
     App.buildLayers exp Blob hasContext toBlob allData config = inl layers /\
     NoDup (map (Kmz.name Blob) layers) /\
     (forall c, In c (map (Kmz.name Blob) layers)
                <-> exists row, In row allData /\ carrier row = c) /\
     (forall layer, In layer layers ->
        App.carrierData allData (Kmz.name Blob layer) <> [] /\
        toBlob (gridRes config)
               (generateHeatmapLayer exp
                  (App.carrierData allData (Kmz.name Blob layer))
                  (computeBounds allData)
                  (App.colorOf (Kmz.name Blob layer)) config)
        = Some (Kmz.blob Blob layer))) /\
  (gridRes config = 0%nat -> allData <> [] ->
   App.buildLayers exp Blob hasContext toBlob allData config = inr App.EmptyImage).
Proof.
  intros Hs Hc Hb.
  assert (Hk : (0 <= Qceiling (radius config * 3) * 2 + 1)%Z)
    by (pose proof (halfWidth_ceiling (radius config) Hs); lia).
  split.
  - intro HR.
    destruct (AppFacts.layers_exist exp Blob hasContext toBlob allData
                (computeBounds allData) config (App.carriersOf allData) Hk Hc HR Hb)
      as [layers F].
    exists layers.
    pose proof (AppFacts.layers_names _ _ _ _ _ _ _ _ _ F) as En.
    split; [|split; [|split]].
    + unfold App.buildLayers. cbv zeta.
      rewrite (AppFacts.push_all _ _ _ _ _ _ _ _ [] layers F). reflexivity.
    + rewrite En. apply AppFacts.carriersOf_NoDup.
    + rewrite En. apply AppFacts.carriersOf_In.
    + intros layer Hl.
      destruct (AppFacts.layers_each _ _ _ _ _ _ _ _ _ _ F Hl) as [Hin E].
      destruct (AppFacts.layerOf_inv _ _ _ _ _ _ _ _ _ E) as [_ [_ Eb]].
      split; [|exact Eb].
      intro Hnil. apply AppFacts.carriersOf_In in Hin.
      destruct Hin as [row [Hrow Hcar]].
      assert (Hr : In row (App.carrierData allData (Kmz.name Blob layer)))
        by (apply AppFacts.carrierData_In; split; assumption).
      rewrite Hnil in Hr. exact Hr.
  - intros HR Hne. unfold App.buildLayers. cbv zeta.
    apply AppFacts.push_first; [apply AppFacts.carriersOf_not_empty, Hne|].
    intro c. unfold App.layerOf, App.renderLayer. cbv zeta.
    rewrite (proj2 (Z.ltb_ge _ _) Hk), Hc, HR. reflexivity.
Qed.

Lemma one_layer_per_carrier_witness :
  let exp := fun x : Q => 1 / (1 + x * x) in
  let toBlob := fun (side : nat) (pixels : list Z) => Some (length pixels) in
  let allData := [mkRow (Fin 1) (Fin 2) "A"; mkRow (Fin 3) (Fin 5) "B";
                  mkRow (Fin 2) (Fin 2) "A"] in
  exists layers,
    App.buildLayers exp nat true toBlob allData (mkConfig 2 (1 # 2) (3 # 10))
    = inl layers /\
    NoDup (map (Kmz.name nat) layers).
Proof.
  intros exp toBlob allData.
  assert (Hs : 0 < radius (mkConfig 2 (1 # 2) (3 # 10))) by (simpl; lra).
  assert (Hb : forall side pixels, toBlob side pixels <> None)
    by (intros side pixels; discriminate).
  assert (HR : (1 <= gridRes (mkConfig 2 (1 # 2) (3 # 10)))%nat) by (simpl; lia).
  destruct (proj1 (one_layer_per_carrier exp nat true toBlob allData
                     (mkConfig 2 (1 # 2) (3 # 10)) Hs eq_refl Hb) HR)
    as [layers [E [Hnd _]]].
  exists layers. split; assumption.
Defined.

(** X24.  The layers partition the rows: a row belongs to the data of its
    own carrier and of no other, and the numbers of rows of the layers add
    up to the number of rows. *)
Theorem carriers_partition_the_rows (allData : list CsvRow) :
  (forall row c, In row allData ->
     (In row (App.carrierData allData c) <-> c = carrier row)) /\
  list_sum (map (fun c => length (App.carrierData allData c))
                (App.carriersOf allData))
  = length allData.
Proof.
  split.
  - intros row c Hin. rewrite AppFacts.carrierData_In. split.
    + intros [_ E]. congruence.
    + intros ->. split; [exact Hin | reflexivity].
  - apply AppFacts.partition_count; [apply AppFacts.carriersOf_NoDup|].
    intros row Hin. apply AppFacts.carriersOf_In. exists row. split; [exact Hin | reflexivity].
Qed.

Lemma carriers_partition_the_rows_witness :
  In (mkRow (Fin 3) (Fin 5) "B") (App.carrierData [mkRow (Fin 1) (Fin 2) "A"; mkRow (Fin 3) (Fin 5) "B"; mkRow (Fin 2) (Fin 2) "A"] "B")
  <-> "B"%string = carrier (mkRow (Fin 3) (Fin 5) "B").
Proof.
  apply (proj1 (carriers_partition_the_rows
                  [mkRow (Fin 1) (Fin 2) "A"; mkRow (Fin 3) (Fin 5) "B"; mkRow (Fin 2) (Fin 2) "A"])).
  simpl. tauto.
Defined.





(** X27.  Every layer is drawn in a colour the parser reads: the colour of
    its operator in the table, or the grey [#808080] for an operator the
    table does not hold. *)
Theorem every_layer_has_a_colour (operator : string) :
  isColorCode (App.colorOf operator) /\
  In (hexToRgb (App.colorOf operator))
     [ {| r := 0; g := 87; b := 164 |}; {| r := 0; g := 166; b := 90 |};
       {| r := 212; g := 0; b := 0 |}; {| r := 255; g := 213; b := 0 |};
       {| r := 128; g := 128; b := 128 |} ] /\
  (App.lookup App.DEFAULT_COLORS operator = None ->
     hexToRgb (App.colorOf operator) = {| r := 128; g := 128; b := 128 |}).
Proof.
  assert (C : forall s, In s ["#0057A4"; "#00A65A"; "#D40000"; "#FFD500"; "#808080"]%string ->
                isColorCode s).
  { intros s H. simpl in H.
    destruct H as [<-|[<-|[<-|[<-|[<-|[]]]]]];
      (split; [reflexivity | repeat constructor]). }
  destruct (AppFacts.lookup_cases operator) as [E|[E|[E|[E|[N E]]]]].
  - rewrite E. split; [apply C; simpl; tauto|]. split; [simpl; tauto|].
    intro H. revert E. unfold App.colorOf. rewrite H. discriminate.
  - rewrite E. split; [apply C; simpl; tauto|]. split; [simpl; tauto|].
    intro H. revert E. unfold App.colorOf. rewrite H. discriminate.
  - rewrite E. split; [apply C; simpl; tauto|]. split; [simpl; tauto|].
    intro H. revert E. unfold App.colorOf. rewrite H. discriminate.
  - rewrite E. split; [apply C; simpl; tauto|]. split; [simpl; tauto|].
    intro H. revert E. unfold App.colorOf. rewrite H. discriminate.
  - rewrite E. split; [apply C; simpl; tauto|]. split; [simpl; tauto|].
    intros _. reflexivity.
Qed.

Lemma every_layer_has_a_colour_witness :
  hexToRgb (App.colorOf "TELCO") = {| r := 128; g := 128; b := 128 |}.
Proof.
  apply (proj2 (proj2 (every_layer_has_a_colour "TELCO"))). reflexivity.
Defined.

(** X28.  The processing stops for want of data exactly when there is no
    row.  With a row, it fails when the kernel would have a negative
    length, when the canvas has no context and when the grid has no cell.
    When the radius is positive, the canvas has a context, the grid has a
    cell, the encoder gives a blob and the carriers hold neither
    whitespace nor a slash, the archive holds one image per
    carrier, named after it and in the order in which the carriers first
    appear, and then the manifest. *)
Theorem archive_of_the_application (exp : Q -> Q) (Blob : Type)
    (hasContext : bool) (toBlob : nat -> list Z -> option Blob)
    (numToString : num -> string)
    (allData : list CsvRow) (config : ProcessingConfig) :
  let size := (Qceiling (radius config * 3) * 2 + 1)%Z in
  let result := App.processData exp Blob hasContext toBlob numToString allData config in
  (result = inr App.NoData <-> allData = []) /\
  (allData <> [] ->
   ((size < 0)%Z -> result = inr App.InvalidLength) /\
   ((0 <= size)%Z -> hasContext = false -> result = inr App.NoContext) /\
   ((0 <= size)%Z -> hasContext = true -> gridRes config = 0%nat ->
    result = inr App.EmptyImage)) /\
  (allData <> [] ->
   0 < radius config -> hasContext = true -> (1 <= gridRes config)%nat ->
   (forall side pixels, toBlob side pixels <> None) ->
   (forall row, In row allData ->
      noWhitespace (carrier row) /\ without "/" (carrier row)) ->
   exists zip,
     result = inl zip /\
     Kmz.entryNames Blob zip
     = (map (fun c => (c ++ ".png")%string) (App.carriersOf allData)
        ++ ["doc.kml"%string])%list).
Proof.
  intros size result.
  assert (Fail : forall failure,
             allData <> [] ->
             (forall c, App.layerOf exp Blob hasContext toBlob allData
                          (computeBounds allData) config c = inr failure) ->
             result = inr failure).
  { intros failure Hne H. unfold result, App.processData.
    destruct allData as [|row rest]; [congruence|]. simpl Nat.eqb. cbv iota.
    unfold App.buildLayers. cbv zeta.
    rewrite (AppFacts.push_first exp Blob hasContext toBlob _ _ _ _ failure);
      [reflexivity | apply AppFacts.carriersOf_not_empty; discriminate | exact H]. }
  split; [|split].
  - unfold result, App.processData. destruct allData as [|row rest]; simpl.
    + tauto.
    + split; [|discriminate].
      destruct (App.buildLayers exp Blob hasContext toBlob (row :: rest) config)
        as [layers|failure] eqn:E; [discriminate|].
      intro H. injection H as ->.
      unfold App.buildLayers in E. cbv zeta in E.
      exfalso. exact (AppFacts.push_failure _ _ _ _ _ _ _ _ _ _ E eq_refl).
  - intro Hne. split; [|split].
    + intro Hk. apply Fail; [exact Hne|]. intro c.
      unfold App.layerOf, App.renderLayer. cbv zeta. fold size.
      rewrite (proj2 (Z.ltb_lt _ _) Hk). reflexivity.
    + intros Hk Hc. apply Fail; [exact Hne|]. intro c.
      unfold App.layerOf, App.renderLayer. cbv zeta. fold size.
      rewrite (proj2 (Z.ltb_ge _ _) Hk), Hc. reflexivity.
    + intros Hk Hc HR. apply Fail; [exact Hne|]. intro c.
      unfold App.layerOf, App.renderLayer. cbv zeta. fold size.
      rewrite (proj2 (Z.ltb_ge _ _) Hk), Hc, HR. reflexivity.
  - intros Hne Hs Hc HR Hb Hw.
    assert (Hk : (0 <= Qceiling (radius config * 3) * 2 + 1)%Z)
      by (pose proof (halfWidth_ceiling (radius config) Hs); lia).
    destruct (AppFacts.layers_exist exp Blob hasContext toBlob allData
                (computeBounds allData) config (App.carriersOf allData) Hk Hc HR Hb)
      as [layers F].
    pose proof (AppFacts.layers_names _ _ _ _ _ _ _ _ _ F) as En.
    exists (Kmz.createKmz Blob numToString layers).
    split.
    + unfold result, App.processData. destruct allData; [congruence|].
      simpl Nat.eqb. cbv iota. unfold App.buildLayers. cbv zeta.
      rewrite (AppFacts.push_all _ _ _ _ _ _ _ _ [] layers F). reflexivity.
    + assert (Hcar : forall c, In c (App.carriersOf allData) ->
                       noWhitespace c /\ without "/" c).
      { intros c H. apply AppFacts.carriersOf_In in H.
        destruct H as [row [Hin <-]]. apply Hw, Hin. }
      assert (Hnames : map (Kmz.imageName Blob) layers
                       = map Kmz.fileName (App.carriersOf allData)).
      { rewrite <- En, map_map. reflexivity. }
      assert (Hplain : Forall (fun layer => without "/" (Kmz.name Blob layer)) layers).
      { apply Forall_forall. intros layer Hl. apply Hcar. rewrite <- En.
        apply in_map, Hl. }
      unfold Kmz.createKmz.
      rewrite KmzFacts.addLayer_fold; [|exact Hplain|].
      * simpl app. rewrite KmzFacts.zipFile_fresh.
        -- unfold Kmz.entryNames. rewrite map_app, map_map. simpl.
           f_equal. change (fun x => Kmz.imageName Blob x) with (Kmz.imageName Blob).
           rewrite Hnames. apply map_ext_in. intros c H.
           apply fileName_plain, Hcar, H.
        -- repeat constructor.
        -- unfold Kmz.entryNames. rewrite map_map. simpl.
           intro Hin. apply in_map_iff in Hin. destruct Hin as [layer [Hl _]].
           exact (KmzFacts.fileName_not_manifest _ Hl).
      * simpl. rewrite Hnames.
        apply fileName_plain_NoDup; [|apply AppFacts.carriersOf_NoDup].
        apply Forall_forall. intros c H. apply Hcar, H.
Qed.

Lemma archive_of_the_application_witness :
  let exp := fun x : Q => 1 / (1 + x * x) in
  let toBlob := fun (side : nat) (pixels : list Z) => Some (length pixels) in
  let allData := [mkRow (Fin 1) (Fin 2) "A"; mkRow (Fin 3) (Fin 5) "B";
                  mkRow (Fin 2) (Fin 2) "A"] in
  exists zip,
    App.processData exp nat true toBlob (fun _ => "0"%string) allData
                    (mkConfig 2 (1 # 2) (3 # 10)) = inl zip /\
    Kmz.entryNames nat zip
    = (map (fun c => (c ++ ".png")%string) (App.carriersOf allData)
       ++ ["doc.kml"%string])%list.
Proof.
  intros exp toBlob allData.
  apply (proj2 (proj2 (archive_of_the_application exp nat true toBlob
                         (fun _ => "0"%string) allData
                         (mkConfig 2 (1 # 2) (3 # 10))))).
  - discriminate.
  - simpl. lra.
  - reflexivity.
  - simpl. lia.
  - intros side pixels. discriminate.
  - intros row Hin. simpl in Hin.
    destruct Hin as [<-|[<-|[<-|[]]]]; split; repeat constructor.
Defined.

(** ** From the rows to the image *)




Section Centre.

Variables (data : list Q) (width height : nat) (kernel : list Q).

Hypothesis data_length : length data = (width * height)%nat.
Hypothesis data_nonneg : nonneg data.
Hypothesis kernel_nonneg : nonneg kernel.
Hypothesis centre_inside : (length kernel / 2 < length kernel)%nat.



End Centre.






Lemma histogram_of_misses (bounds : Bounds) (gridRes : nat) (data : list CsvRow) :
  (forall row, In row data -> inGrid bounds gridRes row = false) ->
  histogram bounds gridRes data = repeat 0 (gridRes * gridRes)%nat.
Proof.
  unfold histogram. generalize (repeat 0 (gridRes * gridRes)%nat).
  induction data as [|row data IH]; intros grid H; simpl; [reflexivity|].
  unfold accumulate at 2. rewrite (H row) by now left.
  apply IH. intros r Hr. apply H. now right.
Qed.

(** X30.  A layer none of whose rows falls in the grid, and so a layer
    without rows, gives an image in which every byte is zero: it is
    entirely transparent. *)
Theorem a_layer_without_hits_is_transparent (exp : Q -> Q)
    (data : list CsvRow) (bounds : Bounds) (color : string)
    (config : ProcessingConfig) :
  (forall x, 0 < exp x) -> 0 < radius config ->
  (forall row, In row data -> inGrid bounds (gridRes config) row = false) ->
  generateHeatmapLayer exp data bounds color config
  = repeat 0%Z (gridRes config * gridRes config * 4)%nat.
Proof.
  intros Hexp Hs Hmiss.
  assert (Hheat : within 0 0 (heatOf exp data bounds config)).
  { unfold heatOf. cbv zeta. rewrite (histogram_of_misses _ _ _ Hmiss).
    apply smoothed_within; try assumption.
    - apply repeat_length.
    - apply Forall_forall. intros v Hv. apply repeat_spec in Hv. subst v. lra. }
  assert (Hle : forall v, In v (heatOf exp data bounds config) -> v <= 0).
  { unfold within in Hheat. rewrite Forall_forall in Hheat.
    intros v Hv. apply Hheat in Hv. lra. }
  assert (Em : maxDensity (heatOf exp data bounds config) = 0).
  { unfold maxDensity. rewrite (validValues_none _ Hle). reflexivity. }
  assert (Ec : cutoff (heatOf exp data bounds config) (thresholdRatio config) == 0)
    by (unfold cutoff; rewrite Em; ring).
  unfold generateHeatmapLayer. cbv zeta.
  assert (B : Forall (eq 0%Z)
                (renderPixels (gridRes config) (hexToRgb color)
                   (cutoff (heatOf exp data bounds config) (thresholdRatio config))
                   (maxDensity (heatOf exp data bounds config))
                   (heatOf exp data bounds config)))
    by (apply renderPixels_blank; [exact Ec | rewrite Em; reflexivity | exact Hle]).
  assert (L : length (renderPixels (gridRes config) (hexToRgb color)
                   (cutoff (heatOf exp data bounds config) (thresholdRatio config))
                   (maxDensity (heatOf exp data bounds config))
                   (heatOf exp data bounds config))
              = (gridRes config * gridRes config * 4)%nat).
  { unfold renderPixels. rewrite render_prefix_length. apply repeat_length. }
  rewrite <- L. revert B. generalize (renderPixels (gridRes config) (hexToRgb color)
                   (cutoff (heatOf exp data bounds config) (thresholdRatio config))
                   (maxDensity (heatOf exp data bounds config))
                   (heatOf exp data bounds config)).
  intro l. induction 1 as [|z l Hz Hl IH]; simpl; [reflexivity|].
  rewrite <- Hz, <- IH. reflexivity.
Qed.

Lemma a_layer_without_hits_is_transparent_witness :
  generateHeatmapLayer (fun x => 1 / (1 + x * x)) [mkRow (Fin 1) (Fin 2) "A"]
    (computeBounds []) "#0057A4" (mkConfig 2 (1 # 2) (3 # 10))
  = repeat 0%Z (2 * 2 * 4)%nat.
Proof.
  apply (a_layer_without_hits_is_transparent (fun x => 1 / (1 + x * x))
           [mkRow (Fin 1) (Fin 2) "A"] (computeBounds []) "#0057A4" (mkConfig 2 (1 # 2) (3 # 10))).
  - intro x. apply Qlt_shift_div_l; nra.
  - simpl. lra.
  - intros row Hin. simpl in Hin. destruct Hin as [<-|[]]. reflexivity.
Defined.

(** ** Rows with an infinite coordinate *)

Lemma scanNum_xmin (data : list CsvRow) (acc : Bounds) :
  xmin (fold_left scanRow data acc)
  = fold_left minNum (map gps_longitude data) (xmin acc).
Proof. revert acc; induction data as [|row data IH]; intro acc; simpl; [|rewrite IH]; reflexivity. Qed.

Lemma scanNum_xmax (data : list CsvRow) (acc : Bounds) :
  xmax (fold_left scanRow data acc)
  = fold_left maxNum (map gps_longitude data) (xmax acc).
Proof. revert acc; induction data as [|row data IH]; intro acc; simpl; [|rewrite IH]; reflexivity. Qed.

Lemma scanNum_ymin (data : list CsvRow) (acc : Bounds) :
  ymin (fold_left scanRow data acc)
  = fold_left minNum (map gps_latitude data) (ymin acc).
Proof. revert acc; induction data as [|row data IH]; intro acc; simpl; [|rewrite IH]; reflexivity. Qed.

Lemma scanNum_ymax (data : list CsvRow) (acc : Bounds) :
  ymax (fold_left scanRow data acc)
  = fold_left maxNum (map gps_latitude data) (ymax acc).
Proof. revert acc; induction data as [|row data IH]; intro acc; simpl; [|rewrite IH]; reflexivity. Qed.

Lemma maxNum_top (l : list num) : fold_left maxNum l PInf = PInf.
Proof.
  induction l as [|v l IH]; simpl; [reflexivity|].
  replace (maxNum PInf v) with PInf by (destruct v; reflexivity). exact IH.
Qed.

Lemma minNum_bottom (l : list num) : fold_left minNum l NInf = NInf.
Proof.
  induction l as [|v l IH]; simpl; [reflexivity|].
  replace (minNum NInf v) with NInf by (destruct v; reflexivity). exact IH.
Qed.

Lemma maxNum_valid (l : list num) (acc : num) :
  acc <> NaN -> Forall (fun v => v <> NaN) l -> fold_left maxNum l acc <> NaN.
Proof.
  intros Ha H. revert acc Ha. induction H as [|v l Hv Hl IH]; intros acc Ha; simpl.
  - exact Ha.
  - apply IH. unfold maxNum. destruct (Num.gtb v acc); assumption.
Qed.

Lemma minNum_valid (l : list num) (acc : num) :
  acc <> NaN -> Forall (fun v => v <> NaN) l -> fold_left minNum l acc <> NaN.
Proof.
  intros Ha H. revert acc Ha. induction H as [|v l Hv Hl IH]; intros acc Ha; simpl.
  - exact Ha.
  - apply IH. unfold minNum. destruct (Num.ltb v acc); assumption.
Qed.

(** An infinite value takes the side of the scan it is on. *)
Lemma maxNum_reach (l : list num) (acc : num) :
  acc <> NaN -> Forall (fun v => v <> NaN) l -> In PInf l ->
  fold_left maxNum l acc = PInf.
Proof.
  intros Ha H. revert acc Ha.
  induction H as [|v l Hv Hl IH]; intros acc Ha Hin; simpl; [contradiction|].
  destruct Hin as [->|Hin].
  - replace (maxNum acc PInf) with PInf
      by (destruct acc; [congruence | reflexivity..]).
    apply maxNum_top.
  - apply IH; [|exact Hin]. unfold maxNum. destruct (Num.gtb v acc); assumption.
Qed.

Lemma minNum_reach (l : list num) (acc : num) :
  acc <> NaN -> Forall (fun v => v <> NaN) l -> In NInf l ->
  fold_left minNum l acc = NInf.
Proof.
  intros Ha H. revert acc Ha.
  induction H as [|v l Hv Hl IH]; intros acc Ha Hin; simpl; [contradiction|].
  destruct Hin as [->|Hin].
  - replace (minNum acc NInf) with NInf
      by (destruct acc; [congruence | reflexivity..]).
    apply minNum_bottom.
  - apply IH; [|exact Hin]. unfold minNum. destruct (Num.ltb v acc); assumption.
Qed.

(** With an infinite value on an axis, the padded sides are infinite or
    [NaN] and every index along the axis is [NaN]. *)
Lemma axis_poisoned (l : list num) (gridRes : nat) (v : num) :
  Forall (fun v => v <> NaN) l -> In PInf l \/ In NInf l ->
  let lo := fold_left minNum l PInf in
  let hi := fold_left maxNum l NInf in
  let pad := Num.mul (Num.sub hi lo) (Fin padding) in
  axisIndex (Num.sub lo pad) (Num.add hi pad) gridRes v = NaN.
Proof.
  intros H Hinf lo hi pad.
  assert (Hlo : lo <> NaN) by (apply minNum_valid; [discriminate | exact H]).
  assert (Hhi : hi <> NaN) by (apply maxNum_valid; [discriminate | exact H]).
  destruct Hinf as [Hin|Hin].
  - assert (E : hi = PInf) by (apply maxNum_reach; [discriminate | exact H | exact Hin]).
    unfold pad. rewrite E.
    destruct lo as [| | |m]; [congruence | | |]; destruct v; reflexivity.
  - assert (E : lo = NInf) by (apply minNum_reach; [discriminate | exact H | exact Hin]).
    unfold pad. rewrite E.
    destruct hi as [| | |m]; [congruence | | |]; destruct v; reflexivity.
Qed.

Lemma In_map_value {A : Type} (f : A -> num) (l : list A) (x : A) (v : num) :
  In x l -> f x = v -> In v (map f l).
Proof. intros H <-. apply in_map, H. Qed.

(** X31.  A row with an infinite coordinate, which the parser lets through,
    empties every grid: when no coordinate is [NaN] and some row of the
    data the bounds are computed from has an infinite longitude or
    latitude, no row at all passes the range test, and the histogram of
    any list of rows is zero in every cell. *)
Theorem an_infinite_row_empties_the_grids (all data : list CsvRow)
    (gridRes : nat) (bad : CsvRow) :
  (forall row, In row all -> gps_longitude row <> NaN /\ gps_latitude row <> NaN) ->
  In bad all ->
  isInfinite (gps_longitude bad) \/ isInfinite (gps_latitude bad) ->
  (forall row, inGrid (computeBounds all) gridRes row = false) /\
  histogram (computeBounds all) gridRes data = repeat 0 (gridRes * gridRes)%nat.
Proof.
  intros Hvalid Hbad Hinf.
  assert (Hlon : Forall (fun v => v <> NaN) (map gps_longitude all)).
  { apply Forall_forall. intros v Hv. apply in_map_iff in Hv.
    destruct Hv as [row [<- Hrow]]. apply Hvalid, Hrow. }
  assert (Hlat : Forall (fun v => v <> NaN) (map gps_latitude all)).
  { apply Forall_forall. intros v Hv. apply in_map_iff in Hv.
    destruct Hv as [row [<- Hrow]]. apply Hvalid, Hrow. }
  assert (Hmiss : forall row, inGrid (computeBounds all) gridRes row = false).
  { intro row. unfold inGrid, xIndex, yIndex, computeBounds. cbv zeta.
    cbn [xmin xmax ymin ymax].
    rewrite scanNum_xmin, scanNum_xmax, scanNum_ymin, scanNum_ymax.
    cbn [xmin xmax ymin ymax scanInit].
    destruct Hinf as [Hx|Hy].
    - rewrite (axis_poisoned (map gps_longitude all) gridRes (gps_longitude row) Hlon).
      + reflexivity.
      + destruct Hx as [E|E]; [left | right]; exact (In_map_value _ _ _ _ Hbad E).
    - rewrite (axis_poisoned (map gps_latitude all) gridRes (gps_latitude row) Hlat).
      + simpl Num.geb. rewrite andb_false_r. reflexivity.
      + destruct Hy as [E|E]; [left | right]; exact (In_map_value _ _ _ _ Hbad E). }
  split; [exact Hmiss|].
  apply histogram_of_misses. intros row _. apply Hmiss.
Qed.

Lemma an_infinite_row_empties_the_grids_witness :
  let all := [mkRow (Fin 1) (Fin 2) "A"; mkRow (Fin 3) PInf "B"] in
  histogram (computeBounds all) 2 all = repeat 0 (2 * 2)%nat.
Proof.
  intro all.
  apply (an_infinite_row_empties_the_grids all all 2 (mkRow (Fin 3) PInf "B")).
  - intros row Hin. simpl in Hin.
    destruct Hin as [<-|[<-|[]]]; split; discriminate.
  - simpl. tauto.
  - left. left. reflexivity.
Defined.
